(** * Better Auto Linker: title index, match scanner and link rewriter

    A shallow embedding of [main.js] (class [NoteLinkerPlugin]).  The plugin
    keeps a cache of note titles, scans a note for occurrences of those
    titles with a regular expression built per title, and rewrites the note
    by textual substitution.

    JavaScript strings are modelled as lists of characters ([list ascii]),
    so the development covers texts whose code units are below 256.  The regular
    expressions that [new RegExp] receives are built at run time from the
    titles; they are modelled by the pattern text, a compiler from pattern
    text to a syntax tree for the fragment of the pattern language these
    patterns live in, and a backtracking matcher. *)

From Stdlib Require Import Ascii String.
From stdpp Require Import base list strings gmap sorting.

Abbreviation jsstring := (list ascii).

(** String literals of the source are written [js "..."]. *)
Definition js (s : string) : jsstring := list_ascii_of_string s.

(** [str.slice(s, e)] for non-negative, already clamped bounds. *)
Definition slice (s e : nat) (str : jsstring) : jsstring :=
  take (e - s) (drop s str).

(** [str.startsWith(p)]. *)
Fixpoint startsWith (str p : jsstring) : bool :=
  match p, str with
  | [], _ => true
  | _ :: _, [] => false
  | a :: p', b :: str' => if Ascii.eqb a b then startsWith str' p' else false
  end.

(** ** Character classes of the pattern language *)

(** What the ignore-case flag compares characters under: the upper-case
    form of a character when that form is one code unit.  On the code
    units of the model these are the letters a-z and the accented letters
    224-254 other than the division sign 247, each of them 32 above its
    upper-case form.  The micro sign 181 and the y with diaeresis 255 have
    upper-case forms outside the model, which no other code unit of the
    model shares, and the upper-case form of the sharp s 223 has two code
    units: these three compare equal to themselves only, like every
    character that is not a letter. *)
Definition toUpperCase (c : ascii) : ascii :=
  let n := nat_of_ascii c in
  if ((97 <=? n) && (n <=? 122))
     || ((224 <=? n) && (n <=? 254) && negb (n =? 247))
  then ascii_of_nat (n - 32) else c.

Definition canonicalize (ignoreCase : bool) (c : ascii) : ascii :=
  if ignoreCase then toUpperCase c else c.

(** Word characters, as seen by [\b]: letters, digits and underscore. *)
Definition isWordChar (c : ascii) : bool :=
  let n := nat_of_ascii c in
  ((48 <=? n) && (n <=? 57)) || ((65 <=? n) && (n <=? 90))
  || (n =? 95) || ((97 <=? n) && (n <=? 122)).

(** The characters of the class [[.*+?^${}()|[\]\\]] in [escapeRegExp]. *)
Definition isSpecial (c : ascii) : bool :=
  existsb (Ascii.eqb c) (js ".*+?^${}()|[]\").

Definition isParen (c : ascii) : bool :=
  Ascii.eqb c "("%char || Ascii.eqb c ")"%char.

(** Characters a backslash may precede as an identity escape. *)
Definition isSyntaxChar (c : ascii) : bool :=
  existsb (Ascii.eqb c) (js "^$\.*+?()[]{}|/").

(** ** Pattern syntax *)

Inductive regex : Type :=
| Eps
| Chr (c : ascii)              (* a literal character *)
| OptChr (c : ascii)           (* [c?], greedy *)
| Bol                          (* [^] without the multiline flag *)
| WordB                        (* [\b] *)
| AnyLazyPlus                  (* [[\s\S]+?] *)
| Cat (r1 r2 : regex)
| Grp (n : nat) (r : regex)    (* capturing group number [n] *)
| NegBehind (s : jsstring)     (* [(?<!s)] for a literal [s] *)
| NegAhead (r : regex).        (* [(?!r)] *)

Definition seq (items : list regex) : regex := foldr Cat Eps items.

Definition lit (s : jsstring) : regex := seq (Chr <$> s).

(** A compiled expression: the syntax tree, the number of capturing groups
    and the flags. *)
Record RegExp := {
  re_tree : regex;
  re_groups : nat;
  re_global : bool;
  re_ignoreCase : bool
}.

(** What [new RegExp(pattern, flags)] does with a pattern text. *)
Inductive compiled : Type :=
| Compiled (r : regex) (groups : nat)
| PatternSyntaxError            (* the constructor throws SyntaxError *)
| OutsideFragment.              (* pattern syntax this model does not cover *)

Inductive frame_kind := FCapture (n : nat) | FNegAhead | FNegBehind.

(** An open group: its kind and the items read before it, latest first. *)
Record frame := { f_kind : frame_kind; f_saved : list regex }.

Fixpoint literal_of (items : list regex) : option jsstring :=
  match items with
  | [] => Some []
  | Chr c :: items' => (c ::.) <$> literal_of items'
  | _ => None
  end.

(** Closing a group turns the items read inside it into one item. *)
Definition close_group (k : frame_kind) (inner : list regex) : option regex :=
  match k with
  | FCapture n => Some (Grp n (seq (rev inner)))
  | FNegAhead => Some (NegAhead (seq (rev inner)))
  | FNegBehind => NegBehind <$> literal_of (rev inner)
  end.

(** One left-to-right pass over the pattern text with a stack of open
    groups; [cur] holds the items of the innermost open group, latest
    first.  Capturing groups are numbered by their opening parenthesis. *)
Fixpoint parse (pat : jsstring) (stack : list frame) (cur : list regex)
    (groups : nat) : compiled :=
  match pat with
  | [] =>
      match stack with
      | [] => Compiled (seq (rev cur)) groups
      | _ :: _ => PatternSyntaxError          (* unterminated group *)
      end
  | "(" :: "?" :: "<" :: "!" :: pat' =>
      parse pat' ({| f_kind := FNegBehind; f_saved := cur |} :: stack) [] groups
  | "(" :: "?" :: "!" :: pat' =>
      parse pat' ({| f_kind := FNegAhead; f_saved := cur |} :: stack) [] groups
  | "(" :: "?" :: _ => OutsideFragment
  | "(" :: pat' =>
      parse pat' ({| f_kind := FCapture (S groups); f_saved := cur |} :: stack)
        [] (S groups)
  | ")" :: pat' =>
      match stack with
      | [] => PatternSyntaxError               (* unmatched ')' *)
      | f :: stack' =>
          match close_group (f_kind f) cur with
          | Some item => parse pat' stack' (item :: f_saved f) groups
          | None => OutsideFragment
          end
      end
  | "\" :: c :: pat' =>
      if Ascii.eqb c "b" then parse pat' stack (WordB :: cur) groups
      else if isSyntaxChar c then parse pat' stack (Chr c :: cur) groups
      else OutsideFragment
  | "\" :: [] => PatternSyntaxError            (* \ at end of pattern *)
  | "?" :: pat' =>
      match cur with
      | Chr c :: cur' => parse pat' stack (OptChr c :: cur') groups
      | [] => PatternSyntaxError               (* nothing to repeat *)
      | _ :: _ => OutsideFragment
      end
  | c :: pat' =>
      if existsb (Ascii.eqb c) (js "*+{[|.^$") then OutsideFragment
      else parse pat' stack (Chr c :: cur) groups
  end%char.

Definition compile (pattern : jsstring) : compiled := parse pattern [] [] 0.

(** ** Matching *)

(** A position in the input: the characters before it (nearest first) and
    the characters from it on. *)
Record mstate := { m_prev : jsstring; m_rest : jsstring }.

Definition m_pos (st : mstate) : nat := length (m_prev st).

(** Captures: group number, start and end offsets; latest first. *)
Abbreviation captures := (list (nat * (nat * nat))).

Fixpoint capture_lookup (n : nat) (cs : captures) : option (nat * nat) :=
  match cs with
  | [] => None
  | (k, se) :: cs' => if k =? n then Some se else capture_lookup n cs'
  end.

Definition wordBefore (st : mstate) : bool :=
  match m_prev st with c :: _ => isWordChar c | [] => false end.

Definition wordAfter (st : mstate) : bool :=
  match m_rest st with c :: _ => isWordChar c | [] => false end.

(** [endsWithRev ic prev s]: the text before the position ends with [s]. *)
Definition endsWithRev (ic : bool) (prev s : jsstring) : bool :=
  bool_decide (canonicalize ic <$> take (length s) prev
               = canonicalize ic <$> rev s).

(** The backtracking matcher, in continuation-passing style: [k] is what
    remains to be matched after [r]. *)
Fixpoint m (ic : bool) (r : regex)
    (k : mstate → captures → option (mstate * captures))
    (st : mstate) (cs : captures) : option (mstate * captures) :=
  match r with
  | Eps => k st cs
  | Chr c =>
      match m_rest st with
      | x :: rest' =>
          if Ascii.eqb (canonicalize ic x) (canonicalize ic c)
          then k {| m_prev := x :: m_prev st; m_rest := rest' |} cs
          else None
      | [] => None
      end
  | OptChr c =>
      let skip := k st cs in
      match m_rest st with
      | x :: rest' =>
          if Ascii.eqb (canonicalize ic x) (canonicalize ic c)
          then match k {| m_prev := x :: m_prev st; m_rest := rest' |} cs with
               | Some res => Some res
               | None => skip
               end
          else skip
      | [] => skip
      end
  | Bol => match m_prev st with [] => k st cs | _ :: _ => None end
  | WordB => if xorb (wordBefore st) (wordAfter st) then k st cs else None
  | AnyLazyPlus =>
      (fix more (prev rest : jsstring) : option (mstate * captures) :=
         match rest with
         | [] => None
         | x :: rest' =>
             match k {| m_prev := x :: prev; m_rest := rest' |} cs with
             | Some res => Some res
             | None => more (x :: prev) rest'
             end
         end) (m_prev st) (m_rest st)
  | Cat r1 r2 => m ic r1 (fun st' cs' => m ic r2 k st' cs') st cs
  | Grp n r =>
      m ic r (fun st' cs' => k st' ((n, (m_pos st, m_pos st')) :: cs')) st cs
  | NegBehind s =>
      if endsWithRev ic (m_prev st) s then None else k st cs
  | NegAhead r =>
      match m ic r (fun st' cs' => Some (st', cs')) st cs with
      | Some _ => None
      | None => k st cs
      end
  end.

Definition match_at (ic : bool) (r : regex) (st : mstate)
    : option (mstate * captures) :=
  m ic r (fun st' cs' => Some (st', cs')) st [].

(** Try the pattern at the current position, then at each later one. *)
Fixpoint search (ic : bool) (r : regex) (prev rest : jsstring)
    : option (nat * mstate * captures) :=
  match match_at ic r {| m_prev := prev; m_rest := rest |} with
  | Some (st', cs) => Some (length prev, st', cs)
  | None =>
      match rest with
      | [] => None
      | x :: rest' => search ic r (x :: prev) rest'
      end
  end.

(** The array [regex.exec] returns. *)
Record MatchResult := {
  mr_index : nat;
  mr_end : nat;
  mr_captures : captures;
  mr_input : jsstring
}.

(** [match[0]] *)
Definition mr_whole (mt : MatchResult) : jsstring :=
  slice (mr_index mt) (mr_end mt) (mr_input mt).

(** [match[n]]; [None] is [undefined]. *)
Definition mr_group (mt : MatchResult) (n : nat) : option jsstring :=
  (fun se => slice se.1 se.2 (mr_input mt)) <$> capture_lookup n (mr_captures mt).

(** [regex.exec(str)] for an expression whose [lastIndex] is [lastIndex]:
    the result ([None] is [null]) and the new [lastIndex]. *)
Definition regex_exec (re : RegExp) (str : jsstring) (lastIndex : nat)
    : option MatchResult * nat :=
  let start := if re_global re then lastIndex else 0 in
  let failed := (None, if re_global re then 0 else lastIndex) in
  if length str <? start then failed
  else
    match search (re_ignoreCase re) (re_tree re)
            (rev (take start str)) (drop start str) with
    | None => failed
    | Some (i, st', cs) =>
        (Some {| mr_index := i; mr_end := m_pos st';
                 mr_captures := cs; mr_input := str |},
         if re_global re then m_pos st' else lastIndex)
    end.

(** ** [String.prototype.replace] with an expression and a replacement text *)

Definition digit_of (c : ascii) : option nat :=
  let n := nat_of_ascii c in
  if (48 <=? n) && (n <=? 57) then Some (n - 48) else None.

(** The text a capture reference stands for: the captured text, or nothing
    when the group took no part in the match. *)
Definition capture_text (mt : MatchResult) (n : nat) : jsstring :=
  default [] (mr_group mt n).

(** Expansion of the [$] patterns of a replacement text for one match
    ([groups] is the number of capturing groups of the expression). *)
Fixpoint getSubstitution (groups : nat) (mt : MatchResult)
    (replacement : jsstring) : jsstring :=
  match replacement with
  | [] => []
  | c :: t =>
      if negb (Ascii.eqb c "$") then c :: getSubstitution groups mt t
      else
        match t with
        | [] => [c]
        | d1 :: t' =>
            if Ascii.eqb d1 "$" then c :: getSubstitution groups mt t'
            else if Ascii.eqb d1 "&" then
              mr_whole mt ++ getSubstitution groups mt t'
            else if Ascii.eqb d1 "`" then
              take (mr_index mt) (mr_input mt) ++ getSubstitution groups mt t'
            else if Ascii.eqb d1 "'" then
              drop (mr_end mt) (mr_input mt) ++ getSubstitution groups mt t'
            else
              match digit_of d1 with
              | None => c :: d1 :: getSubstitution groups mt t'
              | Some n1 =>
                  let one_digit :=
                    if (1 <=? n1) && (n1 <=? groups)
                    then capture_text mt n1 ++ getSubstitution groups mt t'
                    else c :: d1 :: getSubstitution groups mt t' in
                  match t' with
                  | d2 :: t'' =>
                      match digit_of d2 with
                      | Some n2 =>
                          let nn := 10 * n1 + n2 in
                          if (1 <=? nn) && (nn <=? groups)
                          then capture_text mt nn
                               ++ getSubstitution groups mt t''
                          else one_digit
                      | None => one_digit
                      end
                  | [] => one_digit
                  end
              end
        end
  end.

(** The matches a global replace collects: [exec] is called until it
    returns [null], and [lastIndex] is advanced by one after an empty
    match.  [None] when [fuel] calls were not enough. *)
Fixpoint replace_matches (fuel : nat) (re : RegExp) (str : jsstring)
    (lastIndex : nat) : option (list MatchResult) :=
  match fuel with
  | 0 => None
  | S fuel' =>
      match regex_exec re str lastIndex with
      | (None, _) => Some []
      | (Some mt, lastIndex') =>
          let next :=
            if mr_end mt =? mr_index mt then S lastIndex' else lastIndex' in
          (mt ::.) <$> replace_matches fuel' re str next
      end
  end.

(** Assembling the result: the text between matches is kept, each match is
    replaced by the expanded replacement. *)
Fixpoint replace_build (groups : nat) (str replacement : jsstring)
    (results : list MatchResult) (nextSourcePosition : nat) : jsstring :=
  match results with
  | [] => drop nextSourcePosition str
  | mt :: results' =>
      if nextSourcePosition <=? mr_index mt
      then slice nextSourcePosition (mr_index mt) str
           ++ getSubstitution groups mt replacement
           ++ replace_build groups str replacement results' (mr_end mt)
      else replace_build groups str replacement results' nextSourcePosition
  end.

(** [str.replace(re, replacement)].  A global expression replaces every
    match (the loop over a text of length [n] makes at most [n + 2] calls
    of [exec]); otherwise only the first match is replaced. *)
Definition string_replace (str : jsstring) (re : RegExp)
    (replacement : jsstring) : jsstring :=
  if re_global re then
    match replace_matches (length str + 2) re str 0 with
    | Some results => replace_build (re_groups re) str replacement results 0
    | None => str
    end
  else
    match regex_exec re str 0 with
    | (Some mt, _) => replace_build (re_groups re) str replacement [mt] 0
    | (None, _) => str
    end.

(** ** The plugin *)

(** An entry of [noteTitlesCache]. *)
Record NoteEntry := { note_title : jsstring; note_path : jsstring }.

(** An element of the array [detectPotentialLinks] returns. *)
Record Link := {
  title : jsstring;
  context : jsstring;
  originalMatch : jsstring;
  notePath : jsstring;
  matchIndex : nat * nat
}.

Record Settings := {
  excludedFolders : list jsstring;
  pageSize : nat;
  enableWikiLinks : bool;
  respectCase : bool;
  excludeFrontmatter : bool
}.

(** What the vault hands over for a file or folder. *)
Record AbstractFile := {
  path : jsstring;
  basename : jsstring;
  extension : jsstring;
  file_isTFile : bool            (* [file instanceof TFile] *)
}.

(** The fields of the plugin object the core works on. *)
Record Plugin := {
  settings : Settings;
  noteTitlesCache : list NoteEntry;
  cacheUpToDate : bool
}.

Inductive js_error :=
| SyntaxError       (* thrown by [new RegExp] *)
| TypeError         (* a property of [undefined] is read *)
| ReadError         (* [vault.read] rejects *)
| UnmodelledPattern.  (* the pattern is outside the modelled fragment *)

(** How running a piece of the plugin ends. *)
Inductive outcome (A : Type) :=
| Done (a : A)
| Throws (e : js_error)
| OutOfFuel.
Arguments Done {A} a.
Arguments Throws {A} e.
Arguments OutOfFuel {A}.

Definition bind {A B} (o : outcome A) (f : A → outcome B) : outcome B :=
  match o with
  | Done a => f a
  | Throws e => Throws e
  | OutOfFuel => OutOfFuel
  end.

(** [new RegExp(pattern, 'gi')] *)
Definition newRegExp_gi (pattern : jsstring) : outcome RegExp :=
  match compile pattern with
  | Compiled r n =>
      Done {| re_tree := r; re_groups := n;
              re_global := true; re_ignoreCase := true |}
  | PatternSyntaxError => Throws SyntaxError
  | OutsideFragment => Throws UnmodelledPattern
  end.

(** *** The title cache *)

Definition isExcluded (s : Settings) (p : jsstring) : bool :=
  existsb (fun folder => startsWith p folder) (excludedFolders s).

Definition entryOf (file : AbstractFile) : NoteEntry :=
  {| note_title := basename file; note_path := path file |}.

Definition updateCache (files : list AbstractFile) (p : Plugin) : Plugin :=
  if cacheUpToDate p then p
  else
    {| settings := settings p;
       noteTitlesCache :=
         entryOf <$>
           filter (fun file =>
                     negb (isExcluded (settings p) (path file))
                     && file_isTFile file
                     && bool_decide (extension file = js "md")) files;
       cacheUpToDate := true |}.

Definition onFileCreated (file : AbstractFile) (p : Plugin) : Plugin :=
  if bool_decide (extension file = js "md")
     && negb (isExcluded (settings p) (path file))
  then {| settings := settings p;
          noteTitlesCache := noteTitlesCache p ++ [entryOf file];
          cacheUpToDate := false |}
  else p.

Definition onFileDeleted (file : AbstractFile) (p : Plugin) : Plugin :=
  {| settings := settings p;
     noteTitlesCache :=
       filter (fun note => note_path note ≠ path file) (noteTitlesCache p);
     cacheUpToDate := false |}.

(** [indexNotes], run to the end of its last batch; [markdownFiles] is
    what [vault.getMarkdownFiles()] returns. *)
Definition indexNotes (markdownFiles : list AbstractFile) (p : Plugin) : Plugin :=
  {| settings := settings p;
     noteTitlesCache :=
       entryOf <$>
         filter (fun note => negb (isExcluded (settings p) (path note)))
           markdownFiles;
     cacheUpToDate := true |}.

(** *** Scanning *)

Fixpoint escapeRegExp (s : jsstring) : jsstring :=
  match s with
  | [] => []
  | c :: s' =>
      if isSpecial c then "\"%char :: c :: escapeRegExp s'
      else c :: escapeRegExp s'
  end.

(** [.replace(/([()])/g, '\\\\?$1')]: the replacement text is two
    backslashes, a question mark and the parenthesis. *)
Fixpoint flexParens (s : jsstring) : jsstring :=
  match s with
  | [] => []
  | c :: s' =>
      if isParen c then js "\\?" ++ c :: flexParens s'
      else c :: flexParens s'
  end.

Definition detectPattern (t : jsstring) : jsstring :=
  js "(?<!\[\[)(" ++ flexParens (escapeRegExp t) ++ js ")(?!\|?\]\])".

Definition replacePattern (originalText : jsstring) : jsstring :=
  js "\b" ++ flexParens (escapeRegExp originalText) ++ js "\b".

(** The [while ((match = regex.exec(content)) !== null)] loop for one note. *)
Fixpoint execLoop (fuel : nat) (re : RegExp) (note : NoteEntry)
    (content : jsstring) (lastIndex : nat) : outcome (list Link) :=
  match fuel with
  | 0 => OutOfFuel
  | S fuel' =>
      match regex_exec re content lastIndex with
      | (None, _) => Done []
      | (Some mt, lastIndex') =>
          match mr_group mt 1 with
          | None => Throws TypeError
          | Some originalText =>
              let i := mr_index mt in
              let surroundingText :=
                slice (i - 20) i (mr_input mt) ++ originalText
                ++ slice (i + length originalText)
                         (i + length originalText + 20) (mr_input mt) in
              bind (execLoop fuel' re note content lastIndex') (fun links =>
              Done ({| title := note_title note;
                       context := surroundingText;
                       originalMatch := originalText;
                       notePath := note_path note;
                       matchIndex := (i, i + length (mr_whole mt)) |} :: links))
          end
      end
  end.

(** The body of the [for (const note of this.noteTitlesCache)] loop, over
    the whole cache: the links in the order they are pushed. *)
Fixpoint detectedLinks (fuel : nat) (cache : list NoteEntry)
    (content : jsstring) : outcome (list Link) :=
  match cache with
  | [] => Done []
  | note :: cache' =>
      bind (newRegExp_gi (detectPattern (note_title note))) (fun regex =>
      bind (execLoop fuel regex note content 0) (fun links =>
      bind (detectedLinks fuel cache' content) (fun links' =>
      Done (links ++ links'))))
  end.

(** [Array.prototype.sort] with the comparator
    [(a, b) => a.matchIndex[0] - b.matchIndex[0]].  The language requires
    the sort to be stable, which fixes its result; it is modelled by
    insertion, each link going before the first link that does not start
    before it. *)
Fixpoint sortInsert (x : Link) (l : list Link) : list Link :=
  match l with
  | [] => [x]
  | y :: l' =>
      if (matchIndex y).1 <? (matchIndex x).1 then y :: sortInsert x l'
      else x :: y :: l'
  end.

Definition sortLinks (l : list Link) : list Link := foldr sortInsert [] l.

Definition detectPotentialLinks (fuel : nat) (cache : list NoteEntry)
    (content : jsstring) : outcome (list Link) :=
  bind (detectedLinks fuel cache content) (fun links => Done (sortLinks links)).

(** The line feed, [\n]. *)
Definition newline : ascii := "010"%char.

(** [/^---[\s\S]+?---\n/] *)
Definition frontmatterRegex : RegExp :=
  {| re_tree :=
       seq [Bol; lit (js "---"); AnyLazyPlus; lit (js "---" ++ [newline])];
     re_groups := 0; re_global := false; re_ignoreCase := false |}.

Definition removeFrontmatter (content : jsstring) : jsstring :=
  string_replace content frontmatterRegex [].

(** The part of [runNoteLinker] between reading the content and opening
    the result window: the frontmatter is removed when the setting asks for
    it, and what remains is scanned. *)
Definition scanInput (p : Plugin) (content : jsstring) : jsstring :=
  if excludeFrontmatter (settings p) then removeFrontmatter content
  else content.

Definition scan (fuel : nat) (p : Plugin) (content : jsstring)
    : outcome (list Link) :=
  detectPotentialLinks fuel (noteTitlesCache p) (scanInput p content).

(** *** Rewriting *)

Definition replacementOf (s : Settings) (link : Link) : jsstring :=
  if enableWikiLinks s then
    if bool_decide (originalMatch link ≠ title link) && respectCase s
    then js "[[" ++ title link ++ js "|" ++ originalMatch link ++ js "]]"
    else js "[[" ++ title link ++ js "]]"
  else js "[[" ++ title link ++ js "]]".

(** The body of [linksToInsert.forEach], threaded over the links. *)
Fixpoint applyLinks (s : Settings) (linksToInsert : list Link)
    (content : jsstring) : outcome jsstring :=
  match linksToInsert with
  | [] => Done content
  | link :: links' =>
      bind (newRegExp_gi (replacePattern (originalMatch link))) (fun regex =>
      applyLinks s links' (string_replace content regex (replacementOf s link)))
  end.

(** The vault: the stored content of each file, by path. *)
Abbreviation Vault := (gmap jsstring jsstring).

Definition vault_read (v : Vault) (file : AbstractFile) : outcome jsstring :=
  match v !! path file with
  | Some content => Done content
  | None => Throws ReadError
  end.

(** [insertLinks(activeFile, editor, linksToInsert)]: the vault after
    [vault.modify]. *)
Definition insertLinks (p : Plugin) (v : Vault) (activeFile : AbstractFile)
    (linksToInsert : list Link) : outcome Vault :=
  bind (vault_read v activeFile) (fun content =>
  bind (applyLinks (settings p) linksToInsert content) (fun content' =>
  Done (<[path activeFile := content']> v))).

(** The start of [runNoteLinker]: the scanned text is the selection of
    the editor when there is one, and the stored content otherwise. *)
Definition scannedText (v : Vault) (activeFile : AbstractFile)
    (selectedText : jsstring) : outcome jsstring :=
  match selectedText with
  | [] => vault_read v activeFile
  | _ :: _ => Done selectedText
  end.

Definition runScan (fuel : nat) (p : Plugin) (v : Vault)
    (activeFile : AbstractFile) (selectedText : jsstring)
    : outcome (list Link) :=
  bind (scannedText v activeFile selectedText) (scan fuel p).

(** The text stored for [activeFile] once [insertLinks] has run. *)
Definition rewrittenContent (p : Plugin) (v : Vault) (activeFile : AbstractFile)
    (linksToInsert : list Link) : outcome jsstring :=
  bind (insertLinks p v activeFile linksToInsert) (fun v' =>
  vault_read v' activeFile).

(** *** Indexing in batches *)

(** [indexNotes] pushes the entries in batches of 50; every batch after the
    first runs from a timer. *)
Definition batchSize : nat := 50.

(** [allNotes.filter(note => !excludedFolders.some(...))] *)
Definition notesToIndex (markdownFiles : list AbstractFile) (p : Plugin)
    : list AbstractFile :=
  filter (fun note => negb (isExcluded (settings p) (path note))) markdownFiles.

(** One call [processBatch(startIndex)]: the entries with index from
    [startIndex] up to [min(startIndex + batchSize, totalNotes)] are
    pushed; then either the next batch is handed to [setTimeout] (its start
    index is returned) or the cache is marked up to date. *)
Definition processBatch (notes : list AbstractFile) (startIndex : nat)
    (p : Plugin) : Plugin * option nat :=
  let totalNotes := length notes in
  let pushed :=
    entryOf <$> take (min (startIndex + batchSize) totalNotes - startIndex)
                  (drop startIndex notes) in
  if startIndex + batchSize <? totalNotes
  then ({| settings := settings p;
           noteTitlesCache := noteTitlesCache p ++ pushed;
           cacheUpToDate := cacheUpToDate p |}, Some (startIndex + batchSize))
  else ({| settings := settings p;
           noteTitlesCache := noteTitlesCache p ++ pushed;
           cacheUpToDate := true |}, None).

(** What [await this.indexNotes(progressModal)] has done when it returns:
    the cache was emptied and the first batch was processed.  The second
    component is the start index of the batch that waits on the timer. *)
Definition indexNotesFirstBatch (markdownFiles : list AbstractFile)
    (p : Plugin) : Plugin * option nat :=
  processBatch (notesToIndex markdownFiles p) 0
    {| settings := settings p; noteTitlesCache := [];
       cacheUpToDate := cacheUpToDate p |}.

(** The timer callbacks, run one after the other with nothing in between;
    [timers] bounds their number. *)
Fixpoint runBatches (timers : nat) (notes : list AbstractFile)
    (pending : option nat) (p : Plugin) : Plugin * option nat :=
  match pending, timers with
  | Some startIndex, S timers' =>
      let '(p', pending') := processBatch notes startIndex p in
      runBatches timers' notes pending' p'
  | _, _ => (p, pending)
  end.

(** *** The command *)

(** The notices the command shows. *)
Inductive Notice :=
| NoActiveNote        (* 'No active note found.' *)
| NoLinksFound        (* 'No potential links found.' *)
| RunError.           (* 'An error occurred while running Note Linker.' *)

(** The active markdown view: its file and the selection of its editor. *)
Record ActiveView := {
  view_file : AbstractFile;
  view_selection : jsstring
}.

(** What a run of the command leaves behind. *)
Record RunResult := {
  run_plugin : Plugin;
  run_pending : option nat;        (* the batch that waits on the timer *)
  run_progressOpen : bool;         (* the progress window was left open *)
  run_notice : option Notice;
  run_links : option (list Link)   (* the links the selection window gets *)
}.

(** [runNoteLinker()], up to the opening of the selection window.  Whatever
    is thrown inside is caught and reported by a notice; the progress
    window is opened after the text was read and closed after the scan. *)
Definition runNoteLinker (fuel : nat) (p : Plugin) (v : Vault)
    (markdownFiles : list AbstractFile) (activeView : option ActiveView)
    : outcome RunResult :=
  match activeView with
  | None =>
      Done {| run_plugin := p; run_pending := None; run_progressOpen := false;
              run_notice := Some NoActiveNote; run_links := None |}
  | Some view =>
      match scannedText v (view_file view) (view_selection view) with
      | OutOfFuel => OutOfFuel
      | Throws _ =>
          Done {| run_plugin := p; run_pending := None;
                  run_progressOpen := false;
                  run_notice := Some RunError; run_links := None |}
      | Done text =>
          let content := scanInput p text in
          let '(p1, pending) :=
            if cacheUpToDate p then (p, None)
            else indexNotesFirstBatch markdownFiles p in
          match detectPotentialLinks fuel (noteTitlesCache p1) content with
          | OutOfFuel => OutOfFuel
          | Throws _ =>
              Done {| run_plugin := p1; run_pending := pending;
                      run_progressOpen := true;
                      run_notice := Some RunError; run_links := None |}
          | Done [] =>
              Done {| run_plugin := p1; run_pending := pending;
                      run_progressOpen := false;
                      run_notice := Some NoLinksFound; run_links := None |}
          | Done links =>
              Done {| run_plugin := p1; run_pending := pending;
                      run_progressOpen := false;
                      run_notice := None; run_links := Some links |}
          end
      end
  end.

(** ** The selection window *)

(** The fields of [LinkSelectionModal] its methods work on.  The links are
    objects; the window tells them apart by identity, which is modelled by
    their position in [potentialLinks].  [checkedLinks] is a [Set]: it
    keeps the order in which the links were added. *)
Record LinkSelectionModal := {
  modal_potentialLinks : list Link;
  modal_pageSize : nat;
  modal_currentPage : Z;
  modal_checkedLinks : list nat;
  modal_activeFile : AbstractFile
}.

(** The constructor; the page size is [plugin.settings.pageSize || 10]. *)
Definition newLinkSelectionModal (potentialLinks : list Link)
    (activeFile : AbstractFile) (plugin : Plugin) : LinkSelectionModal :=
  {| modal_potentialLinks := potentialLinks;
     modal_pageSize :=
       if pageSize (settings plugin) =? 0 then 10
       else pageSize (settings plugin);
     modal_currentPage := 0;
     modal_checkedLinks := [];
     modal_activeFile := activeFile |}.

(** [Math.ceil(a / b)] for a natural number [a] and [b] at least 1. *)
Definition ceilDiv (a b : nat) : nat := (a + (b - 1)) / b.

(** [Math.ceil(this.potentialLinks.length / this.pageSize)]; the
    constructor makes the page size at least 1. *)
Definition totalPages (w : LinkSelectionModal) : nat :=
  ceilDiv (length (modal_potentialLinks w)) (modal_pageSize w).

(** [Array.prototype.slice(start, end)]: a negative bound counts from the
    end, and both bounds are clamped to the array. *)
Definition array_slice {A} (start fin : Z) (l : list A) : list A :=
  let len := Z.of_nat (length l) in
  let k := if (start <? 0)%Z then Z.max (len + start) 0 else Z.min start len in
  let final := if (fin <? 0)%Z then Z.max (len + fin) 0 else Z.min fin len in
  take (Z.to_nat (final - k)) (drop (Z.to_nat k) l).

(** The links with their identities. *)
Definition linkObjects (w : LinkSelectionModal) : list (nat * Link) :=
  imap (fun i l => (i, l)) (modal_potentialLinks w).

(** [linksToShow] of [displayLinks] and of [selectAllOnPage]. *)
Definition linksToShow (w : LinkSelectionModal) : list (nat * Link) :=
  let start := (modal_currentPage w * Z.of_nat (modal_pageSize w))%Z in
  let fin :=
    Z.min (start + Z.of_nat (modal_pageSize w))
          (Z.of_nat (length (modal_potentialLinks w))) in
  array_slice start fin (linkObjects w).

(** [displayLinks()]: the rows of the current page, each with the state of
    its checkbox, [this.checkedLinks.has(linkObj)]. *)
Definition displayLinks (w : LinkSelectionModal) : list (Link * bool) :=
  (fun il => (il.2, bool_decide (il.1 ∈ modal_checkedLinks w)))
    <$> linksToShow w.

(** [Set.prototype.add] and [Set.prototype.delete]. *)
Definition set_add (i : nat) (s : list nat) : list nat :=
  if bool_decide (i ∈ s) then s else s ++ [i].

Definition set_delete (i : nat) (s : list nat) : list nat :=
  filter (fun j => j ≠ i) s.

Definition withChecked (w : LinkSelectionModal) (s : list nat)
    : LinkSelectionModal :=
  {| modal_potentialLinks := modal_potentialLinks w;
     modal_pageSize := modal_pageSize w;
     modal_currentPage := modal_currentPage w;
     modal_checkedLinks := s;
     modal_activeFile := modal_activeFile w |}.

(** The [change] listener of the checkbox of link [i]. *)
Definition onCheckboxChange (i : nat) (checked : bool)
    (w : LinkSelectionModal) : LinkSelectionModal :=
  withChecked w (if checked then set_add i (modal_checkedLinks w)
                 else set_delete i (modal_checkedLinks w)).

(** [forEach(linkObj => this.checkedLinks.add(linkObj))] *)
Definition addAll (s : list nat) (objs : list (nat * Link)) : list nat :=
  foldl (fun s il => set_add il.1 s) s objs.

Definition selectAll (w : LinkSelectionModal) : LinkSelectionModal :=
  withChecked w (addAll (modal_checkedLinks w) (linkObjects w)).

Definition selectAllOnPage (w : LinkSelectionModal) : LinkSelectionModal :=
  withChecked w (addAll (modal_checkedLinks w) (linksToShow w)).

(** [changePage(delta)]: [(currentPage + delta + totalPages) % totalPages],
    where [%] is the remainder that takes the sign of the dividend.  With
    no page the remainder is not a number, which is not modelled. *)
Definition changePage (delta : Z) (w : LinkSelectionModal)
    : option LinkSelectionModal :=
  let total := Z.of_nat (totalPages w) in
  if (total =? 0)%Z then None
  else Some {| modal_potentialLinks := modal_potentialLinks w;
               modal_pageSize := modal_pageSize w;
               modal_currentPage :=
                 Z.rem (modal_currentPage w + delta + total) total;
               modal_checkedLinks := modal_checkedLinks w;
               modal_activeFile := modal_activeFile w |}.

(** [updatePageButtons()]: the [disabled] flags it sets for the buttons
    "Previous Page" and "Next Page". *)
Definition updatePageButtons (w : LinkSelectionModal) : bool * bool :=
  if totalPages w <=? 1 then (true, true)
  else ((modal_currentPage w =? 0)%Z,
        (modal_currentPage w =? Z.of_nat (totalPages w) - 1)%Z).

(** [updateSelectionCount()]: the two numbers of the label
    "Selected: n/m". *)
Definition updateSelectionCount (w : LinkSelectionModal) : nat * nat :=
  (length (modal_checkedLinks w), length (modal_potentialLinks w)).

(** [updatePageIndicator()]: the two numbers of "Page i of n", which is
    shown when there is more than one page. *)
Definition updatePageIndicator (w : LinkSelectionModal) : option (Z * nat) :=
  if 1 <? totalPages w then Some ((modal_currentPage w + 1)%Z, totalPages w)
  else None.

(** [Array.from(this.checkedLinks)] *)
Definition linksToInsertOf (w : LinkSelectionModal) : list Link :=
  omap (fun i => modal_potentialLinks w !! i) (modal_checkedLinks w).

(** The window's own [insertLinks()], behind the button "Confirm". *)
Definition confirmLinks (plugin : Plugin) (v : Vault)
    (w : LinkSelectionModal) : outcome Vault :=
  insertLinks plugin v (modal_activeFile w) (linksToInsertOf w).

(** ** The settings tab *)

(** The white space and line terminators that [trim] removes, among the
    characters of the model: tab, line feed, vertical tab, form feed,
    carriage return, space and no-break space. *)
Definition isWhiteSpace (c : ascii) : bool :=
  let n := nat_of_ascii c in
  ((9 <=? n) && (n <=? 13)) || (n =? 32) || (n =? 160).

Fixpoint trimStart (s : jsstring) : jsstring :=
  match s with
  | c :: s' => if isWhiteSpace c then trimStart s' else s
  | [] => []
  end.

(** [folder.trim()] *)
Definition trim (s : jsstring) : jsstring :=
  rev (trimStart (rev (trimStart s))).

(** [value.split('\n')] *)
Fixpoint splitLines (value : jsstring) : list jsstring :=
  match value with
  | [] => [[]]
  | c :: value' =>
      if Ascii.eqb c newline then [] :: splitLines value'
      else match splitLines value' with
           | line :: lines => (c :: line) :: lines
           | [] => [[c]]
           end
  end.

(** [folders.join('\n')] *)
Fixpoint joinLines (folders : list jsstring) : jsstring :=
  match folders with
  | [] => []
  | [folder] => folder
  | folder :: folders' => folder ++ newline :: joinLines folders'
  end.

(** [value.split('\n').map(folder => folder.trim()).filter(Boolean)] *)
Definition parseExcludedFolders (value : jsstring) : list jsstring :=
  filter (fun folder => folder ≠ []) (trim <$> splitLines value).

(** The [onChange] handler of the text area "Excluded Folders". *)
Definition onExcludedFoldersChange (value : jsstring) (p : Plugin) : Plugin :=
  {| settings :=
       {| excludedFolders := parseExcludedFolders value;
          pageSize := pageSize (settings p);
          enableWikiLinks := enableWikiLinks (settings p);
          respectCase := respectCase (settings p);
          excludeFrontmatter := excludeFrontmatter (settings p) |};
     noteTitlesCache := noteTitlesCache p;
     cacheUpToDate := cacheUpToDate p |}.

(** The text the text area is given,
    [excludedFolders?.join('\n') || '']. *)
Definition excludedFoldersText (s : Settings) : jsstring :=
  joinLines (excludedFolders s).

(** ** Stored data *)

(** The object that [loadData()] returns and [saveData(...)] stores, with
    the keys the plugin reads; a key can be missing.  There is one such
    object: [saveSettings] and [saveCache] both replace it. *)
Record StoredData := {
  data_excludedFolders : option (list jsstring);
  data_pageSize : option nat;
  data_enableWikiLinks : option bool;
  data_respectCase : option bool;
  data_excludeFrontmatter : option bool;
  data_noteTitlesCache : option (list NoteEntry);
  data_cacheUpToDate : option bool
}.

(** [this.settings] as [loadSettings] builds it: [Object.assign] copies
    every key of the stored object over the defaults, so besides the five
    settings the object carries the two keys of the cache when the stored
    object has them. *)
Record SettingsObject := {
  so_settings : Settings;
  so_noteTitlesCache : option (list NoteEntry);
  so_cacheUpToDate : option bool
}.

(** The first argument of [Object.assign] in [loadSettings]. *)
Definition settingsDefaults : Settings :=
  {| excludedFolders := []; pageSize := 10; enableWikiLinks := false;
     respectCase := false; excludeFrontmatter := true |}.

Definition loadSettings (data : option StoredData) : SettingsObject :=
  match data with
  | None =>
      {| so_settings := settingsDefaults; so_noteTitlesCache := None;
         so_cacheUpToDate := None |}
  | Some d =>
      {| so_settings :=
           {| excludedFolders :=
                default (excludedFolders settingsDefaults)
                  (data_excludedFolders d);
              pageSize := default (pageSize settingsDefaults) (data_pageSize d);
              enableWikiLinks :=
                default (enableWikiLinks settingsDefaults)
                  (data_enableWikiLinks d);
              respectCase :=
                default (respectCase settingsDefaults) (data_respectCase d);
              excludeFrontmatter :=
                default (excludeFrontmatter settingsDefaults)
                  (data_excludeFrontmatter d) |};
         so_noteTitlesCache := data_noteTitlesCache d;
         so_cacheUpToDate := data_cacheUpToDate d |}
  end.

(** [saveSettings()]: the stored object becomes [this.settings]. *)
Definition saveSettings (so : SettingsObject) : StoredData :=
  {| data_excludedFolders := Some (excludedFolders (so_settings so));
     data_pageSize := Some (pageSize (so_settings so));
     data_enableWikiLinks := Some (enableWikiLinks (so_settings so));
     data_respectCase := Some (respectCase (so_settings so));
     data_excludeFrontmatter := Some (excludeFrontmatter (so_settings so));
     data_noteTitlesCache := so_noteTitlesCache so;
     data_cacheUpToDate := so_cacheUpToDate so |}.

(** [saveCache()]: the stored object becomes the cache and its flag. *)
Definition saveCache (p : Plugin) : StoredData :=
  {| data_excludedFolders := None; data_pageSize := None;
     data_enableWikiLinks := None; data_respectCase := None;
     data_excludeFrontmatter := None;
     data_noteTitlesCache := Some (noteTitlesCache p);
     data_cacheUpToDate := Some (cacheUpToDate p) |}.

(** [loadCache()]: the stored cache is taken when the stored object has
    one and its flag is set; otherwise [updateCache()] runs over the loaded
    files. *)
Definition loadCache (data : option StoredData)
    (loadedFiles : list AbstractFile) (p : Plugin) : Plugin :=
  match data with
  | Some d =>
      match data_noteTitlesCache d, data_cacheUpToDate d with
      | Some cache, Some true =>
          {| settings := settings p; noteTitlesCache := cache;
             cacheUpToDate := true |}
      | _, _ => updateCache loadedFiles p
      end
  | None => updateCache loadedFiles p
  end.

(** ** Notions used to state the properties *)

(** The least number of characters a match of [r] consumes. *)
Fixpoint minlen (r : regex) : nat :=
  match r with
  | Chr _ | AnyLazyPlus => 1
  | Cat r1 r2 => minlen r1 + minlen r2
  | Grp _ r' => minlen r'
  | Eps | OptChr _ | Bol | WordB | NegBehind _ | NegAhead _ => 0
  end.

Definition weight (items : list regex) : nat := sum_list_with minlen items.

(** The number of parentheses of a title. *)
Fixpoint parenCount (t : jsstring) : nat :=
  match t with
  | [] => 0
  | c :: t' => (if isParen c then 1 else 0) + parenCount t'
  end.

(** The parser state after the pattern text of a title, that is after
    [flexParens (escapeRegExp t)]: a plain character is one literal, and a
    parenthesis is a literal backslash, a literal question mark and the
    opening or closing of a capturing group. *)
Fixpoint absorb (t : jsstring) (stack : list frame) (cur : list regex)
    (groups : nat) : (list frame * list regex * nat) + compiled :=
  match t with
  | [] => inl (stack, cur, groups)
  | c :: t' =>
      let cur2 := Chr "?" :: Chr "\" :: cur in
      if Ascii.eqb c "(" then
        absorb t' ({| f_kind := FCapture (S groups); f_saved := cur2 |} :: stack)
          [] (S groups)
      else if Ascii.eqb c ")" then
        match stack with
        | [] => inr PatternSyntaxError
        | f :: stack' =>
            match close_group (f_kind f) cur2 with
            | Some item => absorb t' stack' (item :: f_saved f) groups
            | None => inr OutsideFragment
            end
        end
      else absorb t' stack (Chr c :: cur) groups
  end.

(** The lookarounds every detection pattern starts and ends with. *)
Definition notAfterOpen : regex := NegBehind (js "[[").
Definition notBeforeClose : regex :=
  NegAhead (seq [OptChr "|"; Chr "]"; Chr "]"]).

(** [precededBy s i str]: the text of [str] before offset [i] ends with [s];
    [followedBy s e str]: the text from offset [e] on starts with [s]. *)
Definition precededBy (s : jsstring) (i : nat) (str : jsstring) : Prop :=
  ∃ pre, take i str = pre ++ s.
Definition followedBy (s : jsstring) (e : nat) (str : jsstring) : Prop :=
  ∃ post, drop e str = s ++ post.

(** The numbers of the capturing groups of [r] that can take part in a
    match (a lookahead keeps its captures to itself). *)
Fixpoint groupsOf (r : regex) : list nat :=
  match r with
  | Cat r1 r2 => groupsOf r1 ++ groupsOf r2
  | Grp n r' => n :: groupsOf r'
  | Eps | Chr _ | OptChr _ | Bol | WordB | AnyLazyPlus
  | NegBehind _ | NegAhead _ => []
  end.

Definition itemsGroups (items : list regex) : list nat :=
  flat_map groupsOf items.

Definition frameGroups (f : frame) : list nat :=
  match f_kind f with
  | FCapture n => n :: itemsGroups (f_saved f)
  | FNegAhead | FNegBehind => itemsGroups (f_saved f)
  end.

(** The group numbers the parser has handed out so far. *)
Definition stateGroups (stack : list frame) (cur : list regex) : list nat :=
  itemsGroups cur ++ flat_map frameGroups stack.

(** Invariants of the parser while it reads the pattern text of a title:
    only capturing groups are open, and the first group, opened right after
    the lookbehind, is either still open or closed at the outermost level. *)
Definition captureOnly (stack : list frame) : Prop :=
  Forall (fun f => ∃ n, f_kind f = FCapture n) stack.

Definition stateWeight (stack : list frame) (cur : list regex) : nat :=
  weight cur + sum_list_with (fun f => weight (f_saved f)) stack.

Definition bottomItems (stack : list frame) (cur : list regex) : list regex :=
  match last stack with
  | Some f => f_saved f
  | None => cur
  end.

Definition firstGroupFrame : frame :=
  {| f_kind := FCapture 1; f_saved := [notAfterOpen] |}.

Definition firstGroupInv (stack : list frame) (cur : list regex) : Prop :=
  (∃ stack0, stack = stack0 ++ [firstGroupFrame])
  ∨ (∃ X r1, bottomItems stack cur = X ++ [Grp 1 r1; notAfterOpen]).

(** [advance st st' n]: the matcher moved from [st] to [st'] over at least
    [n] characters; [atOffset str i st]: [st] is offset [i] of [str]. *)
Definition advance (st st' : mstate) (n : nat) : Prop :=
  ∃ w, m_rest st = w ++ m_rest st' ∧ m_prev st' = rev w ++ m_prev st
       ∧ n ≤ length w.

Definition atOffset (str : jsstring) (i : nat) (st : mstate) : Prop :=
  rev (m_prev st) ++ m_rest st = str ∧ m_pos st = i.

Definition offsetState (str : jsstring) (i : nat) : mstate :=
  {| m_prev := rev (take i str); m_rest := drop i str |}.

(** A pattern with its literal characters in upper case: under the
    ignore-case flag it matches what the pattern matches. *)
Fixpoint upperRegex (r : regex) : regex :=
  match r with
  | Chr c => Chr (toUpperCase c)
  | OptChr c => OptChr (toUpperCase c)
  | Cat r1 r2 => Cat (upperRegex r1) (upperRegex r2)
  | Grp n r' => Grp n (upperRegex r')
  | NegBehind s => NegBehind (toUpperCase <$> s)
  | NegAhead r' => NegAhead (upperRegex r')
  | Eps | Bol | WordB | AnyLazyPlus => r
  end.

Definition upperFrame (f : frame) : frame :=
  {| f_kind := f_kind f; f_saved := upperRegex <$> f_saved f |}.

Definition upperCompiled (c : compiled) : compiled :=
  match c with
  | Compiled r g => Compiled (upperRegex r) g
  | PatternSyntaxError | OutsideFragment => c
  end.

Definition upperAbsorbed (a : (list frame * list regex * nat) + compiled)
    : (list frame * list regex * nat) + compiled :=
  match a with
  | inl (stack, cur, g) => inl (upperFrame <$> stack, upperRegex <$> cur, g)
  | inr e => inr e
  end.

(** The offsets, in the text [str.replace(re, replacement)] returns, at
    which an expanded replacement was put; computed along [replace_build]. *)
Fixpoint replace_offsets (groups : nat) (str replacement : jsstring)
    (results : list MatchResult) (nextSourcePosition outPosition : nat)
    : list nat :=
  match results with
  | [] => []
  | mt :: results' =>
      if nextSourcePosition <=? mr_index mt
      then
        let start :=
          outPosition + length (slice nextSourcePosition (mr_index mt) str) in
        start :: replace_offsets groups str replacement results' (mr_end mt)
                   (start + length (getSubstitution groups mt replacement))
      else replace_offsets groups str replacement results'
             nextSourcePosition outPosition
  end.

Definition replacedOffsets (str : jsstring) (re : RegExp)
    (replacement : jsstring) : list nat :=
  if re_global re then
    match replace_matches (length str + 2) re str 0 with
    | Some results => replace_offsets (re_groups re) str replacement results 0 0
    | None => []
    end
  else
    match regex_exec re str 0 with
    | (Some mt, _) => replace_offsets (re_groups re) str replacement [mt] 0 0
    | (None, _) => []
    end.

(** The state the operations on the index work on: the plugin, and the
    batches of [indexNotes] that wait on a timer, the oldest first.  A
    waiting batch holds the notes its call of [indexNotes] listed and the
    index of the next note to push.  All timers have one delay, so they
    fire in the order in which they were set. *)
Record IndexState := {
  idx_plugin : Plugin;
  idx_timers : list (list AbstractFile * nat)
}.

(** A plugin with no batch waiting. *)
Definition idle (p : Plugin) : IndexState :=
  {| idx_plugin := p; idx_timers := [] |}.

(** [setTimeout(() => processBatch(startIndex + batchSize), 10)], when
    [processBatch] asks for it. *)
Definition schedule (notes : list AbstractFile) (pending : option nat)
    (timers : list (list AbstractFile * nat)) : list (list AbstractFile * nat) :=
  match pending with
  | Some startIndex => timers ++ [(notes, startIndex)]
  | None => timers
  end.

(** Changes of the document collection, as the index sees them, and the
    steps in which the index is built. *)
Inductive index_event :=
| Rebuild (files : list AbstractFile)          (* [updateCache] *)
| Reindex (markdownFiles : list AbstractFile)  (* a call of [indexNotes] *)
| Timer                                        (* the oldest timer fires *)
| Added (file : AbstractFile)                  (* [onFileCreated] *)
| Removed (file : AbstractFile).               (* [onFileDeleted] *)

(** A call of [indexNotes] empties the cache, pushes the first batch and
    leaves the rest to a timer; a timer that fires pushes the next batch
    of its call into the cache as it is by then. *)
Definition apply_event (st : IndexState) (e : index_event) : IndexState :=
  match e with
  | Rebuild files =>
      {| idx_plugin := updateCache files (idx_plugin st);
         idx_timers := idx_timers st |}
  | Reindex files =>
      let notes := notesToIndex files (idx_plugin st) in
      {| idx_plugin := (indexNotesFirstBatch files (idx_plugin st)).1;
         idx_timers :=
           schedule notes (indexNotesFirstBatch files (idx_plugin st)).2
             (idx_timers st) |}
  | Timer =>
      match idx_timers st with
      | [] => st
      | (notes, startIndex) :: timers =>
          {| idx_plugin := (processBatch notes startIndex (idx_plugin st)).1;
             idx_timers :=
               schedule notes
                 (processBatch notes startIndex (idx_plugin st)).2 timers |}
      end
  | Added file =>
      {| idx_plugin := onFileCreated file (idx_plugin st);
         idx_timers := idx_timers st |}
  | Removed file =>
      {| idx_plugin := onFileDeleted file (idx_plugin st);
         idx_timers := idx_timers st |}
  end.

Definition run_events_from (st : IndexState) (es : list index_event)
    : IndexState :=
  foldl apply_event st es.

(** The plugin after the events, started with no batch waiting. *)
Definition run_events (p : Plugin) (es : list index_event) : Plugin :=
  idx_plugin (run_events_from (idle p) es).

Definition indexedPaths (p : Plugin) : list jsstring :=
  note_path <$> noteTitlesCache p.

(** The paths of the notes that the waiting batches have still to push. *)
Definition pendingPaths (st : IndexState) : list jsstring :=
  concat ((fun t : list AbstractFile * nat => path <$> drop t.2 t.1)
            <$> idx_timers st).

(** The events under which the index keeps its paths apart: a listing has
    no two files with one path and is taken while no batch is waiting, and
    a created file has a path that is neither indexed nor waiting in a
    batch. *)
Definition event_ok (st : IndexState) (e : index_event) : Prop :=
  match e with
  | Rebuild files | Reindex files =>
      NoDup (path <$> files) ∧ idx_timers st = []
  | Added file =>
      (path file ∉ indexedPaths (idx_plugin st))
      ∧ (path file ∉ pendingPaths st)
  | Timer | Removed _ => True
  end.

Fixpoint events_ok_from (st : IndexState) (es : list index_event) : Prop :=
  match es with
  | [] => True
  | e :: es' => event_ok st e ∧ events_ok_from (apply_event st e) es'
  end.

Definition events_ok (p : Plugin) (es : list index_event) : Prop :=
  events_ok_from (idle p) es.

(** Every path is indexed or waiting at most once. *)
Definition pathsApart (st : IndexState) : Prop :=
  NoDup (indexedPaths (idx_plugin st) ++ pendingPaths st).

(** Sortedness by span start. *)
Definition startOf (l : Link) : nat := (matchIndex l).1.
Definition endOf (l : Link) : nat := (matchIndex l).2.

Definition sortedByStart (links : list Link) : Prop :=
  StronglySorted (fun a b => startOf a ≤ startOf b) links.

(** The expressions [detectPotentialLinks] builds. *)
Definition detectRegExp (re : RegExp) : Prop :=
  ∃ r1 mid g,
    re = {| re_tree := seq (notAfterOpen :: Grp 1 r1 :: mid ++ [notBeforeClose]);
            re_groups := g; re_global := true; re_ignoreCase := true |}
    ∧ 1 ∉ itemsGroups mid.

(** The expression built for the empty title, [(?<!\[\[)()(?!\|?\]\])]. *)
Definition emptyTitleRegExp : RegExp :=
  {| re_tree := seq [notAfterOpen; Grp 1 Eps; notBeforeClose];
     re_groups := 1; re_global := true; re_ignoreCase := true |}.

(** What holds of a link that a scan of [content] emits. *)
Definition emittedFrom (content : jsstring) (l : Link) : Prop :=
  startOf l ≤ endOf l ∧ endOf l ≤ length content
  ∧ ¬ precededBy (js "[[") (startOf l) content
  ∧ ¬ followedBy (js "]]") (endOf l) content
  ∧ ¬ followedBy (js "|]]") (endOf l) content
  ∧ originalMatch l
    = slice (startOf l) (startOf l + length (originalMatch l)) content
  ∧ startOf l + length (originalMatch l) ≤ endOf l.

Definition linkOf (note : NoteEntry) (l : Link) : Prop :=
  title l = note_title note ∧ notePath l = note_path note.

(** Texts without parentheses, and titles that are such texts and not
    empty. *)
Definition parenFree (s : jsstring) : Prop :=
  Forall (fun c => isParen c = false) s.

Definition plainTitle (t : jsstring) : Prop := parenFree t ∧ t ≠ [].

(** [sameLetters a b]: equal up to the case of letters. *)
Definition sameLetters (a b : jsstring) : Prop :=
  toUpperCase <$> a = toUpperCase <$> b.

(** The expressions built for a text without parentheses: by the scan,
    [(?<!\[\[)(t)(?!\|?\]\])], and by the rewrite, [\bt\b]. *)
Definition plainDetectRegExp (t : jsstring) : RegExp :=
  {| re_tree := seq [notAfterOpen; Grp 1 (lit t); notBeforeClose];
     re_groups := 1; re_global := true; re_ignoreCase := true |}.

Definition plainReplaceRegExp (o : jsstring) : RegExp :=
  {| re_tree := seq (WordB :: (Chr <$> o) ++ [WordB]); re_groups := 0;
     re_global := true; re_ignoreCase := true |}.

(** The nesting depth of groups after the parentheses of a text, starting
    from depth [d]; [None] when a group is closed that was not opened. *)
Fixpoint parenDepth (t : jsstring) (d : nat) : option nat :=
  match t with
  | [] => Some d
  | c :: t' =>
      if Ascii.eqb c "(" then parenDepth t' (S d)
      else if Ascii.eqb c ")" then
        match d with
        | 0 => None
        | S d' => parenDepth t' d'
        end
      else parenDepth t' d
  end.

(** [consumes P r]: every character a match of [r], under the ignore-case
    flag, takes from the text satisfies [P]; [taken P st st']: the matcher
    moved from [st] to [st'] over such characters. *)
Fixpoint consumes (P : ascii → Prop) (r : regex) : Prop :=
  match r with
  | Chr c | OptChr c => ∀ x, toUpperCase x = toUpperCase c → P x
  | AnyLazyPlus => ∀ x, P x
  | Cat r1 r2 => consumes P r1 ∧ consumes P r2
  | Grp _ r' => consumes P r'
  | Eps | Bol | WordB | NegBehind _ | NegAhead _ => True
  end.

Definition taken (P : ascii → Prop) (st st' : mstate) : Prop :=
  ∃ w, m_rest st = w ++ m_rest st' ∧ m_prev st' = rev w ++ m_prev st
       ∧ Forall P w.

Definition notParen (c : ascii) : Prop := isParen c = false.

Definition frameConsumes (P : ascii → Prop) (f : frame) : Prop :=
  Forall (consumes P) (f_saved f).

(** [before a b]: the span of [a] ends where the span of [b] starts, or
    earlier. *)
Definition before (a b : Link) : Prop := endOf a ≤ startOf b.

(** [\b] holds at a position when exactly one of the two characters next
    to it is a word character. *)
Definition wordBoundary (st : mstate) : bool :=
  xorb (wordBefore st) (wordAfter st).

Definition endsWithWordChar (s : jsstring) : bool :=
  match last s with Some c => isWordChar c | None => false end.

Definition startsWithWordChar (s : jsstring) : bool :=
  match s with c :: _ => isWordChar c | [] => false end.

(** A non-empty text of word characters, and a text without any. *)
Definition wordText (w : jsstring) : Prop :=
  w ≠ [] ∧ Forall (fun c => isWordChar c = true) w.

Definition nonWordText (s : jsstring) : Prop :=
  Forall (fun c => isWordChar c = false) s.

(** [underFolder folder p]: the path [p] starts with the text [folder]. *)
Definition underFolder (folder p : jsstring) : Prop :=
  ∃ rest, p = folder ++ rest.

(** No cached note has a path that starts with an excluded folder. *)
Definition cacheRespectsExclusions (p : Plugin) : Prop :=
  ∀ note folder,
    note ∈ noteTitlesCache p → folder ∈ excludedFolders (settings p) →
    ¬ underFolder folder (note_path note).

(** No waiting batch lists a note whose path is excluded by [s]. *)
Definition timersRespect (s : Settings)
    (timers : list (list AbstractFile * nat)) : Prop :=
  Forall (fun t : list AbstractFile * nat =>
            Forall (fun note => isExcluded s (path note) = false) t.1) timers.

(** The window showing page [k]. *)
Definition atPage (k : Z) (w : LinkSelectionModal) : LinkSelectionModal :=
  {| modal_potentialLinks := modal_potentialLinks w;
     modal_pageSize := modal_pageSize w;
     modal_currentPage := k;
     modal_checkedLinks := modal_checkedLinks w;
     modal_activeFile := modal_activeFile w |}.

Definition pageInRange (w : LinkSelectionModal) : Prop :=
  (0 ≤ modal_currentPage w < Z.of_nat (totalPages w))%Z.

(** The selection holds distinct links of the window. *)
Definition validChecked (w : LinkSelectionModal) : Prop :=
  NoDup (modal_checkedLinks w)
  ∧ Forall (fun i => i < length (modal_potentialLinks w)) (modal_checkedLinks w).

Definition windowInv (w : LinkSelectionModal) : Prop :=
  1 ≤ modal_pageSize w ∧ pageInRange w ∧ validChecked w.

(** What the controls of the window do. *)
Inductive modal_event :=
| Toggle (i : nat) (checked : bool)    (* the checkbox of link [i] *)
| SelectAll
| SelectAllOnPage
| Page (delta : Z).                    (* [changePage(delta)] *)

(** The events the controls deliver: a checkbox belongs to a link of the
    page that is shown, and the page buttons step by one. *)
Definition modal_event_ok (w : LinkSelectionModal) (e : modal_event) : Prop :=
  match e with
  | Toggle i _ => i ∈ (linksToShow w).*1
  | Page delta => delta = 1%Z ∨ delta = (-1)%Z
  | SelectAll | SelectAllOnPage => True
  end.

Definition apply_modal_event (w : LinkSelectionModal) (e : modal_event)
    : option LinkSelectionModal :=
  match e with
  | Toggle i checked => Some (onCheckboxChange i checked w)
  | SelectAll => Some (selectAll w)
  | SelectAllOnPage => Some (selectAllOnPage w)
  | Page delta => changePage delta w
  end.

Fixpoint run_modal_events (w : LinkSelectionModal) (es : list modal_event)
    : option LinkSelectionModal :=
  match es with
  | [] => Some w
  | e :: es' =>
      match apply_modal_event w e with
      | Some w' => run_modal_events w' es'
      | None => None
      end
  end.

Fixpoint modal_events_ok (w : LinkSelectionModal) (es : list modal_event)
    : Prop :=
  match es with
  | [] => True
  | e :: es' =>
      modal_event_ok w e
      ∧ match apply_modal_event w e with
        | Some w' => modal_events_ok w' es'
        | None => True
        end
  end.

(** A folder as the text area of the settings tab yields it: not empty, no
    white space at either end, on one line. *)
Definition cleanFolder (folder : jsstring) : Prop :=
  folder ≠ []
  ∧ (∀ c, head folder = Some c → isWhiteSpace c = false)
  ∧ (∀ c, last folder = Some c → isWhiteSpace c = false)
  ∧ newline ∉ folder.

(** ** Sample data *)

Definition noteNamed (t : string) : NoteEntry :=
  {| note_title := js t; note_path := js t ++ js ".md" |}.

(** The defaults of [loadSettings]. *)
Definition defaultSettings : Settings :=
  {| excludedFolders := []; pageSize := 10; enableWikiLinks := false;
     respectCase := false; excludeFrontmatter := true |}.

Definition pluginWith (s : Settings) (cache : list NoteEntry) : Plugin :=
  {| settings := s; noteTitlesCache := cache; cacheUpToDate := true |}.

Definition linkAt (t orig ctx : string) (s e : nat) : Link :=
  {| title := js t; context := js ctx; originalMatch := js orig;
     notePath := js t ++ js ".md"; matchIndex := (s, e) |}.

Definition nestedReferenceLink : Link :=
  linkAt "Existing Title" "Existing Title" "[[My Existing Title page]]" 5 19.

Definition projectAlphaLink : Link :=
  linkAt "Project Alpha" "Project Alpha" "Project Alpha" 0 13.

Definition innerTitleLink : Link :=
  linkAt "ject Al" "ject Al" "[[Project Alpha]]" 5 12.

Definition fileAt (p base : string) : AbstractFile :=
  {| path := js p; basename := js base;
     extension := js "md"; file_isTFile := true |}.

Definition emptyPlugin : Plugin :=
  {| settings := defaultSettings; noteTitlesCache := [];
     cacheUpToDate := false |}.

Definition aliasSettings : Settings :=
  {| excludedFolders := []; pageSize := 10; enableWikiLinks := true;
     respectCase := true; excludeFrontmatter := true |}.

Definition lowerCaseLink : Link :=
  linkAt "Project Alpha" "project alpha" "See project alpha notes" 4 17.

Definition alphaLink : Link := linkAt "Alpha" "Alpha" "Alpha" 0 5.

Definition vaultOne : Vault := {[ js "n.md" := js "Alpha one" ]}.
Definition vaultTwo : Vault := {[ js "n.md" := js "Alpha two" ]}.

Definition frontmatterNote : jsstring :=
  js "---" ++ [newline] ++ js "key: Project Alpha" ++ [newline]
  ++ js "---" ++ [newline] ++ js "Project Alpha is great".

Definition twoBlocksNote : jsstring :=
  js "---" ++ [newline] ++ js "a: 1" ++ [newline] ++ js "---" ++ [newline]
  ++ js "---" ++ [newline] ++ js "b: 2" ++ [newline] ++ js "---" ++ [newline]
  ++ js "Text".

(** "Café" and "CAFÉ": the last letters are the code units 233 and 201. *)
Definition cafe : jsstring := js "Caf" ++ ["233"%char].

Definition cafeUpper : jsstring := js "CAF" ++ ["201"%char].

Definition cafeNote : NoteEntry :=
  {| note_title := cafe; note_path := cafe ++ js ".md" |}.

Definition cafeLink : Link :=
  {| title := cafe; context := cafeUpper ++ js " au lait";
     originalMatch := cafeUpper; notePath := cafe ++ js ".md";
     matchIndex := (0, 4) |}.

(** A block with a line that ends in "---", and a block whose lines end
    in a carriage return and a line feed. *)
Definition cutShortNote : jsstring :=
  js "---" ++ [newline] ++ js "key: a---" ++ [newline]
  ++ js "alias: Project Alpha" ++ [newline]
  ++ js "---" ++ [newline] ++ js "Project Alpha is great".

Definition crlfNote : jsstring :=
  js "---" ++ ["013"%char; newline] ++ js "key: Project Alpha"
  ++ ["013"%char; newline] ++ js "---" ++ ["013"%char; newline]
  ++ js "Project Alpha is great".

Definition scanAllSettings : Settings :=
  {| excludedFolders := []; pageSize := 10; enableWikiLinks := false;
     respectCase := false; excludeFrontmatter := false |}.

Definition everyFlagSet : Settings := aliasSettings.

(** Data for the further properties. *)
Definition firstAlphaLink : Link :=
  linkAt "Alpha" "Alpha" "Alpha Alpha" 0 5.

Definition alphaAgainLink : Link :=
  linkAt "Alpha" "Alpha" "Alpha Alpha" 6 11.

Definition longText : jsstring :=
  js "0123456789012345678901234 Alpha 0123456789012345678901234".

Definition longTextLink : Link :=
  linkAt "Alpha" "Alpha" "6789012345678901234 Alpha 0123456789012345678"
    26 31.

Definition lowerAlphaLink : Link :=
  linkAt "Alpha" "alpha" "(alpha)" 1 6.

Definition blockedPlugin : Plugin :=
  pluginWith defaultSettings [noteNamed "Alpha"; noteNamed "a)"; noteNamed "Beta"].

Definition wholeNoteView : ActiveView :=
  {| view_file := fileAt "n.md" "n"; view_selection := [] |}.

Definition folderAt (p : string) : AbstractFile :=
  {| path := js p; basename := js p; extension := [];
     file_isTFile := false |}.

(** Sixty notes with paths of their own: "n.md", "nn.md", and so on. *)
Definition numberedNote (i : nat) : AbstractFile :=
  {| path := replicate i "n"%char ++ js ".md";
     basename := replicate i "n"%char;
     extension := js "md"; file_isTFile := true |}.

Definition sixtyNumberedNotes : list AbstractFile :=
  numberedNote <$> List.seq 1 60.

(** Sixty notes, the first of them "Alpha". *)
Definition sixtyNotes : list AbstractFile :=
  fileAt "Alpha.md" "Alpha" :: replicate 59 (fileAt "Other.md" "Other").

Definition staleRunResult : RunResult :=
  {| run_plugin :=
       {| settings := defaultSettings;
          noteTitlesCache := entryOf <$> take 50 sixtyNotes;
          cacheUpToDate := false |};
     run_pending := Some 50;
     run_progressOpen := false;
     run_notice := None;
     run_links := Some [linkAt "Alpha" "Alpha" "Alpha one" 0 5] |}.

Definition privateSettings : Settings :=
  {| excludedFolders := [js "private/"]; pageSize := 10;
     enableWikiLinks := false; respectCase := false;
     excludeFrontmatter := true |}.

Definition privatePlugin : Plugin :=
  {| settings := privateSettings; noteTitlesCache := [];
     cacheUpToDate := false |}.

Definition threeLinks : list Link :=
  [firstAlphaLink; alphaAgainLink; lowerAlphaLink].

Definition pageOfTwoPlugin : Plugin :=
  pluginWith
    {| excludedFolders := []; pageSize := 2; enableWikiLinks := false;
       respectCase := false; excludeFrontmatter := true |} [].

Definition threeLinkWindow : LinkSelectionModal :=
  newLinkSelectionModal threeLinks (fileAt "n.md" "n") pageOfTwoPlugin.

(** * Properties *)

(** ** Characters *)

(** Facts about one character are settled on its 256 values. *)
Ltac ascii_cases c := destruct c as [[] [] [] [] [] [] [] []].

Lemma toUpperCase_open (x : ascii) :
  Ascii.eqb (toUpperCase x) (toUpperCase "[") = Ascii.eqb x "[".
Proof. ascii_cases x; reflexivity. Qed.

(** ** The parser on the pattern text of a title *)

Lemma parse_plain c pat stack cur g :
  isSpecial c = false →
  parse (c :: pat) stack cur g = parse pat stack (Chr c :: cur) g.
Proof.
  intros H.
  ascii_cases c;
    first [ discriminate H | reflexivity ].
Qed.

Lemma parse_escaped c pat stack cur g :
  isSpecial c = true →
  parse ("\"%char :: c :: pat) stack cur g = parse pat stack (Chr c :: cur) g.
Proof.
  intros H.
  ascii_cases c;
    first [ discriminate H | reflexivity ].
Qed.

Lemma parse_open pat stack cur g :
  head pat ≠ Some "?"%char →
  parse ("("%char :: pat) stack cur g =
  parse pat ({| f_kind := FCapture (S g); f_saved := cur |} :: stack) [] (S g).
Proof.
  intros H. destruct pat as [|x pat]; [reflexivity|].
  ascii_cases x;
    first [ reflexivity | exfalso; apply H; reflexivity ].
Qed.

Lemma title_text_head t suffix :
  head suffix ≠ Some "?"%char →
  head (flexParens (escapeRegExp t) ++ suffix) ≠ Some "?"%char.
Proof.
  intros H. destruct t as [|c t]; [exact H|].
  simpl. destruct (isSpecial c) eqn:Hs; simpl.
  - discriminate.
  - destruct (isParen c) eqn:Hp; simpl.
    + discriminate.
    + intros [= ->]. discriminate Hs.
Qed.
Lemma isParen_cases c :
  isParen c = (Ascii.eqb c "(" || Ascii.eqb c ")").
Proof. reflexivity. Qed.

Lemma parse_title t : ∀ suffix stack cur g,
  head suffix ≠ Some "?"%char →
  parse (flexParens (escapeRegExp t) ++ suffix) stack cur g =
  match absorb t stack cur g with
  | inl (stack', cur', g') => parse suffix stack' cur' g'
  | inr e => e
  end.
Proof.
  induction t as [|c t IH]; intros suffix stack cur g Hs; [reflexivity|].
  pose proof (title_text_head t suffix Hs) as Hh.
  cbn [absorb].
  destruct (Ascii.eqb c "(") eqn:Ho.
  { apply Ascii.eqb_eq in Ho as ->.
    change (flexParens (escapeRegExp ("("%char :: t)) ++ suffix)
      with (js "\\\?" ++ "("%char :: (flexParens (escapeRegExp t) ++ suffix)).
    change (parse (js "\\\?" ++ ?p) stack cur g)
      with (parse p stack (Chr "?" :: Chr "\" :: cur) g).
    rewrite parse_open by exact Hh. apply IH, Hs. }
  destruct (Ascii.eqb c ")") eqn:Hc.
  { apply Ascii.eqb_eq in Hc as ->.
    change (flexParens (escapeRegExp (")"%char :: t)) ++ suffix)
      with (js "\\\?" ++ ")"%char :: (flexParens (escapeRegExp t) ++ suffix)).
    change (parse (js "\\\?" ++ ?p) stack cur g)
      with (parse p stack (Chr "?" :: Chr "\" :: cur) g).
    cbn [parse]. destruct stack as [|f stack]; [reflexivity|].
    destruct (close_group _ _); [apply IH, Hs | reflexivity]. }
  assert (Hp : isParen c = false) by (rewrite isParen_cases, Ho, Hc; reflexivity).
  cbn [escapeRegExp]. destruct (isSpecial c) eqn:Hsp.
  - cbn [flexParens]. change (isParen "\"%char) with false. rewrite Hp.
    cbn [app]. rewrite parse_escaped by exact Hsp. apply IH, Hs.
  - cbn [flexParens]. rewrite Hp. cbn [app].
    rewrite parse_plain by exact Hsp. apply IH, Hs.
Qed.

Lemma weight_app a b : weight (a ++ b) = weight a + weight b.
Proof. apply sum_list_with_app. Qed.

Lemma weight_rev a : weight (rev a) = weight a.
Proof.
  induction a as [|x a IH]; [reflexivity|].
  cbn [rev]. rewrite weight_app, IH. unfold weight. simpl. lia.
Qed.

Lemma minlen_seq items : minlen (seq items) = weight items.
Proof.
  induction items as [|x items IH]; [reflexivity|].
  simpl. rewrite IH. reflexivity.
Qed.

Lemma close_group_capture k inner :
  (∃ n, k = FCapture n) →
  ∃ n, k = FCapture n ∧ close_group k inner = Some (Grp n (seq (rev inner))).
Proof. intros [n ->]. exists n. split; reflexivity. Qed.

Lemma bottomItems_push f stack cur cur' :
  bottomItems (f :: stack) cur' =
  match stack with [] => f_saved f | _ :: _ => bottomItems stack cur end.
Proof.
  destruct stack as [|f0 stack]; unfold bottomItems; simpl; [reflexivity|].
  destruct (last (f0 :: stack)) eqn:Hl; [reflexivity|].
  apply last_None in Hl. discriminate Hl.
Qed.

Lemma absorb_inv t : ∀ stack cur g,
  captureOnly stack →
  match absorb t stack cur g with
  | inl (stack', cur', g') =>
      captureOnly stack'
      ∧ stateWeight stack cur + length t + parenCount t
        ≤ stateWeight stack' cur'
      ∧ (firstGroupInv stack cur → firstGroupInv stack' cur')
  | inr e => e = PatternSyntaxError
  end.
Proof.
  induction t as [|c t IH]; intros stack cur g Hc.
  { simpl. split; [exact Hc|]. split; [lia | tauto]. }
  cbn [absorb parenCount]. unfold isParen.
  destruct (Ascii.eqb c "(").
  { specialize (IH ({| f_kind := FCapture (S g);
                       f_saved := Chr "?" :: Chr "\" :: cur |} :: stack) [] (S g)).
    destruct (absorb t _ _ _) as [[[stack' cur'] g']|e]; [|apply IH].
    - destruct IH as (H1 & H2 & H3).
      { constructor; [eexists; reflexivity | exact Hc]. }
      split; [exact H1|]. split.
      + unfold stateWeight, weight in *. simpl in *. lia.
      + intros Hi. apply H3. destruct Hi as [[s0 ->]|(X & r1 & Hb)].
        * left. exists ({| f_kind := FCapture (S g);
                           f_saved := Chr "?" :: Chr "\" :: cur |} :: s0).
          reflexivity.
        * right. rewrite (bottomItems_push _ _ cur).
          destruct stack as [|f stack].
          -- exists (Chr "?" :: Chr "\" :: X), r1.
             cbn [f_saved]. change (bottomItems [] cur) with cur in Hb.
             rewrite Hb. reflexivity.
          -- exists X, r1. exact Hb.
    - constructor; [eexists; reflexivity | exact Hc]. }
  destruct (Ascii.eqb c ")").
  { destruct stack as [|f stack]; [reflexivity|].
    inversion Hc as [|? ? Hf Hc']; subst.
    destruct (close_group_capture (f_kind f) (Chr "?" :: Chr "\" :: cur) Hf)
      as (n & Hk & ->).
    specialize (IH stack (Grp n (seq (rev (Chr "?" :: Chr "\" :: cur))) :: f_saved f) g Hc').
    destruct (absorb t _ _ _) as [[[stack' cur'] g']|e]; [|apply IH].
    destruct IH as (H1 & H2 & H3).
    split; [exact H1|]. split.
    + revert H2. unfold stateWeight. cbn [sum_list_with length].
      unfold weight at 1 3. cbn [sum_list_with minlen].
      rewrite minlen_seq, weight_rev. unfold weight. simpl. lia.
    + intros Hi. apply H3. destruct Hi as [[s0 Hs0]|(X & r1 & Hb)].
      * destruct s0 as [|f0 s0]; simpl in Hs0.
        -- injection Hs0 as -> ->. right. unfold bottomItems. simpl.
           exists [], (seq (rev (Chr "?" :: Chr "\" :: cur))).
           injection Hk as <-. reflexivity.
        -- injection Hs0 as -> ->. left. exists s0. reflexivity.
      * right. rewrite (bottomItems_push _ _ (Grp n (seq (rev (Chr "?" :: Chr "\" :: cur))) :: f_saved f)) in Hb.
        destruct stack as [|f1 stack].
        -- eexists (_ :: X), r1.
           unfold bottomItems; simpl. rewrite Hb. reflexivity.
        -- exists X, r1. exact Hb. }
  specialize (IH stack (Chr c :: cur) g Hc).
  destruct (absorb t _ _ _) as [[[stack' cur'] g']|e]; [|apply IH].
  destruct IH as (H1 & H2 & H3).
  split; [exact H1|]. split.
  - unfold stateWeight, weight in *. simpl in *. lia.
  - intros Hi. apply H3. destruct Hi as [[s0 ->]|(X & r1 & Hb)].
    + left. exists s0. reflexivity.
    + right. unfold bottomItems in *. destruct (last stack) eqn:Hl.
      * exists X, r1. exact Hb.
      * exists (Chr c :: X), r1. rewrite Hb. reflexivity.
Qed.

Lemma itemsGroups_app a b : itemsGroups (a ++ b) = itemsGroups a ++ itemsGroups b.
Proof. apply flat_map_app. Qed.

Lemma itemsGroups_rev a : itemsGroups (rev a) ≡ₚ itemsGroups a.
Proof.
  induction a as [|x a IH]; [reflexivity|].
  cbn [rev]. rewrite itemsGroups_app, IH. cbn. rewrite app_nil_r.
  apply Permutation_app_comm.
Qed.

Lemma groupsOf_seq items : groupsOf (seq items) = itemsGroups items.
Proof.
  unfold seq, itemsGroups. induction items as [|x items IH]; [reflexivity|].
  simpl. rewrite IH. reflexivity.
Qed.

Lemma itemsGroups_cons x items :
  itemsGroups (x :: items) = groupsOf x ++ itemsGroups items.
Proof. reflexivity. Qed.

Lemma stateGroups_cons f stack cur :
  stateGroups (f :: stack) cur
  = itemsGroups cur ++ frameGroups f ++ flat_map frameGroups stack.
Proof. reflexivity. Qed.

(** The parser hands out each group number once. *)
Lemma absorb_groups t : ∀ stack cur g,
  captureOnly stack →
  NoDup (stateGroups stack cur) →
  Forall (fun n => n ≤ g) (stateGroups stack cur) →
  match absorb t stack cur g with
  | inl (stack', cur', g') => NoDup (stateGroups stack' cur')
  | inr _ => True
  end.
Proof.
  induction t as [|c t IH]; intros stack cur g Hc Hn Hg; [exact Hn|].
  cbn [absorb].
  destruct (Ascii.eqb c "(").
  { assert (E : stateGroups
                  ({| f_kind := FCapture (S g);
                      f_saved := Chr "?" :: Chr "\" :: cur |} :: stack) []
                = S g :: stateGroups stack cur) by reflexivity.
    apply IH.
    - constructor; [by eexists | exact Hc].
    - rewrite E. apply NoDup_cons. split; [|exact Hn].
      intros Hin. apply (proj1 (Forall_forall _ _) Hg) in Hin. lia.
    - rewrite E. constructor; [lia|].
      eapply Forall_impl; [exact Hg|]. intros n Hle. simpl in Hle. lia. }
  destruct (Ascii.eqb c ")").
  { destruct stack as [|f stack]; [exact I|].
    inversion Hc as [|? ? [n Hk] Hc']; subst.
    rewrite Hk. cbn [close_group].
    assert (Hf : frameGroups f = n :: itemsGroups (f_saved f))
      by (unfold frameGroups; rewrite Hk; reflexivity).
    assert (Hp : stateGroups stack
                   (Grp n (seq (rev (Chr "?" :: Chr "\" :: cur))) :: f_saved f)
                 ≡ₚ stateGroups (f :: stack) cur).
    { rewrite stateGroups_cons, Hf. unfold stateGroups.
      rewrite itemsGroups_cons. cbn [groupsOf].
      rewrite groupsOf_seq, itemsGroups_rev.
      change (itemsGroups (Chr "?" :: Chr "\" :: cur)) with (itemsGroups cur).
      cbn [app]. rewrite <- app_assoc, <- Permutation_middle. reflexivity. }
    apply IH; [exact Hc' | by rewrite Hp | by rewrite Hp]. }
  apply IH; [exact Hc | exact Hn | exact Hg].
Qed.

Lemma detect_compile_start t :
  compile (detectPattern t) =
  match absorb t [firstGroupFrame] [] 1 with
  | inl (stack', cur', g') => parse (js ")(?!\|?\]\])") stack' cur' g'
  | inr e => e
  end.
Proof.
  unfold compile, detectPattern.
  change (parse (js "(?<!\[\[)(" ++ ?rest) [] [] 0)
    with (parse ("("%char :: rest) [] [notAfterOpen] 0).
  rewrite parse_open by (apply title_text_head; discriminate).
  apply parse_title. discriminate.
Qed.

Lemma detect_compile_cases t :
  compile (detectPattern t) = PatternSyntaxError
  ∨ ∃ r1 mid g,
      compile (detectPattern t)
      = Compiled (seq (notAfterOpen :: Grp 1 r1 :: mid ++ [notBeforeClose])) g
      ∧ length t + parenCount t ≤ weight (Grp 1 r1 :: mid)
      ∧ 1 ∉ itemsGroups mid.
Proof.
  rewrite detect_compile_start.
  assert (Hc0 : captureOnly [firstGroupFrame])
    by (repeat constructor; by eexists).
  pose proof (absorb_inv t [firstGroupFrame] [] 1 Hc0) as Hinv.
  pose proof (absorb_groups t [firstGroupFrame] [] 1 Hc0) as Hgr.
  destruct (absorb t _ _ _) as [[[stack' cur'] g']|e];
    [|left; exact Hinv].
  destruct Hinv as (Hc & Hw & Hi).
  specialize (Hi (or_introl (ex_intro _ [] eq_refl))).
  assert (Hnd : NoDup (stateGroups stack' cur')).
  { apply Hgr; [apply NoDup_singleton | by repeat constructor]. }
  clear Hgr.
  destruct stack' as [|f stack'']; [left; reflexivity|].
  inversion Hc as [|? ? [n Hk] Hc']; subst.
  change (parse (js ")(?!\|?\]\])") (f :: stack'') cur' g')
    with (match close_group (f_kind f) cur' with
          | Some item =>
              match stack'' with
              | [] => Compiled (seq (rev (notBeforeClose :: item :: f_saved f))) g'
              | _ :: _ => PatternSyntaxError
              end
          | None => OutsideFragment
          end).
  rewrite Hk. cbn [close_group].
  destruct stack'' as [|f2 stack'']; [|left; reflexivity].
  right.
  assert (Hw' : length t + parenCount t ≤ weight cur' + weight (f_saved f)).
  { revert Hw. unfold stateWeight, weight. simpl. lia. }
  assert (Hnd' : NoDup (itemsGroups cur' ++ n :: itemsGroups (f_saved f))).
  { revert Hnd. rewrite stateGroups_cons. unfold frameGroups. rewrite Hk.
    cbn [flat_map]. by rewrite app_nil_r. }
  destruct Hi as [[s0 Hs0]|(X & r1 & Hb)].
  - destruct s0 as [|f0 s0]; [|destruct s0; discriminate Hs0].
    injection Hs0 as ->. injection Hk as <-.
    exists (seq (rev cur')), [], g'. split; [reflexivity|]. split.
    + revert Hw'. unfold weight. simpl. rewrite minlen_seq, weight_rev.
      unfold weight. lia.
    + apply not_elem_of_nil.
  - unfold bottomItems in Hb. simpl in Hb.
    exists r1, (rev X ++ [Grp n (seq (rev cur'))]), g'. split; [|split].
    + rewrite Hb. cbn [rev]. rewrite rev_app_distr. simpl.
      rewrite <- !app_assoc. reflexivity.
    + revert Hw'. rewrite Hb. rewrite !weight_app.
      assert (E1 : weight [Grp n (seq (rev cur'))] = weight cur').
      { unfold weight at 1. simpl. rewrite minlen_seq, weight_rev. lia. }
      assert (E2 : ∀ l, weight (Grp 1 r1 :: l) = minlen r1 + weight l)
        by reflexivity.
      rewrite !E2, weight_app, weight_rev, E1.
      change (weight [notAfterOpen]) with 0. lia.
    + revert Hnd'. rewrite Hb, !itemsGroups_app. cbn. rewrite !app_nil_r.
      rewrite groupsOf_seq, !itemsGroups_rev.
      intros Hnd' Hin.
      apply NoDup_app in Hnd' as (_ & HA & Hnd').
      apply NoDup_cons in Hnd' as (Hn & Hnd').
      apply NoDup_app in Hnd' as (_ & HB & _).
      apply elem_of_app in Hin as [Hin|Hin].
      { apply (HB 1 Hin), list_elem_of_here. }
      apply elem_of_cons in Hin as [<-|Hin].
      { apply Hn, elem_of_app. right. apply list_elem_of_here. }
      apply (HA 1 Hin), list_elem_of_further, elem_of_app.
      right. apply list_elem_of_here.
Qed.

Lemma replace_compile_cases s :
  compile (replacePattern s) = PatternSyntaxError
  ∨ ∃ r g, compile (replacePattern s) = Compiled r g.
Proof.
  unfold compile, replacePattern.
  change (parse (js "\b" ++ ?rest) [] [] 0) with (parse rest [] [WordB] 0).
  rewrite parse_title by discriminate.
  pose proof (absorb_inv s [] [WordB] 0) as Hinv.
  destruct (absorb s _ _ _) as [[[stack' cur'] g']|e].
  - destruct stack' as [|f stack']; [right | left; reflexivity].
    eexists _, _. reflexivity.
  - left. apply Hinv. constructor.
Qed.

(** ** The matcher *)

Lemma advance_refl st : advance st st 0.
Proof. exists []. split; [reflexivity|]. split; [reflexivity|]. simpl. lia. Qed.

Lemma advance_trans st1 st2 st3 n1 n2 :
  advance st1 st2 n1 → advance st2 st3 n2 → advance st1 st3 (n1 + n2).
Proof.
  intros (w1 & Hr1 & Hp1 & Hn1) (w2 & Hr2 & Hp2 & Hn2).
  exists (w1 ++ w2). split; [|split].
  - rewrite Hr1, Hr2, app_assoc. reflexivity.
  - rewrite Hp2, Hp1, rev_app_distr, app_assoc. reflexivity.
  - rewrite length_app. lia.
Qed.

Lemma advance_weaken st st' n n' : advance st st' n → n' ≤ n → advance st st' n'.
Proof. intros (w & H1 & H2 & H3) Hn. exists w. repeat split; [done..|lia]. Qed.

Lemma advance_step x prev rest :
  advance {| m_prev := prev; m_rest := x :: rest |}
          {| m_prev := x :: prev; m_rest := rest |} 1.
Proof. exists [x]. split; [reflexivity|]. split; [reflexivity|]. simpl. lia. Qed.

Lemma advance_pos st st' n : advance st st' n → m_pos st + n ≤ m_pos st'.
Proof.
  intros (w & _ & Hp & Hn). unfold m_pos. rewrite Hp, length_app, length_rev.
  lia.
Qed.

(** A successful match of [r] hands over to its continuation at a later
    position, with captures added for groups of [r] only. *)
Lemma m_cont_strong ic r : ∀ k st cs res,
  m ic r k st cs = Some res →
  ∃ st' new, k st' (new ++ cs) = Some res ∧ advance st st' (minlen r)
             ∧ Forall (fun e => e.1 ∈ groupsOf r) new.
Proof.
  induction r as [|c|c| | | |r1 IH1 r2 IH2|n r IH|s|r IH];
    intros k st cs res H; cbn [m minlen groupsOf] in H |- *.
  - exists st, []. split; [exact H|]. split; [apply advance_refl | constructor].
  - destruct st as [prev [|x rest]]; cbn in H; [discriminate|].
    destruct (Ascii.eqb _ _); [|discriminate].
    eexists _, []. split; [exact H|]. split; [apply advance_step | constructor].
  - destruct st as [prev [|x rest]]; cbn in H.
    + exists {| m_prev := prev; m_rest := [] |}, [].
      split; [exact H|]. split; [apply advance_refl | constructor].
    + destruct (Ascii.eqb _ _).
      * destruct (k {| m_prev := x :: prev; m_rest := rest |} cs) eqn:Hk.
        -- injection H as <-. eexists _, []. split; [exact Hk|].
           split; [|constructor].
           eapply advance_weaken; [apply advance_step | lia].
        -- eexists _, []. split; [exact H|].
           split; [apply advance_refl | constructor].
      * eexists _, []. split; [exact H|].
        split; [apply advance_refl | constructor].
  - destruct (m_prev st); [|discriminate].
    exists st, []. split; [exact H|]. split; [apply advance_refl | constructor].
  - destruct (xorb _ _); [|discriminate].
    exists st, []. split; [exact H|]. split; [apply advance_refl | constructor].
  - destruct st as [prev rest]. cbn in H.
    revert prev H. induction rest as [|x rest IHrest]; intros prev H;
      [discriminate|].
    destruct (k {| m_prev := x :: prev; m_rest := rest |} cs) eqn:Hk.
    + injection H as <-. eexists _, []. split; [exact Hk|].
      split; [apply advance_step | constructor].
    + destruct (IHrest _ H) as (st' & new & Hk' & Ha & Hn).
      exists st', new. split; [exact Hk'|]. split; [|exact Hn].
      eapply advance_weaken;
        [exact (advance_trans _ _ _ _ _ (advance_step x prev rest) Ha) | lia].
  - destruct (IH1 _ _ _ _ H) as (st1 & new1 & H1 & Ha1 & Hn1).
    destruct (IH2 _ _ _ _ H1) as (st2 & new2 & H2 & Ha2 & Hn2).
    exists st2, (new2 ++ new1). split; [by rewrite <- app_assoc|].
    split; [exact (advance_trans _ _ _ _ _ Ha1 Ha2)|].
    apply Forall_app. split.
    + eapply Forall_impl; [exact Hn2|]. intros e He. apply elem_of_app. by right.
    + eapply Forall_impl; [exact Hn1|]. intros e He. apply elem_of_app. by left.
  - destruct (IH _ _ _ _ H) as (st1 & new1 & H1 & Ha1 & Hn1).
    exists st1, ((n, (m_pos st, m_pos st1)) :: new1).
    split; [exact H1|]. split; [exact Ha1|].
    constructor; [apply list_elem_of_here|].
    eapply Forall_impl; [exact Hn1|]. intros e He. by apply list_elem_of_further.
  - destruct (endsWithRev _ _ _); [discriminate|].
    exists st, []. split; [exact H|]. split; [apply advance_refl | constructor].
  - destruct (m ic r _ st cs); [discriminate|].
    exists st, []. split; [exact H|]. split; [apply advance_refl | constructor].
Qed.

Lemma m_cont ic r k st cs res :
  m ic r k st cs = Some res →
  ∃ st' cs', k st' cs' = Some res ∧ advance st st' (minlen r)
             ∧ ∃ new, cs' = new ++ cs.
Proof.
  intros H. destruct (m_cont_strong _ _ _ _ _ _ H) as (st' & new & Hk & Ha & _).
  exists st', (new ++ cs). split; [exact Hk|]. split; [exact Ha | by exists new].
Qed.

Lemma offsetState_atOffset str i :
  i ≤ length str → atOffset str i (offsetState str i).
Proof.
  intros Hi. split; simpl.
  - rewrite rev_involutive. apply take_drop.
  - unfold m_pos. simpl. rewrite length_rev, length_take. lia.
Qed.

Lemma atOffset_take str i st : atOffset str i st → take i str = rev (m_prev st).
Proof.
  intros [<- <-]. apply take_app_length'. unfold m_pos. by rewrite length_rev.
Qed.

Lemma atOffset_drop str i st : atOffset str i st → drop i str = m_rest st.
Proof.
  intros [<- <-]. apply drop_app_length'. unfold m_pos. by rewrite length_rev.
Qed.

Lemma atOffset_le str i st : atOffset str i st → i ≤ length str.
Proof.
  intros [<- <-]. rewrite length_app, length_rev. unfold m_pos. lia.
Qed.

Lemma atOffset_eq str i st : atOffset str i st → st = offsetState str i.
Proof.
  intros H. destruct st as [prev rest]. unfold offsetState.
  rewrite (atOffset_take _ _ _ H), (atOffset_drop _ _ _ H). simpl.
  by rewrite rev_involutive.
Qed.

Lemma advance_offset str i st st' n :
  atOffset str i st → advance st st' n →
  ∃ e, atOffset str e st' ∧ i + n ≤ e.
Proof.
  intros [Hs Hi] (w & Hr & Hp & Hn). exists (i + length w). split; [|lia].
  split.
  - rewrite Hp, rev_app_distr, rev_involutive, <- app_assoc, <- Hr. exact Hs.
  - unfold m_pos in *. rewrite Hp, length_app, length_rev. lia.
Qed.

Lemma search_spec ic r : ∀ rest prev i st' cs,
  search ic r prev rest = Some (i, st', cs) →
  ∃ w rest', rest = w ++ rest' ∧ i = length prev + length w
    ∧ match_at ic r {| m_prev := rev w ++ prev; m_rest := rest' |}
      = Some (st', cs).
Proof.
  induction rest as [|x rest IH]; intros prev i st' cs H; cbn [search] in H.
  - destruct (match_at ic r _) as [[st1 cs1]|] eqn:Hm; [|discriminate].
    injection H as <- <- <-. exists [], []. simpl. split; [done|].
    split; [lia | exact Hm].
  - destruct (match_at ic r _) as [[st1 cs1]|] eqn:Hm.
    + injection H as <- <- <-. exists [], (x :: rest). simpl. split; [done|].
      split; [lia | exact Hm].
    + destruct (IH _ _ _ _ H) as (w & rest' & -> & -> & Hm').
      exists (x :: w), rest'. split; [done|]. split; [simpl; lia|].
      cbn [rev]. rewrite <- app_assoc. exact Hm'.
Qed.

(** What a successful [exec] of a global expression returns. *)
Lemma regex_exec_spec re str lastIndex mt lastIndex' :
  re_global re = true →
  regex_exec re str lastIndex = (Some mt, lastIndex') →
  ∃ st', lastIndex ≤ mr_index mt ∧ mr_index mt ≤ length str
    ∧ mr_input mt = str
    ∧ match_at (re_ignoreCase re) (re_tree re) (offsetState str (mr_index mt))
      = Some (st', mr_captures mt)
    ∧ atOffset str (mr_end mt) st'
    ∧ mr_index mt + minlen (re_tree re) ≤ mr_end mt
    ∧ lastIndex' = mr_end mt.
Proof.
  intros Hg H. unfold regex_exec in H. rewrite Hg in H.
  destruct (length str <? lastIndex) eqn:Hl; [discriminate|].
  apply Nat.ltb_ge in Hl.
  destruct (search _ _ _ _) as [[[i st1] cs1]|] eqn:Hs; [|discriminate].
  injection H as <- <-. simpl.
  destruct (search_spec _ _ _ _ _ _ _ Hs) as (w & rest' & Hd & -> & Hm).
  assert (Hat : atOffset str (length (rev (take lastIndex str)) + length w)
                  {| m_prev := rev w ++ rev (take lastIndex str);
                     m_rest := rest' |}).
  { split; simpl.
    - rewrite rev_app_distr, !rev_involutive, <- app_assoc, <- Hd.
      apply take_drop.
    - unfold m_pos. simpl. rewrite length_app, !length_rev. lia. }
  pose proof (atOffset_le _ _ _ Hat) as Hle.
  rewrite (atOffset_eq _ _ _ Hat) in Hm.
  exists st1. rewrite length_rev, length_take in *.
  split; [lia|]. split; [lia|]. split; [done|]. split; [exact Hm|].
  unfold match_at in Hm.
  destruct (m_cont _ _ _ _ _ _ Hm) as (st2 & cs2 & Hk & Ha & _).
  injection Hk as -> ->.
  rewrite <- (atOffset_eq _ _ _ Hat) in Ha.
  destruct (advance_offset _ _ _ _ _ Hat Ha) as (e & He & Hge).
  assert (m_pos st1 = e) as -> by apply He.
  split; [exact He|]. split; [lia | reflexivity].
Qed.

Lemma seq_lookahead_last ic la items : ∀ k st cs res,
  m ic (seq (items ++ [NegAhead la])) k st cs = Some res →
  ∃ st' cs', advance st st' (weight items)
    ∧ m ic la (fun a b => Some (a, b)) st' cs' = None
    ∧ k st' cs' = Some res
    ∧ ∃ new, cs' = new ++ cs.
Proof.
  induction items as [|x items IH]; intros k st cs res H.
  - cbn in H. destruct (m ic la _ st cs) eqn:Hla; [discriminate|].
    exists st, cs. split; [apply advance_refl|]. split; [exact Hla|].
    split; [exact H | by exists []].
  - change (m ic x (fun st' cs' => m ic (seq (items ++ [NegAhead la])) k st' cs')
              st cs = Some res) in H.
    destruct (m_cont _ _ _ _ _ _ H) as (st1 & cs1 & H1 & Ha1 & new1 & ->).
    destruct (IH _ _ _ _ H1) as (st2 & cs2 & Ha2 & Hla & Hk & new2 & ->).
    exists st2, (new2 ++ new1 ++ cs). split.
    { exact (advance_trans _ _ _ _ _ Ha1 Ha2). }
    split; [exact Hla|]. split; [exact Hk|].
    exists (new2 ++ new1). by rewrite app_assoc.
Qed.

Lemma capture_lookup_fresh n (new : captures) se cs :
  Forall (fun e => e.1 ≠ n) new →
  capture_lookup n (new ++ (n, se) :: cs) = Some se.
Proof.
  induction new as [|[k se'] new IH]; intros Hn; simpl.
  - by rewrite Nat.eqb_refl.
  - apply Forall_cons in Hn as [Hk Hn]. simpl in Hk.
    apply Nat.eqb_neq in Hk as ->. by apply IH.
Qed.

Lemma lookahead_close st cs post :
  m_rest st = js "]]" ++ post →
  m true (seq [OptChr "|"; Chr "]"; Chr "]"]) (fun a b => Some (a, b)) st cs
  ≠ None.
Proof. destruct st as [prev rest]. simpl. intros ->. discriminate. Qed.

Lemma lookahead_alias st cs post :
  m_rest st = js "|]]" ++ post →
  m true (seq [OptChr "|"; Chr "]"; Chr "]"]) (fun a b => Some (a, b)) st cs
  ≠ None.
Proof. destruct st as [prev rest]. simpl. intros ->. discriminate. Qed.

Lemma lookahead_head x prev rest cs :
  m true (seq [OptChr "|"; Chr "]"; Chr "]"]) (fun a b => Some (a, b))
    {| m_prev := prev; m_rest := x :: rest |} cs ≠ None →
  x = "|"%char ∨ x = "]"%char.
Proof.
  ascii_cases x;
    first [ left; reflexivity | right; reflexivity
          | intros H; exfalso; apply H; reflexivity ].
Qed.

Lemma lookbehind_head x p :
  x ≠ "["%char → endsWithRev true (x :: p) (js "[[") = false.
Proof.
  intros Hx. unfold endsWithRev. apply bool_decide_eq_false.
  destruct p as [|y p]; simpl; [discriminate|].
  intros [= H _]. apply Hx.
  apply Ascii.eqb_eq. rewrite <- toUpperCase_open.
  apply Ascii.eqb_eq. exact H.
Qed.

(** A match of a detection pattern: it does not start right after [[[], it
    does not end right before []]] or [|]]], and its first group starts
    where the match starts. *)
Lemma detect_match_boundaries r1 mid str i st' cs :
  1 ∉ itemsGroups mid →
  i ≤ length str →
  match_at true (seq (notAfterOpen :: Grp 1 r1 :: mid ++ [notBeforeClose]))
    (offsetState str i) = Some (st', cs) →
  ¬ precededBy (js "[[") i str
  ∧ ¬ followedBy (js "]]") (m_pos st') str
  ∧ ¬ followedBy (js "|]]") (m_pos st') str
  ∧ ∃ e1, capture_lookup 1 cs = Some (i, e1) ∧ i ≤ e1 ∧ e1 ≤ m_pos st'.
Proof.
  intros Hmid Hi H. unfold match_at in H.
  cbn [seq foldr] in H.
  change (foldr Cat Eps (mid ++ [notBeforeClose]))
    with (seq (mid ++ [notBeforeClose])) in H.
  cbn [m notAfterOpen] in H.
  destruct (endsWithRev true _ _) eqn:Hlb; [discriminate|].
  destruct (m_cont_strong _ _ _ _ _ _ H) as (st1 & new1 & H1 & Ha1 & _).
  pose proof H1 as H1'.
  apply seq_lookahead_last in H1.
  destruct H1 as (st2 & cs2 & Ha2 & Hla & Hk & _).
  injection Hk as <- <-.
  apply m_cont_strong in H1'.
  destruct H1' as (st3 & new3 & Hk3 & _ & Hn3).
  injection Hk3 as _ Hcs.
  pose proof (offsetState_atOffset str i Hi) as Hat.
  assert (Hpos : m_pos (offsetState str i) = i) by apply Hat.
  destruct (advance_offset _ _ _ _ _ Hat
              (advance_trans _ _ _ _ _ Ha1 Ha2)) as (e & He & _).
  assert (Hst2 : m_pos st2 = e) by apply He.
  split; [|split; [|split]].
  - intros [pre Hpre]. simpl in Hlb. rewrite Hpre, rev_app_distr in Hlb.
    simpl in Hlb. discriminate Hlb.
  - rewrite Hst2. intros [post Hpost].
    rewrite (atOffset_drop _ _ _ He) in Hpost.
    exact (lookahead_close _ _ _ Hpost Hla).
  - rewrite Hst2. intros [post Hpost].
    rewrite (atOffset_drop _ _ _ He) in Hpost.
    exact (lookahead_alias _ _ _ Hpost Hla).
  - exists (m_pos st1). rewrite <- Hcs, Hpos. split; [|split].
    + apply capture_lookup_fresh.
      eapply Forall_impl; [exact Hn3|]. intros e0 He0 E0. simpl in *.
      rewrite E0, groupsOf_seq, itemsGroups_app in He0.
      apply elem_of_app in He0 as [He0|He0]; [by apply Hmid|].
      by apply not_elem_of_nil in He0.
    + pose proof (advance_pos _ _ _ Ha1). lia.
    + pose proof (advance_pos _ _ _ Ha2). lia.
Qed.

(** ** The scanning loop *)

Lemma newRegExp_detect t re :
  newRegExp_gi (detectPattern t) = Done re →
  detectRegExp re ∧ length t + parenCount t ≤ minlen (re_tree re).
Proof.
  unfold newRegExp_gi.
  destruct (detect_compile_cases t) as [->|(r1 & mid & g & -> & Hw & Hg)];
    [discriminate|].
  intros [= <-]. split; [by exists r1, mid, g|].
  cbn [re_tree minlen]. rewrite minlen_seq, weight_app.
  revert Hw. unfold weight. simpl. lia.
Qed.

Lemma newRegExp_detect_cases t :
  newRegExp_gi (detectPattern t) = Throws SyntaxError
  ∨ ∃ re, newRegExp_gi (detectPattern t) = Done re.
Proof.
  unfold newRegExp_gi.
  destruct (detect_compile_cases t) as [->|(r1 & mid & g & -> & _)];
    [by left | right; by eexists].
Qed.

Lemma slice_length s e str :
  s ≤ e → e ≤ length str → length (slice s e str) = e - s.
Proof. intros H1 H2. unfold slice. rewrite length_take, length_drop. lia. Qed.

(** One successful step of the loop, for a detection expression. *)
Lemma detect_exec_spec re content lastIndex mt lastIndex' :
  detectRegExp re →
  regex_exec re content lastIndex = (Some mt, lastIndex') →
  lastIndex ≤ mr_index mt
  ∧ mr_index mt + minlen (re_tree re) ≤ mr_end mt
  ∧ mr_end mt ≤ length content
  ∧ mr_input mt = content
  ∧ lastIndex' = mr_end mt
  ∧ ¬ precededBy (js "[[") (mr_index mt) content
  ∧ ¬ followedBy (js "]]") (mr_end mt) content
  ∧ ¬ followedBy (js "|]]") (mr_end mt) content
  ∧ ∃ e1, mr_index mt ≤ e1 ∧ e1 ≤ mr_end mt
          ∧ mr_group mt 1 = Some (slice (mr_index mt) e1 content).
Proof.
  intros (r1 & mid & g & -> & Hmid) H.
  apply regex_exec_spec in H; [|reflexivity].
  destruct H as (st' & H1 & H2 & H3 & Hm & Hat & H4 & H5).
  cbn [re_tree re_ignoreCase] in *.
  destruct (detect_match_boundaries _ _ _ _ _ _ Hmid H2 Hm)
    as (B1 & B2 & B3 & e1 & B4 & B5 & B6).
  assert (m_pos st' = mr_end mt) as E by apply Hat. rewrite E in B2, B3, B6.
  repeat (split; [first [assumption | lia | exact (atOffset_le _ _ _ Hat)]|]).
  exists e1. split; [exact B5|]. split; [exact B6|].
  unfold mr_group. rewrite B4, H3. reflexivity.
Qed.

(** An [exec] that returns an empty match leaves [lastIndex] where the
    match is, and the next call returns the same match. *)
Lemma regex_exec_empty_again re str lastIndex mt lastIndex' :
  re_global re = true →
  regex_exec re str lastIndex = (Some mt, lastIndex') →
  mr_end mt = mr_index mt →
  regex_exec re str lastIndex' = (Some mt, lastIndex').
Proof.
  intros Hg H Hempty.
  destruct (regex_exec_spec _ _ _ _ _ Hg H)
    as (st' & H1 & H2 & H3 & Hm & Hat & H4 & ->).
  unfold regex_exec. rewrite Hg, Hempty.
  destruct (length str <? mr_index mt) eqn:Hl;
    [apply Nat.ltb_lt in Hl; lia|].
  unfold offsetState in Hm.
  destruct (drop (mr_index mt) str) as [|x rest] eqn:Hd;
    cbn [search]; rewrite Hm;
    rewrite length_rev, length_take_le by lia;
    destruct mt; simpl in *; subst;
    assert (E : m_pos st' = mr_index0) by apply Hat; rewrite E; reflexivity.
Qed.

Lemma detectRegExp_global re : detectRegExp re → re_global re = true.
Proof. by intros (r1 & mid & g & -> & _). Qed.

(** The loop of one note, for an expression the scan builds. *)
Section DetectionLoop.
Variables (re : RegExp) (note : NoteEntry) (content : jsstring).
Hypothesis Hre : detectRegExp re.

Lemma execLoop_sound : ∀ fuel lastIndex links,
  execLoop fuel re note content lastIndex = Done links →
  Forall (emittedFrom content) links
  ∧ Forall (linkOf note) links
  ∧ Forall (fun l => lastIndex ≤ startOf l) links
  ∧ sortedByStart links.
Proof.
  induction fuel as [|fuel IH]; intros lastIndex links H; [discriminate|].
  cbn [execLoop] in H.
  destruct (regex_exec re content lastIndex) as [[mt|] lastIndex'] eqn:He.
  2:{ injection H as <-. repeat split; constructor. }
  destruct (detect_exec_spec _ _ _ _ _ Hre He)
    as (H1 & H2 & H3 & H4 & -> & B1 & B2 & B3 & e1 & G1 & G2 & Ho).
  rewrite Ho in H.
  destruct (execLoop fuel re note content (mr_end mt)) as [links'| |] eqn:Hl;
    try discriminate.
  cbn [bind] in H. injection H as <-.
  destruct (IH _ _ Hl) as (I1 & I2 & I3 & I4).
  assert (Hwhole : mr_index mt + length (mr_whole mt) = mr_end mt).
  { unfold mr_whole. rewrite H4, slice_length; lia. }
  split; [|split; [|split]].
  - constructor; [|exact I1].
    unfold emittedFrom, startOf, endOf.
    cbn [matchIndex fst snd originalMatch].
    rewrite Hwhole. split; [lia|]. split; [exact H3|].
    split; [exact B1|]. split; [exact B2|]. split; [exact B3|].
    rewrite slice_length by lia.
    replace (mr_index mt + (e1 - mr_index mt)) with e1 by lia.
    split; [reflexivity | exact G2].
  - constructor; [split; reflexivity | exact I2].
  - constructor; [exact H1|].
    eapply Forall_impl; [exact I3|]. intros l Hle. simpl in Hle. lia.
  - constructor; [exact I4|].
    eapply Forall_impl; [exact I3|]. intros l Hle.
    unfold startOf at 1. cbn [matchIndex fst]. simpl in Hle. lia.
Qed.

Lemma execLoop_no_throw : ∀ fuel lastIndex e,
  execLoop fuel re note content lastIndex ≠ Throws e.
Proof.
  induction fuel as [|fuel IH]; intros lastIndex e; [discriminate|].
  cbn [execLoop].
  destruct (regex_exec re content lastIndex) as [[mt|] lastIndex'] eqn:He;
    [|discriminate].
  destruct (detect_exec_spec _ _ _ _ _ Hre He)
    as (_ & _ & _ & _ & _ & _ & _ & _ & e1 & _ & _ & ->).
  specialize (IH lastIndex' e).
  destruct (execLoop fuel re note content lastIndex'); simpl;
    [discriminate | congruence | discriminate].
Qed.

Lemma execLoop_terminates : ∀ fuel lastIndex,
  1 ≤ minlen (re_tree re) →
  length content - lastIndex < fuel →
  execLoop fuel re note content lastIndex ≠ OutOfFuel.
Proof.
  induction fuel as [|fuel IH]; intros lastIndex Hmin Hf; [lia|].
  cbn [execLoop].
  destruct (regex_exec re content lastIndex) as [[mt|] lastIndex'] eqn:He;
    [|discriminate].
  destruct (detect_exec_spec _ _ _ _ _ Hre He)
    as (H1 & H2 & H3 & _ & -> & _ & _ & _ & e1 & _ & _ & ->).
  specialize (IH (mr_end mt) Hmin).
  destruct (execLoop fuel re note content (mr_end mt)); simpl;
    [discriminate | discriminate | apply IH; lia].
Qed.

(** A text shorter than every match has no match. *)
Lemma execLoop_short fuel :
  length content < minlen (re_tree re) →
  execLoop (S fuel) re note content 0 = Done [].
Proof.
  intros Hlen. cbn [execLoop].
  destruct (regex_exec re content 0) as [[mt|] lastIndex'] eqn:He;
    [|reflexivity].
  destruct (detect_exec_spec _ _ _ _ _ Hre He) as (_ & H2 & H3 & _). lia.
Qed.

(** Once [exec] has returned an empty match the loop cannot end. *)
Lemma execLoop_stuck lastIndex mt lastIndex' :
  regex_exec re content lastIndex = (Some mt, lastIndex') →
  mr_end mt = mr_index mt →
  ∀ fuel, execLoop fuel re note content lastIndex = OutOfFuel.
Proof.
  intros H Hempty fuel.
  pose proof (regex_exec_empty_again _ _ _ _ _
                (detectRegExp_global _ Hre) H Hempty) as Hagain.
  destruct (detect_exec_spec _ _ _ _ _ Hre H)
    as (_ & _ & _ & _ & _ & _ & _ & _ & e1 & _ & _ & Ho).
  assert (Hloop : ∀ fuel,
            execLoop fuel re note content lastIndex' = OutOfFuel).
  { clear fuel. induction fuel as [|fuel IH]; [reflexivity|].
    cbn [execLoop]. rewrite Hagain, Ho, IH. reflexivity. }
  destruct fuel as [|fuel]; [reflexivity|].
  cbn [execLoop]. rewrite H, Ho, Hloop. reflexivity.
Qed.
End DetectionLoop.

Lemma detectedLinks_sound content : ∀ fuel cache found,
  detectedLinks fuel cache content = Done found →
  ∃ perNote, found = concat perNote
    ∧ Forall2 (fun note ls =>
                 Forall (linkOf note) ls ∧ sortedByStart ls
                 ∧ Forall (emittedFrom content) ls) cache perNote.
Proof.
  intros fuel cache. induction cache as [|note cache IH]; intros found H.
  - injection H as <-. exists []. split; [reflexivity | constructor].
  - cbn [detectedLinks] in H.
    destruct (newRegExp_gi _) as [re| |] eqn:Hre; try discriminate.
    cbn [bind] in H.
    destruct (execLoop fuel re note content 0) as [links| |] eqn:Hl;
      try discriminate.
    cbn [bind] in H.
    destruct (detectedLinks fuel cache content) as [links'| |] eqn:Hd;
      try discriminate.
    injection H as <-.
    destruct (IH _ eq_refl) as (perNote & -> & HF).
    apply newRegExp_detect in Hre as [Hre _].
    destruct (execLoop_sound _ _ _ Hre _ _ _ Hl) as (E1 & E2 & _ & E4).
    exists (links :: perNote). split; [reflexivity|].
    constructor; [by repeat split | exact HF].
Qed.

(** ** Sorting *)

Lemma sortInsert_perm x l : sortInsert x l ≡ₚ x :: l.
Proof.
  induction l as [|y l IH]; [reflexivity|]. cbn [sortInsert].
  destruct (_ <? _); [|reflexivity].
  rewrite IH. apply Permutation_swap.
Qed.

Lemma sortLinks_perm l : sortLinks l ≡ₚ l.
Proof.
  induction l as [|x l IH]; [reflexivity|].
  cbn [sortLinks foldr]. rewrite sortInsert_perm. by constructor.
Qed.

Lemma sortInsert_sorted x l :
  sortedByStart l → sortedByStart (sortInsert x l).
Proof.
  unfold sortedByStart. induction l as [|y l IH]; intros Hs; cbn [sortInsert].
  - repeat constructor.
  - apply StronglySorted_inv in Hs as [Hs Hy].
    destruct (_ <? _) eqn:Hlt.
    + apply Nat.ltb_lt in Hlt. constructor; [by apply IH|].
      rewrite sortInsert_perm. constructor; [unfold startOf; lia | exact Hy].
    + apply Nat.ltb_ge in Hlt. constructor; [by constructor|].
      constructor; [exact Hlt|].
      eapply Forall_impl; [exact Hy|]. intros z Hz.
      unfold startOf in *. simpl in Hz. lia.
Qed.

Lemma sortLinks_sorted l : sortedByStart (sortLinks l).
Proof.
  induction l as [|x l IH]; [constructor|]. by apply sortInsert_sorted.
Qed.

Lemma sortInsert_stable s x l :
  filter (fun y => startOf y = s) (sortInsert x l)
  = filter (fun y => startOf y = s) (x :: l).
Proof.
  induction l as [|y l IH]; [reflexivity|]. cbn [sortInsert].
  destruct (_ <? _) eqn:Hlt; [|reflexivity].
  apply Nat.ltb_lt in Hlt.
  rewrite filter_cons, IH, !filter_cons.
  repeat case_decide; unfold startOf in *; first [reflexivity | lia].
Qed.

Lemma sortLinks_stable s l :
  filter (fun y => startOf y = s) (sortLinks l)
  = filter (fun y => startOf y = s) l.
Proof.
  induction l as [|x l IH]; [reflexivity|].
  cbn [sortLinks foldr]. rewrite sortInsert_stable, !filter_cons.
  fold (sortLinks l). rewrite IH. reflexivity.
Qed.

(** ** Termination of the scanning loop *)

Lemma detectedLinks_terminates content fuel : ∀ cache,
  (∀ note, note ∈ cache → note_title note ≠ []) →
  length content < fuel →
  detectedLinks fuel cache content ≠ OutOfFuel.
Proof.
  induction cache as [|note cache IH]; intros Ht Hf; [discriminate|].
  cbn [detectedLinks].
  destruct (newRegExp_detect_cases (note_title note)) as [->|[re Hre]];
    [discriminate|].
  rewrite Hre. cbn [bind].
  apply newRegExp_detect in Hre as [Hre Hmin].
  assert (1 ≤ minlen (re_tree re)).
  { specialize (Ht note (list_elem_of_here _ _)).
    destruct (note_title note); [done | simpl in Hmin; lia]. }
  pose proof (execLoop_terminates re note content Hre fuel 0 H) as Hl.
  destruct (execLoop fuel re note content 0); cbn [bind];
    [|discriminate | apply Hl; lia].
  specialize (IH (fun n Hn => Ht n (list_elem_of_further _ _ _ Hn)) Hf).
  destruct (detectedLinks fuel cache content); cbn [bind];
    [discriminate | discriminate | exact IH].
Qed.

(** A scan ends in one of three ways: with its links, with the syntax
    error of a rejected pattern, or not at all. *)
Lemma detectedLinks_cases content fuel : ∀ cache,
  (∃ links, detectedLinks fuel cache content = Done links)
  ∨ detectedLinks fuel cache content = Throws SyntaxError
  ∨ detectedLinks fuel cache content = OutOfFuel.
Proof.
  induction cache as [|note cache IH]; [left; by eexists|].
  cbn [detectedLinks].
  destruct (newRegExp_detect_cases (note_title note)) as [->|[re Hre]];
    [right; by left|].
  rewrite Hre. cbn [bind]. apply newRegExp_detect in Hre as [Hre _].
  pose proof (execLoop_no_throw re note content Hre fuel 0) as Hnt.
  destruct (execLoop fuel re note content 0) as [links|e|]; cbn [bind].
  - destruct IH as [[links' ->]|[->| ->]]; cbn [bind];
      [left; by eexists | right; by left | right; by right].
  - exfalso. by apply (Hnt e).
  - right. by right.
Qed.

Lemma emptyTitle_compile :
  newRegExp_gi (detectPattern []) = Done emptyTitleRegExp.
Proof. reflexivity. Qed.

Lemma emptyTitle_match_at st :
  match_at true (re_tree emptyTitleRegExp) st =
  if endsWithRev true (m_prev st) (js "[[") then None
  else match m true (seq [OptChr "|"; Chr "]"; Chr "]"])
               (fun a b => Some (a, b)) st [(1, (m_pos st, m_pos st))] with
       | Some _ => None
       | None => Some (st, [(1, (m_pos st, m_pos st))])
       end.
Proof. reflexivity. Qed.

(** Whatever the text, the pattern of the empty title matches somewhere:
    at the first offset that is not followed by a closing token. *)
Lemma emptyTitle_search : ∀ rest prev,
  head prev ≠ Some "["%char →
  ∃ i st' cs,
    search true (re_tree emptyTitleRegExp) prev rest = Some (i, st', cs)
    ∧ m_pos st' = i.
Proof.
  induction rest as [|x rest IH]; intros prev Hp.
  - cbn [search]. rewrite emptyTitle_match_at. cbn [m_prev].
    assert (endsWithRev true prev (js "[[") = false) as ->.
    { destruct prev as [|y p]; [reflexivity|].
      apply lookbehind_head. intros ->. by apply Hp. }
    eexists _, _, _. split; reflexivity.
  - cbn [search]. rewrite emptyTitle_match_at. cbn [m_prev].
    assert (endsWithRev true prev (js "[[") = false) as ->.
    { destruct prev as [|y p]; [reflexivity|].
      apply lookbehind_head. intros ->. by apply Hp. }
    destruct (m true _ _ _ _) eqn:Hla.
    + destruct (IH (x :: prev)) as (i & st' & cs & Hs & Hi).
      { assert (x = "|"%char ∨ x = "]"%char) as [-> | ->];
          [|discriminate..].
        eapply lookahead_head. rewrite Hla. discriminate. }
      exists i, st', cs. split; [exact Hs | exact Hi].
    + eexists _, _, _. split; reflexivity.
Qed.

Lemma emptyTitle_diverges note content fuel :
  execLoop fuel emptyTitleRegExp note content 0 = OutOfFuel.
Proof.
  destruct (emptyTitle_search content [] ltac:(discriminate))
    as (i & st' & cs & Hs & Hi).
  assert (Hre : detectRegExp emptyTitleRegExp).
  { exists Eps, [], 1. split; [reflexivity | apply not_elem_of_nil]. }
  apply (execLoop_stuck _ note content Hre 0
           {| mr_index := i; mr_end := m_pos st'; mr_captures := cs;
              mr_input := content |} (m_pos st')).
  - unfold regex_exec.
    change (re_global emptyTitleRegExp) with true.
    change (re_ignoreCase emptyTitleRegExp) with true.
    cbv iota. change (length content <? 0) with false.
    cbv iota. rewrite take_0, drop_0. cbn [rev]. rewrite Hs. reflexivity.
  - exact Hi.
Qed.

(** More fuel does not change an outcome that was reached. *)
Lemma execLoop_fuel re note content n : ∀ fuel lastIndex,
  execLoop fuel re note content lastIndex ≠ OutOfFuel →
  execLoop (fuel + n) re note content lastIndex
  = execLoop fuel re note content lastIndex.
Proof.
  induction fuel as [|fuel IH]; intros lastIndex H; [done|].
  cbn [execLoop Nat.add] in *.
  destruct (regex_exec re content lastIndex) as [[mt|] lastIndex'];
    [|reflexivity].
  destruct (mr_group mt 1); [|reflexivity].
  rewrite IH; [reflexivity|].
  intros E. rewrite E in H. by apply H.
Qed.

Lemma detectedLinks_fuel content n fuel : ∀ cache,
  detectedLinks fuel cache content ≠ OutOfFuel →
  detectedLinks (fuel + n) cache content = detectedLinks fuel cache content.
Proof.
  induction cache as [|note cache IH]; intros H; [reflexivity|].
  cbn [detectedLinks] in *.
  destruct (newRegExp_gi _) as [re| |]; [|reflexivity..]. cbn [bind] in *.
  rewrite execLoop_fuel.
  2:{ intros E. rewrite E in H. by apply H. }
  destruct (execLoop fuel re note content 0); [|reflexivity..].
  cbn [bind] in *. rewrite IH; [reflexivity|].
  intros E. rewrite E in H. by apply H.
Qed.

Lemma detectPotentialLinks_fuel content n fuel cache links :
  detectPotentialLinks fuel cache content = Done links →
  detectPotentialLinks (fuel + n) cache content = Done links.
Proof.
  unfold detectPotentialLinks. intros H.
  rewrite detectedLinks_fuel; [exact H|].
  intros E. rewrite E in H. discriminate H.
Qed.

Lemma detectPotentialLinks_sound fuel cache content links l :
  detectPotentialLinks fuel cache content = Done links →
  l ∈ links →
  emittedFrom content l ∧ ∃ note, note ∈ cache ∧ linkOf note l.
Proof.
  unfold detectPotentialLinks. intros H Hl.
  destruct (detectedLinks fuel cache content) as [found| |] eqn:Hd;
    try discriminate.
  injection H as <-. rewrite sortLinks_perm in Hl.
  destruct (detectedLinks_sound _ _ _ _ Hd) as (perNote & -> & HF).
  clear Hd. revert perNote HF Hl.
  induction cache as [|note cache IH]; intros perNote HF Hl.
  - inversion HF; subst. by apply not_elem_of_nil in Hl.
  - inversion HF as [|? ls ? perNote' (F1 & F2 & F3) HF']; subst.
    cbn [concat] in Hl. apply elem_of_app in Hl as [Hl|Hl].
    + split; [exact (proj1 (Forall_forall _ _) F3 _ Hl)|].
      exists note. split; [apply list_elem_of_here|].
      exact (proj1 (Forall_forall _ _) F1 _ Hl).
    + destruct (IH _ HF' Hl) as (E & n' & Hn & Hln).
      split; [exact E|]. exists n'. split; [by apply list_elem_of_further|done].
Qed.

(** * The claims *)

(** ** C1: titles with parentheses *)

(** C1.  The claim: a title with parentheses, such as "Budget (2024)", is
    found in the text both with plain and with backslash-escaped
    parentheses.  The scanner does not do this.  The replacement text that
    is meant to put an optional backslash before each parenthesis lands
    after the backslash [escapeRegExp] wrote, so the pattern reads: a
    literal backslash, a literal question mark, and a parenthesis that
    opens or closes a group.  Neither spelling of the title is found; what
    the pattern finds is the title with each parenthesis replaced by a
    backslash and a question mark.  For every title with a parenthesis a
    match is longer than the title, so the title as it is written is never
    found in a text that holds nothing else. *)
Theorem scan_misses_parenthesised_title :
  detectPattern (js "Budget (2024)")
  = js "(?<!\[\[)(Budget \\\?(2024\\\?))(?!\|?\]\])"
  ∧ (∀ n, detectPotentialLinks (1 + n) [noteNamed "Budget (2024)"]
            (js "Budget (2024)") = Done [])
  ∧ (∀ n, detectPotentialLinks (1 + n) [noteNamed "Budget (2024)"]
            (js "Budget \(2024\)") = Done [])
  ∧ (∀ n, detectPotentialLinks (2 + n) [noteNamed "Budget (2024)"]
            (js "Budget \?2024\?")
          = Done [linkAt "Budget (2024)" "Budget \?2024\?"
                    "Budget \?2024\?" 0 15])
  ∧ (∀ note content fuel,
       0 < parenCount (note_title note) →
       length content ≤ length (note_title note) →
       detectPotentialLinks (S fuel) [note] content = Done []
       ∨ detectPotentialLinks (S fuel) [note] content = Throws SyntaxError).
Proof.
  split; [reflexivity|].
  split; [|split; [|split]];
    try (intros n; apply detectPotentialLinks_fuel; vm_compute; reflexivity).
  intros note content fuel Hp Hlen.
  unfold detectPotentialLinks. cbn [detectedLinks].
  destruct (newRegExp_detect_cases (note_title note)) as [->|[re Hre]];
    [by right|].
  left. rewrite Hre. cbn [bind].
  apply newRegExp_detect in Hre as [Hre Hmin].
  rewrite execLoop_short; [reflexivity | exact Hre | lia].
Qed.

Lemma scan_misses_parenthesised_title_witness :
  detectPotentialLinks 1 [noteNamed "Budget (2024)"] (js "Budget (2024)")
  = Done []
  ∨ detectPotentialLinks 1 [noteNamed "Budget (2024)"] (js "Budget (2024)")
    = Throws SyntaxError.
Proof.
  apply (proj2 (proj2 (proj2 (proj2 scan_misses_parenthesised_title)))
           (noteNamed "Budget (2024)") (js "Budget (2024)") 0).
  - vm_compute. lia.
  - vm_compute. lia.
Defined.

(** ** C2: existing bracketed references *)

(** C2, counterexample.  In "[[My Existing Title page]]" the title
    "Existing Title" touches neither bracket token, and the scan emits it:
    offsets 5 to 19, inside the reference that spans offsets 0 to 26. *)
Lemma scan_matches_inside_reference :
  detectPotentialLinks 27 [noteNamed "Existing Title"]
    (js "[[My Existing Title page]]") = Done [nestedReferenceLink]
  ∧ js "[[My Existing Title page]]"
    = js "[[" ++ js "My Existing Title page" ++ js "]]"
  ∧ 2 ≤ startOf nestedReferenceLink
  ∧ endOf nestedReferenceLink ≤ 2 + length (js "My Existing Title page").
Proof. split; [vm_compute; reflexivity|]. split; [reflexivity|]. vm_compute. lia. Qed.

(** C2, as amended.  No emitted occurrence starts right after an opening
    double bracket, and none ends right before a closing double bracket or
    before an alias separator followed by one.  So where the text holds
    [[[t]]] no occurrence is emitted for the span of [t]; scanning
    "[[Existing Title]]" for "Existing Title" yields nothing.  A title
    strictly inside a longer reference is not covered. *)
Theorem scan_skips_bracket_adjacent :
  (∀ fuel cache content links l,
     detectPotentialLinks fuel cache content = Done links → l ∈ links →
     ¬ precededBy (js "[[") (startOf l) content
     ∧ ¬ followedBy (js "]]") (endOf l) content
     ∧ ¬ followedBy (js "|]]") (endOf l) content)
  ∧ (∀ fuel cache pre t post links l,
       detectPotentialLinks fuel cache (pre ++ js "[[" ++ t ++ js "]]" ++ post)
       = Done links →
       l ∈ links →
       startOf l ≠ length pre + 2 ∧ endOf l ≠ length pre + 2 + length t)
  ∧ (∀ n, detectPotentialLinks (1 + n) [noteNamed "Existing Title"]
            (js "[[Existing Title]]") = Done []).
Proof.
  assert (H1 : ∀ fuel cache content links l,
     detectPotentialLinks fuel cache content = Done links → l ∈ links →
     ¬ precededBy (js "[[") (startOf l) content
     ∧ ¬ followedBy (js "]]") (endOf l) content
     ∧ ¬ followedBy (js "|]]") (endOf l) content).
  { intros fuel cache content links l H Hl.
    destruct (detectPotentialLinks_sound _ _ _ _ _ H Hl)
      as ((_ & _ & B1 & B2 & B3 & _) & _).
    by repeat split. }
  split; [exact H1|]. split.
  - intros fuel cache pre t post links l H Hl.
    destruct (H1 _ _ _ _ _ H Hl) as (B1 & B2 & _). split.
    + intros E. apply B1. exists pre. rewrite E.
      rewrite (app_assoc pre (js "[[")).
      apply take_app_length'. rewrite length_app. reflexivity.
    + intros E. apply B2. exists post. rewrite E.
      rewrite (app_assoc pre), (app_assoc (pre ++ js "[[")).
      apply drop_app_length'. rewrite !length_app. simpl. lia.
  - intros n. apply detectPotentialLinks_fuel. vm_compute. reflexivity.
Qed.

Lemma scan_skips_bracket_adjacent_witness :
  ¬ precededBy (js "[[") 5 (js "[[My Existing Title page]]")
  ∧ ¬ followedBy (js "]]") 19 (js "[[My Existing Title page]]")
  ∧ ¬ followedBy (js "|]]") 19 (js "[[My Existing Title page]]").
Proof.
  apply (proj1 scan_skips_bracket_adjacent 27 [noteNamed "Existing Title"]
           (js "[[My Existing Title page]]") [nestedReferenceLink]
           nestedReferenceLink).
  - vm_compute. reflexivity.
  - apply list_elem_of_here.
Defined.

(** ** C7: order of the result *)

(** C7.  For every text, cache of titles and settings, the links a scan
    returns are sorted by ascending span start, and links with equal span
    start keep the order in which they were found: the order of the titles
    in the cache, and left to right for one title.  [found] is the list in
    the order of discovery, [perNote] its parts for each title. *)
Theorem scan_sorted_stable fuel p content links :
  scan fuel p content = Done links →
  sortedByStart links
  ∧ ∃ found perNote,
      detectedLinks fuel (noteTitlesCache p) (scanInput p content) = Done found
      ∧ found = concat perNote
      ∧ Forall2 (fun note ls => Forall (linkOf note) ls ∧ sortedByStart ls)
          (noteTitlesCache p) perNote
      ∧ links ≡ₚ found
      ∧ ∀ s, filter (fun l => startOf l = s) links
             = filter (fun l => startOf l = s) found.
Proof.
  unfold scan, detectPotentialLinks. intros H.
  destruct (detectedLinks fuel _ _) as [found| |] eqn:Hd; try discriminate.
  injection H as <-. split; [apply sortLinks_sorted|].
  destruct (detectedLinks_sound _ _ _ _ Hd) as (perNote & -> & HF).
  exists (concat perNote), perNote. split; [reflexivity|].
  split; [reflexivity|]. split.
  - eapply Forall2_impl; [exact HF|]. intros note ls (F1 & F2 & _). by split.
  - split; [apply sortLinks_perm|]. intros s. apply sortLinks_stable.
Qed.

Lemma scan_sorted_stable_witness :
  sortedByStart [linkAt "ab" "ab" "ab a" 0 2; linkAt "a" "a" "ab a" 0 1;
                 linkAt "a" "a" "ab a" 3 4].
Proof.
  refine (proj1 (scan_sorted_stable 5
                   (pluginWith defaultSettings [noteNamed "ab"; noteNamed "a"])
                   (js "ab a") _ _)).
  vm_compute. reflexivity.
Defined.

(** ** C10: termination *)

Lemma emptyTitle_exec content :
  ∃ mt i, regex_exec emptyTitleRegExp content 0 = (Some mt, i)
          ∧ mr_end mt = mr_index mt ∧ mr_index mt = i.
Proof.
  destruct (emptyTitle_search content [] ltac:(discriminate))
    as (i & st' & cs & Hs & Hi).
  exists {| mr_index := i; mr_end := m_pos st'; mr_captures := cs;
            mr_input := content |}, i.
  split; [|split; [exact Hi | reflexivity]].
  unfold regex_exec.
  change (re_global emptyTitleRegExp) with true.
  change (re_ignoreCase emptyTitleRegExp) with true.
  cbv iota. change (length content <? 0) with false.
  cbv iota. rewrite take_0, drop_0. cbn [rev]. rewrite Hs, Hi. reflexivity.
Qed.

Lemma detectedLinks_diverges content fuel note after : ∀ before,
  note_title note = [] →
  (∀ n, n ∈ before →
        compile (detectPattern (note_title n)) ≠ PatternSyntaxError) →
  detectedLinks fuel (before ++ note :: after) content = OutOfFuel.
Proof.
  intros before Ht. induction before as [|n before IH]; intros Hb.
  - cbn [app detectedLinks]. rewrite Ht, emptyTitle_compile. cbn [bind].
    rewrite emptyTitle_diverges. reflexivity.
  - cbn [app detectedLinks].
    destruct (newRegExp_detect_cases (note_title n)) as [E|[re Hre]].
    + exfalso. apply (Hb n (list_elem_of_here _ _)).
      unfold newRegExp_gi in E.
      destruct (compile _); [discriminate | reflexivity | discriminate].
    + rewrite Hre. cbn [bind].
      apply newRegExp_detect in Hre as [Hre _].
      pose proof (execLoop_no_throw re n content Hre fuel 0) as Hnt.
      destruct (execLoop fuel re n content 0) as [links|e|]; cbn [bind].
      * rewrite IH; [reflexivity|].
        intros n' Hn'. apply Hb. by apply list_elem_of_further.
      * exfalso. by apply (Hnt e).
      * reflexivity.
Qed.

(** C10, counterexample.  With the titles ")" and "", in this order, the
    scan stops before it reaches the empty title: the pattern of ")" is
    rejected with a syntax error. *)
Lemma scan_stops_on_rejected_title :
  detectPotentialLinks 1 [noteNamed ")"; noteNamed ""] (js "abc")
  = Throws SyntaxError
  ∧ ¬ (∀ fuel, detectPotentialLinks fuel [noteNamed ")"; noteNamed ""]
                 (js "abc") = OutOfFuel).
Proof.
  split; [vm_compute; reflexivity|].
  intros H. specialize (H 1). vm_compute in H. discriminate H.
Qed.

(** C10, as amended.  When every indexed title is non-empty the scan
    terminates for every text, with its result or with the syntax error of
    a rejected pattern: any fuel above the length of the text is enough.
    When an entry has the empty title and no entry before it has a pattern
    that is rejected, the scan never terminates: the loop for the empty
    title gets a match of length zero and [exec] returns that same match
    again and again, [lastIndex] staying where it is. *)
Theorem scan_termination cache content :
  ((∀ note, note ∈ cache → note_title note ≠ []) →
   ∀ fuel, length content < fuel →
           (∃ links, detectPotentialLinks fuel cache content = Done links)
           ∨ detectPotentialLinks fuel cache content = Throws SyntaxError)
  ∧ (∀ before note after,
       cache = before ++ note :: after →
       note_title note = [] →
       (∀ n, n ∈ before →
             compile (detectPattern (note_title n)) ≠ PatternSyntaxError) →
       ∀ fuel, detectPotentialLinks fuel cache content = OutOfFuel)
  ∧ (newRegExp_gi (detectPattern []) = Done emptyTitleRegExp
     ∧ ∃ mt i, regex_exec emptyTitleRegExp content 0 = (Some mt, i)
               ∧ mr_end mt = mr_index mt
               ∧ regex_exec emptyTitleRegExp content i = (Some mt, i)).
Proof.
  split; [|split].
  - intros Ht fuel Hf. unfold detectPotentialLinks.
    pose proof (detectedLinks_terminates content fuel cache Ht Hf) as H.
    destruct (detectedLinks_cases content fuel cache)
      as [[links ->]|[->|E]]; cbn [bind];
      [left; by eexists | by right | by destruct H].
  - intros before note after -> Ht Hb fuel. unfold detectPotentialLinks.
    rewrite detectedLinks_diverges by assumption. reflexivity.
  - split; [reflexivity|].
    destruct (emptyTitle_exec content) as (mt & i & He & Hz & Hi).
    exists mt, i. split; [exact He|]. split; [exact Hz|].
    by apply (regex_exec_empty_again emptyTitleRegExp content 0).
Qed.

Lemma scan_termination_witness :
  ((∃ links, detectPotentialLinks 6 [noteNamed "Alpha"] (js "Alpha")
             = Done links)
   ∨ detectPotentialLinks 6 [noteNamed "Alpha"] (js "Alpha")
     = Throws SyntaxError)
  ∧ detectPotentialLinks 6 [noteNamed "Alpha"; noteNamed ""] (js "Alpha")
    = OutOfFuel.
Proof.
  split.
  - apply (proj1 (scan_termination [noteNamed "Alpha"] (js "Alpha"))).
    + intros note Hn. apply list_elem_of_singleton in Hn as ->. discriminate.
    + simpl. lia.
  - apply (proj1 (proj2 (scan_termination [noteNamed "Alpha"; noteNamed ""]
                           (js "Alpha")))
             [noteNamed "Alpha"] (noteNamed "") []).
    + reflexivity.
    + reflexivity.
    + intros n Hn. apply list_elem_of_singleton in Hn as ->.
      vm_compute. discriminate.
Defined.

(** ** C8: scanning again after a rewrite *)

(** C8, counterexample.  With the titles "Project Alpha" and "ject Al", the
    text "Project Alpha" and the occurrence of "Project Alpha" selected,
    the rewrite gives "[[Project Alpha]]", and scanning that text again
    emits "ject Al" at offsets 5 to 12, inside the replaced span. *)
Lemma rescan_finds_inner_title :
  detectPotentialLinks 14 [noteNamed "Project Alpha"; noteNamed "ject Al"]
    (js "Project Alpha")
  = Done [projectAlphaLink;
          linkAt "ject Al" "ject Al" "Project Alpha" 3 10]
  ∧ applyLinks defaultSettings [projectAlphaLink] (js "Project Alpha")
    = Done (js "[[Project Alpha]]")
  ∧ detectPotentialLinks 18 [noteNamed "Project Alpha"; noteNamed "ject Al"]
      (js "[[Project Alpha]]")
    = Done [innerTitleLink]
  ∧ 2 ≤ startOf innerTitleLink
  ∧ endOf innerTitleLink ≤ 2 + length (js "Project Alpha").
Proof.
  repeat split; try (vm_compute; reflexivity); vm_compute; lia.
Qed.

Lemma replace_matches_total re str :
  re_global re = true →
  ∀ fuel lastIndex,
    length str + 1 - lastIndex < fuel →
    replace_matches fuel re str lastIndex ≠ None.
Proof.
  intros Hg. induction fuel as [|fuel IH]; intros lastIndex Hf; [lia|].
  cbn [replace_matches].
  destruct (regex_exec re str lastIndex) as [[mt|] lastIndex'] eqn:He;
    [|discriminate].
  destruct (regex_exec_spec _ _ _ _ _ Hg He)
    as (st' & H1 & H2 & _ & _ & Hat & H4 & ->).
  pose proof (atOffset_le _ _ _ Hat) as Hle.
  specialize (IH (if mr_end mt =? mr_index mt then S (mr_end mt)
                  else mr_end mt)).
  destruct (replace_matches fuel re str _); [discriminate|].
  exfalso. apply IH; [|reflexivity].
  destruct (mr_end mt =? mr_index mt) eqn:E;
    [apply Nat.eqb_eq in E | apply Nat.eqb_neq in E]; lia.
Qed.

(** The loop of a global replace always ends within the calls
    [string_replace] allows for. *)
Lemma string_replace_global str re replacement :
  re_global re = true →
  ∃ results,
    replace_matches (length str + 2) re str 0 = Some results
    ∧ string_replace str re replacement
      = replace_build (re_groups re) str replacement results 0.
Proof.
  intros Hg. unfold string_replace. rewrite Hg.
  pose proof (replace_matches_total re str Hg (length str + 2) 0) as H.
  destruct (replace_matches _ _ _ _) as [results|].
  - by exists results.
  - exfalso. apply H; [lia | reflexivity].
Qed.

(** The patterns of the rewrite are inside the modelled fragment. *)
Lemma newRegExp_replace_cases originalText :
  newRegExp_gi (replacePattern originalText) = Throws SyntaxError
  ∨ ∃ re, newRegExp_gi (replacePattern originalText) = Done re.
Proof.
  unfold newRegExp_gi.
  destruct (replace_compile_cases originalText) as [->|(r & g & ->)];
    [by left | right; by eexists].
Qed.

Lemma getSubstitution_plain groups mt replacement :
  "$"%char ∉ replacement →
  getSubstitution groups mt replacement = replacement.
Proof.
  induction replacement as [|c t IH]; intros Hn; [reflexivity|].
  cbn [getSubstitution].
  destruct (Ascii.eqb c "$") eqn:E.
  - apply Ascii.eqb_eq in E as ->. exfalso. apply Hn, list_elem_of_here.
  - cbn [negb]. rewrite IH; [reflexivity|].
    intros Hin. by apply Hn, list_elem_of_further.
Qed.

(** Each offset of [replace_offsets] is where an expanded replacement
    sits in the text [replace_build] returns. *)
Lemma replace_build_token groups str replacement token :
  (∀ mt, getSubstitution groups mt replacement = token) →
  ∀ results next prefix a,
    a ∈ replace_offsets groups str replacement results next (length prefix) →
    ∃ pre post,
      prefix ++ replace_build groups str replacement results next
      = pre ++ token ++ post
      ∧ length pre = a.
Proof.
  intros Htok. induction results as [|mt results IH];
    intros next prefix a Ha; cbn [replace_offsets replace_build] in *.
  - by apply not_elem_of_nil in Ha.
  - destruct (next <=? mr_index mt); [|by apply IH].
    rewrite Htok in *. apply elem_of_cons in Ha as [->|Ha].
    + exists (prefix ++ slice next (mr_index mt) str), 
        (replace_build groups str replacement results (mr_end mt)).
      split; [by rewrite <- app_assoc | by rewrite length_app].
    + specialize (IH (mr_end mt)
                    (prefix ++ slice next (mr_index mt) str ++ token) a).
      destruct IH as (pre & post & E & Hl).
      { rewrite !length_app. rewrite Nat.add_assoc. exact Ha. }
      exists pre, post. split; [|exact Hl].
      rewrite <- E, <- !app_assoc. reflexivity.
Qed.

Lemma string_replace_token str re replacement a :
  "$"%char ∉ replacement →
  a ∈ replacedOffsets str re replacement →
  ∃ pre post,
    string_replace str re replacement = pre ++ replacement ++ post
    ∧ length pre = a.
Proof.
  intros Hn Ha. unfold replacedOffsets, string_replace in *.
  assert (Htok : ∀ mt, getSubstitution (re_groups re) mt replacement
                       = replacement)
    by (intros mt; by apply getSubstitution_plain).
  destruct (re_global re).
  - destruct (replace_matches _ _ _ _) as [results|];
      [|by apply not_elem_of_nil in Ha].
    exact (replace_build_token _ _ _ _ Htok results 0 [] a Ha).
  - destruct (regex_exec re str 0) as [[mt|] ?];
      [|by apply not_elem_of_nil in Ha].
    exact (replace_build_token _ _ _ _ Htok [mt] 0 [] a Ha).
Qed.

(** C8, as amended.  Let one selected occurrence be rewritten with the
    canonical token [[[title]]] (the title holding no dollar sign, which
    [replace] would expand).  At every offset where the rewrite put the
    token, scanning the rewritten text again, with any titles, emits no
    occurrence that starts right after the opening brackets of the token
    and none that ends right before its closing brackets: the replaced
    title is not offered again for the text inside its own token.
    Rewriting "See Project Alpha notes" and scanning the result for
    "Project Alpha" yields nothing.  Other titles that lie strictly inside
    a token are not covered. *)
Theorem rescan_skips_replaced_title :
  (∀ s link content regex a fuel cache found l,
     replacementOf s link = js "[[" ++ title link ++ js "]]" →
     "$"%char ∉ title link →
     newRegExp_gi (replacePattern (originalMatch link)) = Done regex →
     a ∈ replacedOffsets content regex (replacementOf s link) →
     detectPotentialLinks fuel cache
       (string_replace content regex (replacementOf s link)) = Done found →
     l ∈ found →
     startOf l ≠ a + 2 ∧ endOf l ≠ a + 2 + length (title link))
  ∧ applyLinks defaultSettings
      [linkAt "Project Alpha" "Project Alpha" "See Project Alpha notes" 4 17]
      (js "See Project Alpha notes")
    = Done (js "See [[Project Alpha]] notes")
  ∧ (∀ n, detectPotentialLinks (1 + n) [noteNamed "Project Alpha"]
            (js "See [[Project Alpha]] notes") = Done []).
Proof.
  split; [|split].
  - intros s link content regex a fuel cache found l Hcanon Hd _ Ha H Hl.
    destruct (string_replace_token content regex (replacementOf s link) a)
      as (pre & post & Hout & Hlen); [|exact Ha|].
    { rewrite Hcanon. intros Hin.
      apply elem_of_app in Hin as [Hin|Hin]; [by inversion Hin; subst;
        match goal with h : _ ∈ [_] |- _ =>
          apply list_elem_of_singleton in h; discriminate h end|].
      apply elem_of_app in Hin as [Hin|Hin]; [by apply Hd|].
      inversion Hin; subst.
      match goal with h : _ ∈ [_] |- _ =>
        apply list_elem_of_singleton in h; discriminate h end. }
    rewrite Hout, Hcanon, <- Hlen in *.
    destruct (detectPotentialLinks_sound _ _ _ _ _ H Hl)
      as ((_ & _ & B1 & B2 & _) & _).
    assert (E1 : pre ++ (js "[[" ++ title link ++ js "]]") ++ post
                 = (pre ++ js "[[") ++ title link ++ js "]]" ++ post)
      by (rewrite <- !app_assoc; reflexivity).
    assert (E2 : pre ++ (js "[[" ++ title link ++ js "]]") ++ post
                 = ((pre ++ js "[[") ++ title link) ++ js "]]" ++ post)
      by (rewrite <- !app_assoc; reflexivity).
    split.
    + intros E. apply B1. exists pre. rewrite E, E1.
      apply take_app_length'. rewrite length_app. reflexivity.
    + intros E. apply B2. exists post. rewrite E, E2.
      apply drop_app_length'. rewrite !length_app. simpl. lia.
  - vm_compute. reflexivity.
  - intros n. apply detectPotentialLinks_fuel. vm_compute. reflexivity.
Qed.

Lemma rescan_skips_replaced_title_witness :
  startOf innerTitleLink ≠ 0 + 2
  ∧ endOf innerTitleLink ≠ 0 + 2 + length (title projectAlphaLink).
Proof.
  eapply (proj1 rescan_skips_replaced_title defaultSettings projectAlphaLink
            (js "Project Alpha") _ 0 18
            [noteNamed "Project Alpha"; noteNamed "ject Al"]
            [innerTitleLink]).
  - reflexivity.
  - apply (bool_decide_unpack ("$"%char ∉ title projectAlphaLink)).
    vm_compute. exact I.
  - vm_compute. reflexivity.
  - vm_compute. apply list_elem_of_here.
  - vm_compute. reflexivity.
  - apply list_elem_of_here.
Defined.

(** ** C6: the replacement token *)

(** C6.  The replacement for a selected occurrence follows the three-case
    rule: without [enableWikiLinks] it is [[[title]]]; with it, and when
    the matched text differs from the title and [respectCase] is set, it
    is [[[title|matched text]]]; with it, and when the matched text equals
    the title or [respectCase] is not set, it is [[[title]]].  This token
    is the replacement text the rewrite hands to [replace]. *)
Theorem replacement_rule (s : Settings) (link : Link) :
  (enableWikiLinks s = false →
   replacementOf s link = js "[[" ++ title link ++ js "]]")
  ∧ (enableWikiLinks s = true → originalMatch link ≠ title link →
     respectCase s = true →
     replacementOf s link
     = js "[[" ++ title link ++ js "|" ++ originalMatch link ++ js "]]")
  ∧ (enableWikiLinks s = true →
     originalMatch link = title link ∨ respectCase s = false →
     replacementOf s link = js "[[" ++ title link ++ js "]]")
  ∧ (∀ links content,
       applyLinks s (link :: links) content
       = bind (newRegExp_gi (replacePattern (originalMatch link)))
           (fun regex =>
              applyLinks s links
                (string_replace content regex (replacementOf s link)))).
Proof.
  unfold replacementOf. repeat split.
  - intros ->. reflexivity.
  - intros -> Hne ->. rewrite bool_decide_eq_true_2 by exact Hne. reflexivity.
  - intros -> [He | ->].
    + rewrite bool_decide_eq_false_2; [reflexivity|]. intros Hne. by apply Hne.
    + rewrite andb_false_r. reflexivity.
Qed.

Lemma replacement_rule_witness :
  replacementOf defaultSettings lowerCaseLink = js "[[Project Alpha]]"
  ∧ replacementOf aliasSettings lowerCaseLink
    = js "[[Project Alpha|project alpha]]"
  ∧ replacementOf aliasSettings projectAlphaLink = js "[[Project Alpha]]".
Proof.
  split; [|split].
  - apply (proj1 (replacement_rule defaultSettings lowerCaseLink)).
    reflexivity.
  - apply (proj1 (proj2 (replacement_rule aliasSettings lowerCaseLink)));
      [reflexivity | discriminate | reflexivity].
  - apply (proj1 (proj2 (proj2 (replacement_rule aliasSettings
                                  projectAlphaLink))));
      [reflexivity | left; reflexivity].
Defined.

(** ** C5: one entry for each path *)

Lemma NoDup_fmap_filter {A B} (f : A → B) (P : A → Prop)
    `{∀ x, Decision (P x)} (l : list A) :
  NoDup (f <$> l) → NoDup (f <$> filter P l).
Proof.
  induction l as [|x l IH]; [done|]. cbn [fmap list_fmap].
  intros Hn. apply NoDup_cons in Hn as [Hx Hl].
  rewrite filter_cons. case_decide; [|by apply IH].
  cbn [fmap list_fmap]. apply NoDup_cons. split; [|by apply IH].
  intros Hin. apply Hx.
  apply list_elem_of_fmap in Hin as (y & -> & Hy).
  apply list_elem_of_fmap. exists y. split; [done|].
  by apply list_elem_of_filter in Hy as [_ Hy].
Qed.

Lemma indexedPaths_entries (files : list AbstractFile) :
  note_path <$> (entryOf <$> files) = path <$> files.
Proof. rewrite <- list_fmap_compose. reflexivity. Qed.

(** A batch moves paths from the waiting ones to the indexed ones. *)
Lemma processBatch_paths notes startIndex p :
  indexedPaths (processBatch notes startIndex p).1
  ++ match (processBatch notes startIndex p).2 with
     | Some next => path <$> drop next notes
     | None => []
     end
  = indexedPaths p ++ (path <$> drop startIndex notes).
Proof.
  unfold processBatch, indexedPaths.
  destruct (startIndex + batchSize <? length notes) eqn:E;
    cbn [fst snd noteTitlesCache]; rewrite fmap_app, indexedPaths_entries.
  - apply Nat.ltb_lt in E.
    replace (min (startIndex + batchSize) (length notes) - startIndex)
      with batchSize by lia.
    rewrite <- app_assoc. f_equal.
    rewrite <- fmap_app. f_equal.
    rewrite <- drop_drop. apply take_drop.
  - apply Nat.ltb_ge in E. rewrite app_nil_r. do 2 f_equal.
    apply take_ge. rewrite length_drop. lia.
Qed.

Lemma pendingPaths_schedule notes pending p timers :
  pendingPaths {| idx_plugin := p; idx_timers := schedule notes pending timers |}
  = pendingPaths {| idx_plugin := p; idx_timers := timers |}
    ++ match pending with
       | Some next => path <$> drop next notes
       | None => []
       end.
Proof.
  unfold pendingPaths, schedule. cbn [idx_timers].
  destruct pending as [next|]; [|by rewrite app_nil_r].
  rewrite fmap_app, concat_app. cbn. by rewrite app_nil_r.
Qed.

Lemma apply_event_unique st e :
  pathsApart st → event_ok st e → pathsApart (apply_event st e).
Proof.
  unfold pathsApart. intros Hst He.
  destruct st as [p timers].
  destruct e as [files|files| |file|file];
    cbn [apply_event event_ok idx_plugin idx_timers] in *.
  - destruct He as [Hf ->]. unfold updateCache.
    destruct (cacheUpToDate p); [exact Hst|].
    unfold indexedPaths, pendingPaths. cbn [noteTitlesCache idx_timers].
    rewrite indexedPaths_entries. cbn. rewrite app_nil_r.
    by apply NoDup_fmap_filter.
  - destruct He as [Hf ->]. rewrite pendingPaths_schedule.
    unfold pendingPaths at 1. cbn [idx_timers fmap list_fmap concat app].
    unfold indexNotesFirstBatch. rewrite processBatch_paths.
    unfold indexedPaths, notesToIndex. cbn [noteTitlesCache fmap list_fmap app].
    rewrite drop_0. by apply NoDup_fmap_filter.
  - destruct timers as [|[notes startIndex] timers]; [exact Hst|].
    cbn [idx_plugin]. rewrite pendingPaths_schedule.
    eapply NoDup_Permutation_proper; [|exact Hst].
    unfold pendingPaths at 2. cbn [idx_timers fmap list_fmap concat snd fst].
    fold (pendingPaths {| idx_plugin := p; idx_timers := timers |}).
    unfold pendingPaths at 1. cbn [idx_timers].
    set (waiting := concat _).
    rewrite (app_assoc (indexedPaths p)), <- processBatch_paths.
    rewrite <- !app_assoc. f_equiv. apply Permutation_app_comm.
  - destruct He as [Hc Hp]. unfold onFileCreated.
    destruct (_ && _); [|exact Hst].
    unfold indexedPaths in *. cbn [noteTitlesCache].
    rewrite fmap_app, <- app_assoc. cbn [fmap list_fmap app].
    eapply NoDup_Permutation_proper;
      [symmetry; apply Permutation_middle|].
    apply NoDup_cons. split; [|exact Hst].
    intros [H|H]%elem_of_app; [by apply Hc | by apply Hp].
  - apply NoDup_app in Hst as (Hc & Hd & Hp).
    apply NoDup_app. split; [|split; [|exact Hp]].
    + unfold indexedPaths, onFileDeleted. cbn [noteTitlesCache].
      by apply NoDup_fmap_filter.
    + intros x Hx. apply Hd. unfold indexedPaths, onFileDeleted in *.
      cbn [noteTitlesCache] in Hx.
      apply list_elem_of_fmap in Hx as (n & -> & Hn).
      apply list_elem_of_filter in Hn as [_ Hn].
      apply list_elem_of_fmap. by exists n.
Qed.

Lemma run_events_from_unique : ∀ es st,
  pathsApart st → events_ok_from st es →
  pathsApart (run_events_from st es).
Proof.
  induction es as [|e es IH]; intros st Hst Hok; [exact Hst|].
  destruct Hok as [He Hes]. cbn [run_events_from foldl].
  apply IH; [by apply apply_event_unique | exact Hes].
Qed.

(** C5, counterexample.  [onFileCreated] appends without looking at the
    cache: the same file added twice to the empty index leaves two entries
    with one path. *)
Lemma index_duplicate_after_two_adds :
  indexedPaths (run_events emptyPlugin
                  [Added (fileAt "a.md" "a"); Added (fileAt "a.md" "a")])
  = [js "a.md"; js "a.md"]
  ∧ ¬ NoDup (indexedPaths (run_events emptyPlugin
               [Added (fileAt "a.md" "a"); Added (fileAt "a.md" "a")])).
Proof.
  split; [vm_compute; reflexivity|].
  intros H. apply NoDup_cons in H as [H _]. apply H. apply list_elem_of_here.
Qed.

(** A file that is deleted and created again while the batch that lists it
    is still waiting is indexed twice, although its path was not indexed
    when it was created: the batch pushes it once more. *)
Lemma index_duplicate_between_batches :
  NoDup (path <$> sixtyNumberedNotes)
  ∧ (path (numberedNote 55)
     ∉ indexedPaths (run_events emptyPlugin
                       [Reindex sixtyNumberedNotes; Removed (numberedNote 55)]))
  ∧ length (indexedPaths
              (run_events emptyPlugin
                 [Reindex sixtyNumberedNotes; Removed (numberedNote 55);
                  Added (numberedNote 55); Timer])) = 61
  ∧ ¬ NoDup (indexedPaths
               (run_events emptyPlugin
                  [Reindex sixtyNumberedNotes; Removed (numberedNote 55);
                   Added (numberedNote 55); Timer])).
Proof.
  split; [|split; [|split]].
  - apply (bool_decide_unpack _). vm_compute. exact I.
  - apply (bool_decide_unpack _). vm_compute. exact I.
  - vm_compute. reflexivity.
  - intros H. apply (bool_decide_pack _) in H. vm_compute in H. exact H.
Qed.

(** A second call of [indexNotes] while a batch of the first is waiting:
    the cache is still marked stale then, so a run of the command does
    index again, and both calls push their later batches. *)
Lemma index_duplicate_overlapping_rebuilds :
  cacheUpToDate (run_events emptyPlugin [Reindex sixtyNumberedNotes]) = false
  ∧ length (indexedPaths
              (run_events emptyPlugin
                 [Reindex sixtyNumberedNotes; Reindex sixtyNumberedNotes;
                  Timer; Timer])) = 70
  ∧ ¬ NoDup (indexedPaths
               (run_events emptyPlugin
                  [Reindex sixtyNumberedNotes; Reindex sixtyNumberedNotes;
                   Timer; Timer])).
Proof.
  split; [|split].
  - vm_compute. reflexivity.
  - vm_compute. reflexivity.
  - intros H. apply (bool_decide_pack _) in H. vm_compute in H. exact H.
Qed.

(** C5, as amended.  Starting from an index with at most one entry for
    each path and no batch waiting (the empty index, or one just rebuilt),
    the index holds at most one entry for each path after any sequence of
    rebuilds, batches, additions and removals in which every listing has
    distinct paths and is taken while no batch is waiting, and every added
    document has a path that is neither indexed nor waiting in a batch.
    Uniqueness is by path: two documents with one title and different
    paths both get their entry. *)
Theorem index_paths_unique :
  (∀ es p, NoDup (indexedPaths p) → events_ok p es →
           NoDup (indexedPaths (run_events p es)))
  ∧ NoDup (indexedPaths emptyPlugin)
  ∧ (∀ files p, NoDup (path <$> files) →
                NoDup (indexedPaths (indexNotes files p)))
  ∧ noteTitlesCache (run_events emptyPlugin
       [Added (fileAt "a/x.md" "x"); Added (fileAt "b/x.md" "x")])
    = [ {| note_title := js "x"; note_path := js "a/x.md" |};
        {| note_title := js "x"; note_path := js "b/x.md" |} ].
Proof.
  split; [|split; [|split]].
  - intros es p Hp Hok.
    assert (H : pathsApart (run_events_from (idle p) es)).
    { apply run_events_from_unique; [|exact Hok].
      unfold pathsApart, pendingPaths. cbn. by rewrite app_nil_r. }
    by apply NoDup_app in H as [H _].
  - constructor.
  - intros files p Hf. unfold indexedPaths, indexNotes. cbn [noteTitlesCache].
    rewrite indexedPaths_entries. by apply NoDup_fmap_filter.
  - vm_compute. reflexivity.
Qed.

Lemma index_paths_unique_witness :
  NoDup (indexedPaths (run_events emptyPlugin
           [Reindex sixtyNumberedNotes; Added (fileAt "a.md" "a"); Timer;
            Removed (numberedNote 3); Added (numberedNote 3)])).
Proof.
  apply (proj1 index_paths_unique).
  - constructor.
  - unfold events_ok. cbn [events_ok_from event_ok].
    repeat split;
      first [ apply (bool_decide_unpack _); vm_compute; exact I
            | vm_compute; reflexivity ].
Defined.

(** ** C4: what the rewrite reads *)

(** C4, counterexample.  Two runs with the same scanned text (the
    selection "Alpha"), the same selected occurrence and the same settings,
    on vaults that store different contents for the note: [insertLinks] is
    not handed the scanned text, it reads the note from the vault, and the
    two rewritten texts differ. *)
Lemma rewrite_rereads_stored_text :
  runScan 6 (pluginWith defaultSettings [noteNamed "Alpha"]) vaultOne
    (fileAt "n.md" "n") (js "Alpha") = Done [alphaLink]
  ∧ runScan 6 (pluginWith defaultSettings [noteNamed "Alpha"]) vaultTwo
      (fileAt "n.md" "n") (js "Alpha") = Done [alphaLink]
  ∧ rewrittenContent (pluginWith defaultSettings [noteNamed "Alpha"]) vaultOne
      (fileAt "n.md" "n") [alphaLink] = Done (js "[[Alpha]] one")
  ∧ rewrittenContent (pluginWith defaultSettings [noteNamed "Alpha"]) vaultTwo
      (fileAt "n.md" "n") [alphaLink] = Done (js "[[Alpha]] two").
Proof. repeat split; vm_compute; reflexivity. Qed.

(** C4, as amended.  The rewritten text depends only on the content the
    vault stores for the active file, on the selected occurrences and on
    the settings: it is the substitution applied to the stored content,
    whatever text was scanned; two vaults that store the same content for
    the file give the same text, and a file the vault cannot read gives
    an error. *)
Theorem rewrite_depends_on_stored_text (p : Plugin) (activeFile : AbstractFile)
    (links : list Link) :
  (∀ (v : Vault) stored,
     v !! path activeFile = Some stored →
     rewrittenContent p v activeFile links
     = applyLinks (settings p) links stored)
  ∧ (∀ v : Vault,
       v !! path activeFile = None →
       insertLinks p v activeFile links = Throws ReadError)
  ∧ (∀ v1 v2 : Vault,
       v1 !! path activeFile = v2 !! path activeFile →
       rewrittenContent p v1 activeFile links
       = rewrittenContent p v2 activeFile links).
Proof.
  assert (H1 : ∀ (v : Vault) stored,
     v !! path activeFile = Some stored →
     rewrittenContent p v activeFile links
     = applyLinks (settings p) links stored).
  { intros v stored Hv. unfold rewrittenContent, insertLinks, vault_read.
    rewrite Hv. cbn [bind].
    destruct (applyLinks (settings p) links stored) as [out| |];
      [|reflexivity..].
    cbn [bind]. rewrite lookup_insert_eq. reflexivity. }
  assert (H2 : ∀ v : Vault,
       v !! path activeFile = None →
       insertLinks p v activeFile links = Throws ReadError).
  { intros v Hv. unfold insertLinks, vault_read. rewrite Hv. reflexivity. }
  split; [exact H1|]. split; [exact H2|].
  intros v1 v2 Hv. destruct (v1 !! path activeFile) as [stored|] eqn:E1.
  - rewrite (H1 v1 stored E1), (H1 v2 stored); [reflexivity | by rewrite <- Hv].
  - unfold rewrittenContent. rewrite (H2 v1 E1), (H2 v2); [reflexivity|].
    by rewrite <- Hv.
Qed.

Lemma rewrite_depends_on_stored_text_witness :
  rewrittenContent (pluginWith defaultSettings [noteNamed "Alpha"]) vaultOne
    (fileAt "n.md" "n") [alphaLink]
  = applyLinks defaultSettings [alphaLink] (js "Alpha one").
Proof.
  apply (proj1 (rewrite_depends_on_stored_text
                  (pluginWith defaultSettings [noteNamed "Alpha"])
                  (fileAt "n.md" "n") [alphaLink]) vaultOne).
  vm_compute. reflexivity.
Defined.

(** ** C9: the leading metadata block *)

Lemma lit_match_eq s : ∀ k prev rest cs,
  m false (lit s) k {| m_prev := prev; m_rest := s ++ rest |} cs
  = k {| m_prev := rev s ++ prev; m_rest := rest |} cs.
Proof.
  induction s as [|c s IH]; intros k prev rest cs; [reflexivity|].
  change (lit (c :: s)) with (Cat (Chr c) (lit s)).
  cbn [m app m_rest m_prev canonicalize]. rewrite Ascii.eqb_refl, IH.
  cbn [rev]. rewrite <- app_assoc. reflexivity.
Qed.

Lemma lit_match s : ∀ k st cs res,
  m false (lit s) k st cs = Some res →
  ∃ rest, m_rest st = s ++ rest
    ∧ k {| m_prev := rev s ++ m_prev st; m_rest := rest |} cs = Some res.
Proof.
  induction s as [|c s IH]; intros k [prev rest] cs res H.
  - exists rest. split; [reflexivity | exact H].
  - change (lit (c :: s)) with (Cat (Chr c) (lit s)) in H.
    cbn [m m_rest m_prev canonicalize] in H.
    destruct rest as [|x rest]; [discriminate|].
    destruct (Ascii.eqb x c) eqn:Hx; [|discriminate].
    apply Ascii.eqb_eq in Hx as ->.
    destruct (IH _ _ _ _ H) as (rest' & Hr & Hk). cbn in Hr, Hk.
    exists rest'. cbn [m_rest m_prev]. split; [by rewrite Hr|].
    cbn [rev]. rewrite <- app_assoc. exact Hk.
Qed.

(** The lazy repetition stops at the first place where what follows it in
    the pattern matches. *)
Lemma lazy_match ic k cs res : ∀ rest prev,
  m ic AnyLazyPlus k {| m_prev := prev; m_rest := rest |} cs = Some res →
  ∃ body rest', body ≠ [] ∧ rest = body ++ rest'
    ∧ k {| m_prev := rev body ++ prev; m_rest := rest' |} cs = Some res
    ∧ ∀ b1 b2, body = b1 ++ b2 → b1 ≠ [] → b2 ≠ [] →
        k {| m_prev := rev b1 ++ prev; m_rest := b2 ++ rest' |} cs = None.
Proof.
  cbn [m m_prev m_rest].
  induction rest as [|x rest IH]; intros prev H; [discriminate|].
  destruct (k {| m_prev := x :: prev; m_rest := rest |} cs) eqn:Hk.
  - injection H as <-. exists [x], rest. split; [discriminate|].
    split; [reflexivity|]. split; [exact Hk|].
    intros b1 b2 Hb H1 H2. destruct b1 as [|y [|z b1]]; [done| |discriminate].
    injection Hb as _ Hb. by destruct b2.
  - destruct (IH _ H) as (body & rest' & Hne & -> & Hk' & Hmin).
    exists (x :: body), rest'. split; [discriminate|].
    split; [reflexivity|]. split.
    { cbn [rev]. rewrite <- app_assoc. exact Hk'. }
    intros b1 b2 Hb H1 H2. destruct b1 as [|y b1]; [done|].
    injection Hb as <- ->. destruct b1 as [|z b1].
    + exact Hk.
    + specialize (Hmin (z :: b1) b2 eq_refl ltac:(discriminate) H2).
      cbn [rev] in *. rewrite <- !app_assoc in *. exact Hmin.
Qed.

Lemma search_bol_later ic r : ∀ rest prev,
  prev ≠ [] → search ic (Cat Bol r) prev rest = None.
Proof.
  induction rest as [|x rest IH]; intros prev Hp;
    (destruct prev as [|y prev]; [done|]); cbn [search].
  - reflexivity.
  - change (match_at ic (Cat Bol r) _) with (@None (mstate * captures)).
    cbv iota. by apply IH.
Qed.

Lemma search_bol ic r rest :
  search ic (Cat Bol r) [] rest
  = match match_at ic (Cat Bol r) {| m_prev := []; m_rest := rest |} with
    | Some (st', cs) => Some (0, st', cs)
    | None => None
    end.
Proof.
  destruct rest as [|x rest]; cbn [search].
  - destruct (match_at _ _ _) as [[st' cs]|]; reflexivity.
  - destruct (match_at _ _ _) as [[st' cs]|]; [reflexivity|].
    by apply search_bol_later.
Qed.

(** The lazy repetition does match when what follows it in the pattern
    matches after some non-empty piece of the text. *)
Lemma lazy_some ic k cs : ∀ body rest prev,
  body ≠ [] →
  k {| m_prev := rev body ++ prev; m_rest := rest |} cs ≠ None →
  m ic AnyLazyPlus k {| m_prev := prev; m_rest := body ++ rest |} cs ≠ None.
Proof.
  cbn [m m_prev m_rest].
  induction body as [|x body IH]; intros rest prev Hne Hk; [done|].
  cbn [app].
  destruct (k {| m_prev := x :: prev; m_rest := body ++ rest |} cs) eqn:E;
    [discriminate|].
  destruct body as [|y body]; [by rewrite <- E|].
  apply IH; [discriminate|].
  cbn [rev] in *. by rewrite <- !app_assoc in *.
Qed.

(** What [removeFrontmatter] does, by the outcome of the one match it
    tries, at offset 0: without a match the text is returned as it is;
    with a match, what is removed is the three dashes the text starts
    with, at least one character, and the first "---" with a line feed
    after it that follows. *)
Lemma removeFrontmatter_spec content :
  match match_at false (re_tree frontmatterRegex)
          {| m_prev := []; m_rest := content |} with
  | None => removeFrontmatter content = content
  | Some _ =>
      ∃ body rest,
        body ≠ []
        ∧ content = js "---" ++ body ++ js "---" ++ [newline] ++ rest
        ∧ removeFrontmatter content = rest
        ∧ ∀ b1 b2, body = b1 ++ b2 → b1 ≠ [] → b2 ≠ [] →
            ¬ ∃ r, b2 ++ js "---" ++ [newline] ++ rest
                   = js "---" ++ [newline] ++ r
  end.
Proof.
  unfold removeFrontmatter, string_replace.
  change (re_global frontmatterRegex) with false. cbv iota.
  unfold regex_exec.
  change (re_global frontmatterRegex) with false. cbv iota.
  change (length content <? 0) with false. cbv iota.
  rewrite take_0, drop_0. cbn [rev].
  change (re_tree frontmatterRegex)
    with (Cat Bol (Cat (lit (js "---"))
            (Cat AnyLazyPlus (Cat (lit (js "---" ++ [newline])) Eps)))).
  rewrite search_bol.
  destruct (match_at _ _ _) as [[st' cs]|] eqn:Hm; [|reflexivity].
  unfold match_at in Hm. cbn [m m_prev] in Hm.
  apply lit_match in Hm as (rest1 & Hc & Hm). cbn [m_rest m_prev] in Hc, Hm.
  apply (lazy_match false) in Hm as (body & rest2 & Hne & -> & Hm & Hmin).
  apply lit_match in Hm as (rest3 & Hr2 & Hm). cbn [m_rest m_prev m] in Hr2, Hm.
  injection Hm as <- <-. subst rest2 content.
  exists body, rest3. split; [exact Hne|]. split; [reflexivity|]. split.
  - cbn [replace_build mr_index mr_end]. change (0 <=? 0) with true. cbv iota.
    cbn [getSubstitution slice take app].
    unfold m_pos. cbn [m_prev].
    rewrite (app_assoc (js "---") body),
            (app_assoc (js "---" ++ body) (js "---" ++ [newline]) rest3).
    apply drop_app_length'.
    cbn [length]. rewrite !length_app, length_rev. simpl. lia.
  - intros b1 b2 Hb H1 H2 [r Hr].
    specialize (Hmin b1 b2 Hb H1 H2).
    change (js "---" ++ [newline] ++ rest3)
      with ((js "---" ++ [newline]) ++ rest3) in Hr.
    change (js "---" ++ [newline] ++ r)
      with ((js "---" ++ [newline]) ++ r) in Hr.
    change (re_ignoreCase frontmatterRegex) with false in Hmin.
    rewrite Hr, lit_match_eq in Hmin. discriminate Hmin.
Qed.

Lemma removeFrontmatter_cases content :
  removeFrontmatter content = content
  ∨ ∃ body rest,
      body ≠ []
      ∧ content = js "---" ++ body ++ js "---" ++ [newline] ++ rest
      ∧ removeFrontmatter content = rest
      ∧ ∀ b1 b2, body = b1 ++ b2 → b1 ≠ [] → b2 ≠ [] →
          ¬ ∃ r, b2 ++ js "---" ++ [newline] ++ rest
                 = js "---" ++ [newline] ++ r.
Proof.
  pose proof (removeFrontmatter_spec content) as H.
  destruct (match_at _ _ _); [by right | by left].
Qed.

Lemma app_longer {A} (a b x y : list A) :
  a ++ x = b ++ y → length a < length b →
  ∃ c, c ≠ [] ∧ b = a ++ c ∧ x = c ++ y.
Proof.
  revert b. induction a as [|h a IH]; intros b E Hl.
  - exists b. split; [by destruct b; [simpl in Hl; lia|]|]. by split.
  - destruct b as [|h' b]; [simpl in Hl; lia|].
    injection E as <- E. destruct (IH b E) as (c & Hc & -> & ->);
      [simpl in Hl; lia|].
    by exists c.
Qed.

(** Whenever the text starts with three dashes, at least one character
    and then "---" with a line feed, [removeFrontmatter] does remove
    something: the shortest such start of the text. *)
Lemma removeFrontmatter_block body rest :
  body ≠ [] →
  ∃ body' rest',
    body' ≠ [] ∧ length body' ≤ length body
    ∧ js "---" ++ body ++ js "---" ++ [newline] ++ rest
      = js "---" ++ body' ++ js "---" ++ [newline] ++ rest'
    ∧ removeFrontmatter (js "---" ++ body ++ js "---" ++ [newline] ++ rest)
      = rest'.
Proof.
  intros Hne.
  pose proof (removeFrontmatter_spec
                (js "---" ++ body ++ js "---" ++ [newline] ++ rest)) as H.
  destruct (match_at _ _ _) as [res|] eqn:Hm.
  - destruct H as (body' & rest' & Hne' & E & Hr & Hmin).
    exists body', rest'. split; [exact Hne'|]. split; [|by split].
    destruct (decide (length body' ≤ length body)) as [|Hl]; [done|].
    exfalso. apply app_inv_head in E.
    destruct (app_longer body body' _ _ E) as (c & Hc & -> & E'); [lia|].
    apply (Hmin body c eq_refl Hne Hc). exists rest. by symmetry.
  - exfalso. revert Hm. unfold match_at.
    change (re_tree frontmatterRegex)
      with (Cat Bol (Cat (lit (js "---"))
              (Cat AnyLazyPlus (Cat (lit (js "---" ++ [newline])) Eps)))).
    cbn [m m_prev]. rewrite lit_match_eq.
    apply (lazy_some false
             (fun st' cs' =>
                m false (lit (js "---" ++ [newline]))
                  (fun st'' cs'' => Some (st'', cs'')) st' cs')
             [] body (js "---" ++ [newline] ++ rest) (rev (js "---") ++ []) Hne).
    change (js "---" ++ [newline] ++ rest)
      with ((js "---" ++ [newline]) ++ rest).
    rewrite lit_match_eq. discriminate.
Qed.

(** C9.  What [removeFrontmatter] takes for the frontmatter is the start
    of the text up to the first "---" that is followed by a line feed,
    whether or not that "---" stands at the start of a line.  For the text
    of the claim that is the metadata block, and the scan yields the one
    occurrence after it.  For a block with a line that ends in "---" it is
    a part of the block only: the rest of the block is scanned, and a
    title in it is reported.  A block whose lines end in a carriage return
    and a line feed is not removed at all. *)
Theorem frontmatter_block_cut_short :
  (∀ body rest, body ≠ [] →
     ∃ body' rest',
       body' ≠ [] ∧ length body' ≤ length body
       ∧ js "---" ++ body ++ js "---" ++ [newline] ++ rest
         = js "---" ++ body' ++ js "---" ++ [newline] ++ rest'
       ∧ removeFrontmatter (js "---" ++ body ++ js "---" ++ [newline] ++ rest)
         = rest')
  ∧ (∀ content,
       removeFrontmatter content = content
       ∨ ∃ body rest,
           body ≠ []
           ∧ content = js "---" ++ body ++ js "---" ++ [newline] ++ rest
           ∧ removeFrontmatter content = rest
           ∧ ∀ b1 b2, body = b1 ++ b2 → b1 ≠ [] → b2 ≠ [] →
               ¬ ∃ r, b2 ++ js "---" ++ [newline] ++ rest
                      = js "---" ++ [newline] ++ r)
  ∧ (∀ n, scan (2 + n) (pluginWith defaultSettings [noteNamed "Project Alpha"])
            frontmatterNote
          = Done [linkAt "Project Alpha" "Project Alpha"
                    "Project Alpha is great" 0 13])
  ∧ removeFrontmatter cutShortNote
    = js "alias: Project Alpha" ++ [newline] ++ js "---" ++ [newline]
      ++ js "Project Alpha is great"
  ∧ (∀ n, bind (scan (3 + n)
                  (pluginWith defaultSettings [noteNamed "Project Alpha"])
                  cutShortNote)
            (fun links => Done (matchIndex <$> links))
          = Done [(7, 20); (25, 38)])
  ∧ removeFrontmatter crlfNote = crlfNote
  ∧ (∀ n, bind (scan (3 + n)
                  (pluginWith defaultSettings [noteNamed "Project Alpha"])
                  crlfNote)
            (fun links => Done (matchIndex <$> links))
          = Done [(10, 23); (30, 43)]).
Proof.
  split; [exact removeFrontmatter_block|].
  split; [exact removeFrontmatter_cases|].
  split; [|split; [|split; [|split]]].
  - intros n. unfold scan. apply detectPotentialLinks_fuel.
    vm_compute. reflexivity.
  - vm_compute. reflexivity.
  - intros n. unfold scan.
    erewrite detectPotentialLinks_fuel by (vm_compute; reflexivity).
    vm_compute. reflexivity.
  - vm_compute. reflexivity.
  - intros n. unfold scan.
    erewrite detectPotentialLinks_fuel by (vm_compute; reflexivity).
    vm_compute. reflexivity.
Qed.

(** ** C3: case *)

Lemma toUpperCase_idem c : toUpperCase (toUpperCase c) = toUpperCase c.
Proof. ascii_cases c; reflexivity. Qed.

Lemma toUpperCase_lparen c :
  Ascii.eqb (toUpperCase c) "(" = Ascii.eqb c "(".
Proof. ascii_cases c; reflexivity. Qed.

Lemma toUpperCase_rparen c :
  Ascii.eqb (toUpperCase c) ")" = Ascii.eqb c ")".
Proof. ascii_cases c; reflexivity. Qed.

Lemma fmap_rev {A B} (f : A → B) (l : list A) : f <$> rev l = rev (f <$> l).
Proof.
  induction l as [|x l IH]; [reflexivity|].
  cbn [rev fmap list_fmap]. rewrite fmap_app, IH. reflexivity.
Qed.

Lemma endsWithRev_upper prev s :
  endsWithRev true prev (toUpperCase <$> s) = endsWithRev true prev s.
Proof.
  unfold endsWithRev. rewrite length_fmap.
  replace (canonicalize true <$> rev (toUpperCase <$> s))
    with (canonicalize true <$> rev s); [reflexivity|].
  rewrite <- !fmap_rev, <- list_fmap_compose. apply list_fmap_ext.
  intros i x _. simpl. by rewrite toUpperCase_idem.
Qed.

(** Under the ignore-case flag a pattern and its upper-case form match
    alike. *)
Lemma m_upper r : ∀ k k' st cs,
  (∀ st' cs', k st' cs' = k' st' cs') →
  m true r k st cs = m true (upperRegex r) k' st cs.
Proof.
  induction r as [|c|c| | | |r1 IH1 r2 IH2|n r IH|s|r IH];
    intros k k' st cs Hk; cbn [m upperRegex canonicalize].
  - apply Hk.
  - rewrite toUpperCase_idem. destruct (m_rest st); [reflexivity|].
    destruct (Ascii.eqb _ _); [apply Hk | reflexivity].
  - rewrite toUpperCase_idem, Hk. destruct (m_rest st); [reflexivity|].
    rewrite Hk. reflexivity.
  - destruct (m_prev st); [apply Hk | reflexivity].
  - destruct (xorb _ _); [apply Hk | reflexivity].
  - generalize (m_prev st). induction (m_rest st) as [|x rest IHrest];
      intros prev; [reflexivity|].
    rewrite Hk, IHrest. reflexivity.
  - apply IH1. intros st' cs'. by apply IH2.
  - apply IH. intros st' cs'. apply Hk.
  - rewrite endsWithRev_upper. destruct (endsWithRev _ _ _); [reflexivity|apply Hk].
  - rewrite <- (IH (fun a b => Some (a, b)) (fun a b => Some (a, b)))
      by reflexivity.
    destruct (m true r _ st cs); [reflexivity | apply Hk].
Qed.

Lemma search_upper r : ∀ rest prev,
  search true (upperRegex r) prev rest = search true r prev rest.
Proof.
  induction rest as [|x rest IH]; intros prev; cbn [search];
    unfold match_at; rewrite <- (m_upper r _ (fun a b => Some (a, b)))
      by reflexivity; [reflexivity|].
  rewrite IH. reflexivity.
Qed.

Lemma upperRegex_seq items : upperRegex (seq items) = seq (upperRegex <$> items).
Proof.
  induction items as [|x items IH]; [reflexivity|].
  cbn. f_equal. exact IH.
Qed.

Lemma absorb_upper t : ∀ stack cur g,
  captureOnly stack →
  absorb (toUpperCase <$> t) (upperFrame <$> stack) (upperRegex <$> cur) g
  = upperAbsorbed (absorb t stack cur g).
Proof.
  induction t as [|c t IH]; intros stack cur g Hc; [reflexivity|].
  cbn [fmap list_fmap absorb].
  change (list_fmap ascii ascii toUpperCase t) with (toUpperCase <$> t).
  rewrite toUpperCase_lparen, toUpperCase_rparen.
  destruct (Ascii.eqb c "(").
  { rewrite <- IH; [reflexivity|].
    constructor; [by eexists | exact Hc]. }
  destruct (Ascii.eqb c ")").
  { destruct stack as [|f stack]; [reflexivity|].
    inversion Hc as [|? ? [n Hk] Hc']; subst.
    cbn [fmap list_fmap upperFrame f_kind f_saved]. rewrite Hk.
    cbn [close_group]. rewrite <- IH by exact Hc'.
    cbn [fmap list_fmap upperRegex]. rewrite upperRegex_seq, fmap_rev.
    reflexivity. }
  rewrite <- IH by exact Hc. reflexivity.
Qed.

Lemma detect_compile_upper t :
  compile (detectPattern (toUpperCase <$> t))
  = upperCompiled (compile (detectPattern t)).
Proof.
  rewrite !detect_compile_start.
  pose proof (absorb_upper t [firstGroupFrame] [] 1) as Hu.
  pose proof (absorb_inv t [firstGroupFrame] [] 1) as Hinv.
  assert (Hc0 : captureOnly [firstGroupFrame])
    by (repeat constructor; by eexists).
  specialize (Hu Hc0). specialize (Hinv Hc0).
  change (upperFrame <$> [firstGroupFrame]) with [firstGroupFrame] in Hu.
  change (upperRegex <$> []) with (@nil regex) in Hu.
  rewrite Hu.
  destruct (absorb t _ _ _) as [[[stack' cur'] g']|e]; cbn [upperAbsorbed].
  2:{ rewrite Hinv. reflexivity. }
  destruct Hinv as (Hc & _ & _).
  destruct stack' as [|f stack'']; [reflexivity|].
  inversion Hc as [|? ? [n Hk] Hc']; subst.
  cbn [fmap list_fmap].
  change (parse (js ")(?!\|?\]\])") (upperFrame f :: ?s) ?c g')
    with (match close_group (f_kind (upperFrame f)) c with
          | Some item =>
              match s with
              | [] => Compiled (seq (rev (notBeforeClose :: item
                                          :: f_saved (upperFrame f)))) g'
              | _ :: _ => PatternSyntaxError
              end
          | None => OutsideFragment
          end).
  change (parse (js ")(?!\|?\]\])") (f :: stack'') cur' g')
    with (match close_group (f_kind f) cur' with
          | Some item =>
              match stack'' with
              | [] => Compiled (seq (rev (notBeforeClose :: item :: f_saved f))) g'
              | _ :: _ => PatternSyntaxError
              end
          | None => OutsideFragment
          end).
  cbn [upperFrame f_kind f_saved]. rewrite Hk. cbn [close_group].
  destruct stack'' as [|f2 stack'']; [|reflexivity].
  cbn [fmap list_fmap upperCompiled]. f_equal.
  rewrite upperRegex_seq, fmap_rev. cbn [fmap list_fmap upperRegex].
  rewrite upperRegex_seq, fmap_rev. reflexivity.
Qed.

(** Two titles that differ only in case: their patterns are accepted or
    rejected together, and [exec] returns the same matches for both. *)
Lemma detect_case_blind t1 t2 re1 :
  toUpperCase <$> t1 = toUpperCase <$> t2 →
  newRegExp_gi (detectPattern t1) = Done re1 →
  ∃ re2, newRegExp_gi (detectPattern t2) = Done re2
    ∧ ∀ content lastIndex,
        regex_exec re2 content lastIndex = regex_exec re1 content lastIndex.
Proof.
  intros Ht H1. unfold newRegExp_gi in *.
  pose proof (detect_compile_upper t1) as U1.
  pose proof (detect_compile_upper t2) as U2.
  rewrite Ht in U1. rewrite U1 in U2. clear U1.
  destruct (compile (detectPattern t1)) as [r1 g1| |]; try discriminate.
  destruct (compile (detectPattern t2)) as [r2 g2| |]; try discriminate.
  injection H1 as <-. injection U2 as Hr Hg.
  eexists. split; [reflexivity|]. intros content lastIndex.
  unfold regex_exec. cbn [re_global re_ignoreCase re_tree].
  destruct (_ <? _); [reflexivity|].
  rewrite <- (search_upper r2), <- (search_upper r1), Hr. reflexivity.
Qed.

(** C3, counterexample.  The settings have no flag for the case
    sensitivity of the scan, and the pattern is always built with the
    ignore-case flag.  With every flag of the settings switched on, the
    scan of "See project alpha notes" for the title "Project Alpha" still
    emits the occurrence "project alpha", which differs from the title in
    case. *)
Lemma scan_ignores_case_with_every_flag_set :
  scan 2 (pluginWith everyFlagSet [noteNamed "Project Alpha"])
    (js "See project alpha notes") = Done [lowerCaseLink]
  ∧ originalMatch lowerCaseLink ≠ title lowerCaseLink.
Proof. split; [vm_compute; reflexivity | discriminate]. Qed.

(** C3, as amended.  The scan ignores case in every configuration: no
    setting changes it.  Scanning "See project alpha notes" for
    "Project Alpha" yields, whatever the settings, one occurrence with the
    matched text "project alpha" and the title "Project Alpha"; two titles
    that differ only in case are searched alike; and the matched text of
    every occurrence is the piece of the scanned text at the start of its
    span, so it keeps the casing of the source. *)
Theorem scan_always_ignores_case :
  (∀ s n, scan (2 + n) (pluginWith s [noteNamed "Project Alpha"])
            (js "See project alpha notes") = Done [lowerCaseLink])
  ∧ (∀ t1 t2 re1,
       toUpperCase <$> t1 = toUpperCase <$> t2 →
       newRegExp_gi (detectPattern t1) = Done re1 →
       ∃ re2, newRegExp_gi (detectPattern t2) = Done re2
         ∧ ∀ content lastIndex,
             regex_exec re2 content lastIndex
             = regex_exec re1 content lastIndex)
  ∧ (∀ fuel cache content links l,
       detectPotentialLinks fuel cache content = Done links → l ∈ links →
       originalMatch l
       = slice (startOf l) (startOf l + length (originalMatch l)) content
       ∧ startOf l + length (originalMatch l) ≤ endOf l).
Proof.
  split; [|split].
  - intros s n. unfold scan.
    assert (E : scanInput (pluginWith s [noteNamed "Project Alpha"])
                  (js "See project alpha notes")
                = js "See project alpha notes").
    { unfold scanInput. cbn [settings pluginWith].
      destruct (excludeFrontmatter s); [vm_compute|]; reflexivity. }
    rewrite E. apply detectPotentialLinks_fuel. vm_compute. reflexivity.
  - exact detect_case_blind.
  - intros fuel cache content links l H Hl.
    destruct (detectPotentialLinks_sound _ _ _ _ _ H Hl)
      as ((_ & _ & _ & _ & _ & Hs) & _).
    exact Hs.
Qed.

Lemma scan_always_ignores_case_witness :
  originalMatch lowerCaseLink
  = slice (startOf lowerCaseLink)
      (startOf lowerCaseLink + length (originalMatch lowerCaseLink))
      (js "See project alpha notes")
  ∧ startOf lowerCaseLink + length (originalMatch lowerCaseLink)
    ≤ endOf lowerCaseLink.
Proof.
  apply (proj2 (proj2 scan_always_ignores_case) 2
           [noteNamed "Project Alpha"] (js "See project alpha notes")
           [lowerCaseLink] lowerCaseLink).
  - vm_compute. reflexivity.
  - apply list_elem_of_here.
Defined.

(** * Further properties of the code *)

(** ** Patterns of texts without parentheses *)

Lemma escapeRegExp_parenFree s :
  parenFree s → flexParens (escapeRegExp s) = escapeRegExp s.
Proof.
  induction 1 as [|c s Hc _ IH]; [reflexivity|].
  cbn [escapeRegExp]. destruct (isSpecial c); cbn [flexParens].
  - change (isParen "\"%char) with false. cbv iota. rewrite Hc, IH. reflexivity.
  - rewrite Hc, IH. reflexivity.
Qed.

Lemma parse_escapeRegExp s : ∀ suffix stack cur g,
  parse (escapeRegExp s ++ suffix) stack cur g
  = parse suffix stack (rev (Chr <$> s) ++ cur) g.
Proof.
  induction s as [|c s IH]; intros suffix stack cur g; [reflexivity|].
  cbn [escapeRegExp]. destruct (isSpecial c) eqn:Hs; cbn [app].
  - rewrite parse_escaped by exact Hs. rewrite IH.
    cbn [fmap list_fmap rev]. rewrite <- app_assoc. reflexivity.
  - rewrite parse_plain by exact Hs. rewrite IH.
    cbn [fmap list_fmap rev]. rewrite <- app_assoc. reflexivity.
Qed.

Lemma replacePattern_compile o :
  parenFree o →
  newRegExp_gi (replacePattern o) = Done (plainReplaceRegExp o).
Proof.
  intros Hp. unfold newRegExp_gi, compile, replacePattern.
  rewrite escapeRegExp_parenFree by exact Hp.
  change (parse (js "\b" ++ ?rest) [] [] 0) with (parse rest [] [WordB] 0).
  rewrite parse_escapeRegExp.
  change (parse (js "\b") [] ?cur 0) with (Compiled (seq (rev (WordB :: cur))) 0).
  cbn [rev]. rewrite rev_app_distr, rev_involutive. reflexivity.
Qed.

Lemma detectPattern_compile t :
  parenFree t →
  newRegExp_gi (detectPattern t) = Done (plainDetectRegExp t).
Proof.
  intros Hp. unfold newRegExp_gi, compile, detectPattern.
  rewrite escapeRegExp_parenFree by exact Hp.
  change (parse (js "(?<!\[\[)(" ++ ?rest) [] [] 0)
    with (parse ("("%char :: rest) [] [notAfterOpen] 0).
  rewrite parse_open.
  2:{ destruct t as [|c t]; [discriminate|]. cbn [escapeRegExp].
      destruct (isSpecial c) eqn:Hs; [discriminate|].
      cbn. intros [= ->]. discriminate Hs. }
  rewrite parse_escapeRegExp.
  rewrite app_nil_r.
  change (parse (js ")(?!\|?\]\])") [?f] ?cur 1)
    with (Compiled (seq (rev [notBeforeClose; Grp 1 (seq (rev cur)); notAfterOpen])) 1).
  rewrite rev_involutive. reflexivity.
Qed.

Lemma plainDetectRegExp_detect t : detectRegExp (plainDetectRegExp t).
Proof. exists (lit t), [], 1. split; [reflexivity | apply not_elem_of_nil]. Qed.

(** X1.  [escapeRegExp] turns any text into a pattern for exactly that
    text: the escaped text is accepted by [new RegExp], it has no group,
    and, matched with regard to case, it matches at a position exactly
    when the text stands there, and then it takes the text and no more. *)
Theorem escapeRegExp_denotes_literal (s : jsstring) :
  compile (escapeRegExp s) = Compiled (lit s) 0
  ∧ (∀ prev rest,
       match_at false (lit s) {| m_prev := prev; m_rest := s ++ rest |}
       = Some ({| m_prev := rev s ++ prev; m_rest := rest |}, []))
  ∧ (∀ st st' cs,
       match_at false (lit s) st = Some (st', cs) →
       m_rest st = s ++ m_rest st' ∧ m_prev st' = rev s ++ m_prev st
       ∧ cs = []).
Proof.
  split; [|split].
  - unfold compile. rewrite <- (app_nil_r (escapeRegExp s)), parse_escapeRegExp.
    cbn [parse]. rewrite app_nil_r, rev_involutive. reflexivity.
  - intros prev rest. unfold match_at. by rewrite lit_match_eq.
  - intros st st' cs H. unfold match_at in H.
    apply lit_match in H as (rest & Hr & Hk). injection Hk as <- <-.
    by repeat split.
Qed.

Lemma escapeRegExp_denotes_literal_witness :
  match_at false (lit (js "a.b")) {| m_prev := []; m_rest := js "a.bc" |}
  = Some ({| m_prev := js "b.a"; m_rest := js "c" |}, [])
  ∧ js "a.bc" = js "a.b" ++ js "c".
Proof.
  split; [reflexivity|].
  apply (proj2 (proj2 (escapeRegExp_denotes_literal (js "a.b")))
           {| m_prev := []; m_rest := js "a.bc" |}
           {| m_prev := js "b.a"; m_rest := js "c" |} []).
  reflexivity.
Defined.

(** ** Which patterns are rejected *)

Lemma absorb_depth t : ∀ stack cur g,
  captureOnly stack →
  match absorb t stack cur g with
  | inl (stack', _, _) => parenDepth t (length stack) = Some (length stack')
  | inr e => e = PatternSyntaxError ∧ parenDepth t (length stack) = None
  end.
Proof.
  induction t as [|c t IH]; intros stack cur g Hc; [reflexivity|].
  cbn [absorb parenDepth].
  destruct (Ascii.eqb c "(").
  { apply (IH ({| f_kind := FCapture (S g);
                  f_saved := Chr "?" :: Chr "\" :: cur |} :: stack)).
    constructor; [by eexists | exact Hc]. }
  destruct (Ascii.eqb c ")").
  { destruct stack as [|f stack]; [by split|].
    inversion Hc as [|? ? [n Hk] Hc']; subst.
    rewrite Hk. cbn [close_group length]. by apply IH. }
  by apply IH.
Qed.

Lemma detectPattern_accepted t :
  match parenDepth t 1 with
  | Some 1 => ∃ re, newRegExp_gi (detectPattern t) = Done re
  | _ => newRegExp_gi (detectPattern t) = Throws SyntaxError
  end.
Proof.
  unfold newRegExp_gi. rewrite detect_compile_start.
  assert (Hc0 : captureOnly [firstGroupFrame])
    by (repeat constructor; by eexists).
  pose proof (absorb_depth t [firstGroupFrame] [] 1 Hc0) as Hd.
  pose proof (absorb_inv t [firstGroupFrame] [] 1 Hc0) as Hinv.
  cbn [length] in Hd.
  destruct (absorb t _ _ _) as [[[stack' cur'] g']|e].
  2:{ destruct Hd as [-> ->]. reflexivity. }
  rewrite Hd. destruct Hinv as (Hc & _ & _).
  destruct stack' as [|f stack'']; [reflexivity|].
  inversion Hc as [|? ? [n Hk] Hc']; subst.
  change (parse (js ")(?!\|?\]\])") (f :: stack'') cur' g')
    with (match close_group (f_kind f) cur' with
          | Some item =>
              match stack'' with
              | [] => Compiled (seq (rev (notBeforeClose :: item :: f_saved f))) g'
              | _ :: _ => PatternSyntaxError
              end
          | None => OutsideFragment
          end).
  rewrite Hk. cbn [close_group length].
  destruct stack'' as [|f2 stack'']; [by eexists | reflexivity].
Qed.

Lemma replacePattern_accepted t :
  match parenDepth t 0 with
  | Some 0 => ∃ re, newRegExp_gi (replacePattern t) = Done re
  | _ => newRegExp_gi (replacePattern t) = Throws SyntaxError
  end.
Proof.
  unfold newRegExp_gi, compile, replacePattern.
  change (parse (js "\b" ++ ?rest) [] [] 0) with (parse rest [] [WordB] 0).
  rewrite parse_title by discriminate.
  pose proof (absorb_depth t [] [WordB] 0 ltac:(constructor)) as Hd.
  cbn [length] in Hd.
  destruct (absorb t _ _ _) as [[[stack' cur'] g']|e].
  2:{ destruct Hd as [-> ->]. reflexivity. }
  rewrite Hd. destruct stack' as [|f stack'']; [by eexists | reflexivity].
Qed.

(** X2.  Which texts the two constructors reject.  The detection pattern of
    a title is accepted exactly when the parentheses of the title, read
    inside the group the pattern puts around the title, leave that group
    open and no other: a title such as "a)(b" is accepted, "(a" and "a)"
    are not.  The pattern of the rewrite is accepted exactly when the
    parentheses of the selected text are balanced.  In every other case
    [new RegExp] throws a syntax error. *)
Theorem patterns_rejected_by_parentheses (t : jsstring) :
  match parenDepth t 1 with
  | Some 1 => ∃ re, newRegExp_gi (detectPattern t) = Done re
  | _ => newRegExp_gi (detectPattern t) = Throws SyntaxError
  end
  ∧ match parenDepth t 0 with
    | Some 0 => ∃ re, newRegExp_gi (replacePattern t) = Done re
    | _ => newRegExp_gi (replacePattern t) = Throws SyntaxError
    end.
Proof. split; [apply detectPattern_accepted | apply replacePattern_accepted]. Qed.

(** ** Matching up to case *)

Lemma sameLetters_length a b : sameLetters a b → length a = length b.
Proof.
  intros H. apply (f_equal length) in H. by rewrite !length_fmap in H.
Qed.

Lemma lit_ic_match s : ∀ k st cs res,
  m true (lit s) k st cs = Some res →
  ∃ occ rest, m_rest st = occ ++ rest ∧ sameLetters occ s
    ∧ k {| m_prev := rev occ ++ m_prev st; m_rest := rest |} cs = Some res.
Proof.
  induction s as [|c s IH]; intros k [prev rest] cs res H.
  - exists [], rest. split; [reflexivity|]. split; [reflexivity | exact H].
  - change (lit (c :: s)) with (Cat (Chr c) (lit s)) in H.
    cbn [m m_rest m_prev canonicalize] in H.
    destruct rest as [|x rest]; [discriminate|].
    destruct (Ascii.eqb (toUpperCase x) (toUpperCase c)) eqn:Hx; [|discriminate].
    apply Ascii.eqb_eq in Hx.
    destruct (IH _ _ _ _ H) as (occ & rest' & Hr & Ho & Hk). cbn in Hr, Hk.
    exists (x :: occ), rest'. cbn [m_rest m_prev]. split; [by rewrite Hr|].
    split; [unfold sameLetters in *; cbn; by rewrite Hx, Ho|].
    cbn [rev]. rewrite <- app_assoc. exact Hk.
Qed.

Lemma lit_ic_match_eq s : ∀ occ k prev rest cs,
  sameLetters occ s →
  m true (lit s) k {| m_prev := prev; m_rest := occ ++ rest |} cs
  = k {| m_prev := rev occ ++ prev; m_rest := rest |} cs.
Proof.
  induction s as [|c s IH]; intros occ k prev rest cs Ho.
  - destruct occ; [reflexivity | discriminate Ho].
  - destruct occ as [|x occ]; [discriminate Ho|].
    injection Ho as Hx Ho.
    change (lit (c :: s)) with (Cat (Chr c) (lit s)).
    cbn [m app m_rest m_prev canonicalize]. rewrite Hx, Ascii.eqb_refl.
    rewrite IH by exact Ho.
    cbn [rev]. rewrite <- app_assoc. reflexivity.
Qed.

(** The search finds a match at or before every offset where there is
    one. *)
Lemma search_complete ic r : ∀ w prev rest' res,
  match_at ic r {| m_prev := rev w ++ prev; m_rest := rest' |} = Some res →
  ∃ i st' cs, search ic r prev (w ++ rest') = Some (i, st', cs)
    ∧ i ≤ length prev + length w.
Proof.
  induction w as [|x w IH]; intros prev rest' [st1 cs1] H.
  - cbn [rev app] in *. exists (length prev), st1, cs1.
    split; [|simpl; lia].
    destruct rest'; cbn [search]; rewrite H; reflexivity.
  - cbn [app search].
    destruct (match_at ic r {| m_prev := prev; m_rest := x :: w ++ rest' |})
      as [[st0 cs0]|] eqn:H0.
    + exists (length prev), st0, cs0. split; [reflexivity | lia].
    + cbn [rev] in H. rewrite <- app_assoc in H.
      destruct (IH _ _ _ H) as (i & st' & cs & Hs & Hi).
      exists i, st', cs. split; [exact Hs | simpl in *; lia].
Qed.

Lemma search_here ic r prev rest st' cs :
  match_at ic r {| m_prev := prev; m_rest := rest |} = Some (st', cs) →
  search ic r prev rest = Some (length prev, st', cs).
Proof. intros H. destruct rest; cbn [search]; rewrite H; reflexivity. Qed.

Lemma toUpperCase_bar x :
  Ascii.eqb (toUpperCase x) (toUpperCase "|") = Ascii.eqb x "|".
Proof. ascii_cases x; reflexivity. Qed.

Lemma toUpperCase_close x :
  Ascii.eqb (toUpperCase x) (toUpperCase "]") = Ascii.eqb x "]".
Proof. ascii_cases x; reflexivity. Qed.

Lemma sameLetters_close occ : sameLetters occ (js "]]") → occ = js "]]".
Proof.
  destruct occ as [|x [|y [|z occ]]]; try discriminate.
  intros [= Hx Hy].
  apply Ascii.eqb_eq in Hx, Hy. rewrite toUpperCase_close in Hx, Hy.
  apply Ascii.eqb_eq in Hx as ->. by apply Ascii.eqb_eq in Hy as ->.
Qed.

(** The lookahead of the detection pattern fails only before a closing
    token. *)
Lemma lookahead_none st cs :
  ¬ (∃ post, m_rest st = js "]]" ++ post) →
  ¬ (∃ post, m_rest st = js "|]]" ++ post) →
  m true (seq [OptChr "|"; Chr "]"; Chr "]"]) (fun a b => Some (a, b)) st cs
  = None.
Proof.
  intros H1 H2.
  change (seq [OptChr "|"; Chr "]"; Chr "]"])
    with (Cat (OptChr "|") (lit (js "]]"))).
  cbn [m].
  assert (Hskip : m true (lit (js "]]")) (fun a b => Some (a, b)) st cs = None).
  { destruct (m true (lit (js "]]")) _ st cs) eqn:Hm; [|reflexivity].
    apply lit_ic_match in Hm as (occ & rest & Hr & Ho & _).
    apply sameLetters_close in Ho as ->. exfalso. apply H1. by exists rest. }
  rewrite !Hskip.
  destruct (m_rest st) as [|x rest] eqn:Hrest; [reflexivity|].
  cbn [canonicalize]. rewrite toUpperCase_bar.
  destruct (Ascii.eqb x "|") eqn:E; [|reflexivity].
  apply Ascii.eqb_eq in E as ->.
  destruct (m true (lit (js "]]")) _ {| m_prev := _ :: _; m_rest := rest |} cs)
    eqn:Hm; [|reflexivity].
  apply lit_ic_match in Hm as (occ & rest' & Hr & Ho & _).
  apply sameLetters_close in Ho as ->. cbn [m_rest] in Hr.
  exfalso. apply H2. exists rest'. by rewrite Hr.
Qed.

(** ** What holds of every link of a scan *)

Lemma execLoop_each (Q : Link → Prop) re note content :
  (∀ lastIndex mt lastIndex' originalText,
     regex_exec re content lastIndex = (Some mt, lastIndex') →
     mr_group mt 1 = Some originalText →
     Q {| title := note_title note;
          context :=
            slice (mr_index mt - 20) (mr_index mt) (mr_input mt)
            ++ originalText
            ++ slice (mr_index mt + length originalText)
                     (mr_index mt + length originalText + 20) (mr_input mt);
          originalMatch := originalText;
          notePath := note_path note;
          matchIndex := (mr_index mt, mr_index mt + length (mr_whole mt)) |}) →
  ∀ fuel lastIndex links,
    execLoop fuel re note content lastIndex = Done links → Forall Q links.
Proof.
  intros HQ. induction fuel as [|fuel IH]; intros lastIndex links H;
    [discriminate|].
  cbn [execLoop] in H.
  destruct (regex_exec re content lastIndex) as [[mt|] lastIndex'] eqn:He.
  2:{ injection H as <-. constructor. }
  destruct (mr_group mt 1) as [originalText|] eqn:Hg; [|discriminate].
  destruct (execLoop fuel re note content lastIndex') as [links'| |] eqn:Hl;
    try discriminate.
  cbn [bind] in H. injection H as <-.
  constructor; [exact (HQ _ _ _ _ He Hg) | exact (IH _ _ Hl)].
Qed.

Lemma detectedLinks_each (Q : NoteEntry → Link → Prop) content :
  (∀ note re fuel links,
     newRegExp_gi (detectPattern (note_title note)) = Done re →
     execLoop fuel re note content 0 = Done links → Forall (Q note) links) →
  ∀ fuel cache found,
    detectedLinks fuel cache content = Done found →
    Forall (fun l => ∃ note, note ∈ cache ∧ Q note l) found.
Proof.
  intros HQ fuel cache. induction cache as [|note cache IH]; intros found H.
  - injection H as <-. constructor.
  - cbn [detectedLinks] in H.
    destruct (newRegExp_gi _) as [re| |] eqn:Hre; try discriminate.
    cbn [bind] in H.
    destruct (execLoop fuel re note content 0) as [links| |] eqn:Hl;
      try discriminate.
    cbn [bind] in H.
    destruct (detectedLinks fuel cache content) as [links'| |] eqn:Hd;
      try discriminate.
    injection H as <-. apply Forall_app. split.
    + eapply Forall_impl; [exact (HQ _ _ _ _ Hre Hl)|].
      intros l Hl'. exists note. split; [apply list_elem_of_here | exact Hl'].
    + eapply Forall_impl; [exact (IH _ eq_refl)|].
      intros l (n & Hn & Hl'). exists n.
      split; [by apply list_elem_of_further | exact Hl'].
Qed.

Lemma detectPotentialLinks_each (Q : NoteEntry → Link → Prop) content :
  (∀ note re fuel links,
     newRegExp_gi (detectPattern (note_title note)) = Done re →
     execLoop fuel re note content 0 = Done links → Forall (Q note) links) →
  ∀ fuel cache links l,
    detectPotentialLinks fuel cache content = Done links →
    l ∈ links → ∃ note, note ∈ cache ∧ Q note l.
Proof.
  intros HQ fuel cache links l H Hl. unfold detectPotentialLinks in H.
  destruct (detectedLinks fuel cache content) as [found| |] eqn:Hd;
    try discriminate.
  injection H as <-. rewrite sortLinks_perm in Hl.
  exact (proj1 (Forall_forall _ _)
           (detectedLinks_each Q content HQ _ _ _ Hd) l Hl).
Qed.

(** The links of a note that is in the cache are among the links found. *)
Lemma detectedLinks_note content fuel note : ∀ cache found,
  detectedLinks fuel cache content = Done found →
  note ∈ cache →
  ∃ re links,
    newRegExp_gi (detectPattern (note_title note)) = Done re
    ∧ execLoop fuel re note content 0 = Done links
    ∧ links ⊆ found.
Proof.
  induction cache as [|n cache IH]; intros found H Hin.
  - by apply not_elem_of_nil in Hin.
  - cbn [detectedLinks] in H.
    destruct (newRegExp_gi (detectPattern (note_title n))) as [re| |] eqn:Hre;
      try discriminate.
    cbn [bind] in H.
    destruct (execLoop fuel re n content 0) as [links| |] eqn:Hl;
      try discriminate.
    cbn [bind] in H.
    destruct (detectedLinks fuel cache content) as [links'| |] eqn:Hd;
      try discriminate.
    injection H as <-.
    apply elem_of_cons in Hin as [->|Hin].
    + exists re, links. split; [exact Hre|]. split; [exact Hl|].
      intros x Hx. apply elem_of_app. by left.
    + destruct (IH _ eq_refl Hin) as (re' & ls & H1 & H2 & H3).
      exists re', ls. split; [exact H1|]. split; [exact H2|].
      intros x Hx. apply elem_of_app. right. by apply H3.
Qed.

(** ** Titles without parentheses *)

(** A match of the expression of a title without parentheses. *)
Lemma plain_match_at t st st' cs :
  match_at true (re_tree (plainDetectRegExp t)) st = Some (st', cs) →
  ∃ occ, m_rest st = occ ++ m_rest st' ∧ sameLetters occ t
    ∧ m_prev st' = rev occ ++ m_prev st
    ∧ cs = [(1, (m_pos st, m_pos st'))].
Proof.
  unfold match_at. cbn [plainDetectRegExp re_tree seq foldr m notAfterOpen].
  destruct (endsWithRev true _ _); [discriminate|].
  intros H. apply lit_ic_match in H as (occ & rest & Hr & Ho & Hk).
  unfold notBeforeClose in Hk. cbn [m] in Hk.
  destruct (m true _ _ _ _); [discriminate|].
  injection Hk as <- <-. exists occ. cbn [m_rest m_prev]. by repeat split.
Qed.

Lemma plain_match_at_eq t a occ b :
  sameLetters occ t →
  ¬ (∃ pre, a = pre ++ js "[[") →
  ¬ (∃ post, b = js "]]" ++ post) →
  ¬ (∃ post, b = js "|]]" ++ post) →
  match_at true (re_tree (plainDetectRegExp t))
    {| m_prev := rev a; m_rest := occ ++ b |}
  = Some ({| m_prev := rev occ ++ rev a; m_rest := b |},
          [(1, (length a, length a + length occ))]).
Proof.
  intros Ho Ha Hb1 Hb2.
  unfold match_at. cbn [plainDetectRegExp re_tree seq foldr m notAfterOpen m_prev].
  assert (endsWithRev true (rev a) (js "[[") = false) as ->.
  { unfold endsWithRev. apply bool_decide_eq_false. intros E.
    apply Ha. cbn [length] in E.
    destruct (rev a) as [|x [|y p]] eqn:Hra; try discriminate E.
    cbn in E. injection E as Hx Hy.
    apply Ascii.eqb_eq in Hx, Hy. rewrite toUpperCase_open in Hx, Hy.
    apply Ascii.eqb_eq in Hx as ->. apply Ascii.eqb_eq in Hy as ->.
    exists (rev p). rewrite <- (rev_involutive a), Hra. cbn [rev].
    by rewrite <- app_assoc. }
  rewrite lit_ic_match_eq by exact Ho.
  unfold notBeforeClose. cbn [m].
  rewrite lookahead_none by (cbn [m_rest]; assumption).
  unfold m_pos. cbn [m_prev]. rewrite length_app, !length_rev.
  by rewrite Nat.add_comm.
Qed.

Lemma plain_exec_spec t content lastIndex mt lastIndex' :
  regex_exec (plainDetectRegExp t) content lastIndex = (Some mt, lastIndex') →
  ∃ occ, sameLetters occ t
    ∧ mr_group mt 1 = Some occ
    ∧ mr_whole mt = occ
    ∧ occ = slice (mr_index mt) (mr_index mt + length t) content
    ∧ mr_index mt + length t ≤ length content.
Proof.
  intros H. apply regex_exec_spec in H; [|reflexivity].
  destruct H as (st' & H1 & H2 & H3 & Hm & Hat & H4 & H5).
  cbn [re_ignoreCase] in Hm.
  apply plain_match_at in Hm as (occ & Hr & Ho & Hp & Hcs).
  cbn [offsetState m_rest m_prev] in Hr, Hp.
  pose proof (sameLetters_length _ _ Ho) as Hlen.
  assert (Hpos : m_pos (offsetState content (mr_index mt)) = mr_index mt)
    by apply (offsetState_atOffset _ _ H2).
  assert (Hend : mr_end mt = mr_index mt + length occ).
  { destruct Hat as [_ <-]. unfold m_pos. rewrite Hp, length_app, !length_rev.
    rewrite length_take. lia. }
  assert (Hslice : slice (mr_index mt) (mr_index mt + length occ) content = occ).
  { unfold slice. rewrite Hr.
    replace (mr_index mt + length occ - mr_index mt) with (length occ) by lia.
    by rewrite take_app_length. }
  assert (Hle : mr_index mt + length occ ≤ length content).
  { rewrite <- Hend. exact (atOffset_le _ _ _ Hat). }
  exists occ. split; [exact Ho|]. split; [|split; [|split]].
  - unfold mr_group. rewrite Hcs.
    cbn [capture_lookup Nat.eqb fmap option_fmap option_map fst snd].
    rewrite Hpos, H3. destruct Hat as [_ ->]. by rewrite Hend, Hslice.
  - unfold mr_whole. by rewrite H3, Hend, Hslice.
  - by rewrite <- Hlen, Hslice.
  - by rewrite <- Hlen.
Qed.

(** X3.  For a title without parentheses, every occurrence the scan reports
    spells the title up to the case of letters, spans exactly the length
    of the title, lies inside the text, and its matched text is the text
    at its span. *)
Theorem plain_title_occurrence_spells_title (fuel : nat)
    (cache : list NoteEntry) (content : jsstring) (links : list Link)
    (l : Link) :
  detectPotentialLinks fuel cache content = Done links →
  l ∈ links →
  parenFree (title l) →
  sameLetters (originalMatch l) (title l)
  ∧ endOf l = startOf l + length (title l)
  ∧ endOf l ≤ length content
  ∧ originalMatch l = slice (startOf l) (endOf l) content.
Proof.
  intros H Hl Hp.
  destruct (detectPotentialLinks_each
    (fun note l => title l = note_title note
       ∧ (parenFree (note_title note) →
          sameLetters (originalMatch l) (title l)
          ∧ endOf l = startOf l + length (title l)
          ∧ endOf l ≤ length content
          ∧ originalMatch l = slice (startOf l) (endOf l) content))
    content) with (fuel := fuel) (cache := cache) (links := links) (l := l)
    as (note & _ & Ht & HQ); [|exact H|exact Hl|].
  - clear. intros note re fuel links Hre Hloop.
    eapply execLoop_each; [|exact Hloop].
    intros lastIndex mt lastIndex' originalText He Hg.
    split; [reflexivity|]. intros Hp.
    rewrite (detectPattern_compile _ Hp) in Hre. injection Hre as <-.
    destruct (plain_exec_spec _ _ _ _ _ He) as (occ & Ho & Hg' & Hw & Hs & Hle).
    rewrite Hg in Hg'. injection Hg' as ->.
    unfold startOf, endOf. cbn [title originalMatch matchIndex fst snd].
    rewrite Hw, (sameLetters_length _ _ Ho).
    split; [exact Ho|]. split; [reflexivity|]. split; [exact Hle | exact Hs].
  - apply HQ. by rewrite <- Ht.
Qed.

Lemma plain_title_occurrence_spells_title_witness :
  sameLetters (originalMatch cafeLink) (title cafeLink)
  ∧ endOf cafeLink = startOf cafeLink + length (title cafeLink)
  ∧ endOf cafeLink ≤ length (cafeUpper ++ js " au lait")
  ∧ originalMatch cafeLink
    = slice (startOf cafeLink) (endOf cafeLink) (cafeUpper ++ js " au lait").
Proof.
  apply (plain_title_occurrence_spells_title 13 [cafeNote]
           (cafeUpper ++ js " au lait") [cafeLink]).
  - vm_compute. reflexivity.
  - apply list_elem_of_here.
  - repeat constructor.
Defined.

Lemma plain_cache_scans content fuel : ∀ cache,
  Forall (fun n => plainTitle (note_title n)) cache →
  length content < fuel →
  ∃ found, detectedLinks fuel cache content = Done found.
Proof.
  intros cache Hc Hf.
  assert (Hne : detectedLinks fuel cache content ≠ OutOfFuel).
  { apply detectedLinks_terminates; [|exact Hf].
    intros note Hn. exact (proj2 (proj1 (Forall_forall _ _) Hc note Hn)). }
  induction cache as [|note cache IH]; [by eexists|].
  apply Forall_cons in Hc as [[Hp Hne'] Hc].
  cbn [detectedLinks] in *. rewrite (detectPattern_compile _ Hp) in *.
  cbn [bind] in *.
  pose proof (execLoop_no_throw _ note content
                (plainDetectRegExp_detect (note_title note)) fuel 0) as Hnt.
  destruct (execLoop fuel _ note content 0) as [links|e|]; cbn [bind] in *.
  - destruct IH as [found Hd]; [exact Hc| |].
    + intros E. rewrite E in Hne. by apply Hne.
    + rewrite Hd. by eexists.
  - exfalso. by apply (Hnt e).
  - exfalso. by apply Hne.
Qed.

(** X4.  The scan finds a title without parentheses wherever it stands
    outside brackets.  Let every cached title be non-empty and without
    parentheses, and let the text hold the title of a cached note, up to
    case, at a place that is not right after "[[" and not right before
    "]]" or "|]]".  Then the scan returns, and it reports an occurrence of
    that note that starts at that place or before it. *)
Theorem scan_finds_plain_title (fuel : nat) (cache : list NoteEntry)
    (content : jsstring) (note : NoteEntry) (a occ b : jsstring) :
  Forall (fun n => plainTitle (note_title n)) cache →
  length content < fuel →
  note ∈ cache →
  content = a ++ occ ++ b →
  sameLetters occ (note_title note) →
  ¬ (∃ pre, a = pre ++ js "[[") →
  ¬ (∃ post, b = js "]]" ++ post) →
  ¬ (∃ post, b = js "|]]" ++ post) →
  ∃ links l,
    detectPotentialLinks fuel cache content = Done links
    ∧ l ∈ links ∧ linkOf note l ∧ startOf l ≤ length a.
Proof.
  intros Hc Hf Hin -> Ho Ha Hb1 Hb2.
  destruct (plain_cache_scans _ _ _ Hc Hf) as [found Hd].
  unfold detectPotentialLinks. rewrite Hd. cbn [bind].
  destruct (detectedLinks_note _ _ _ _ _ Hd Hin) as (re & ls & Hre & Hl & Hsub).
  pose proof (proj1 (proj1 (Forall_forall _ _) Hc note Hin)) as Hp.
  rewrite (detectPattern_compile _ Hp) in Hre. injection Hre as <-.
  pose proof (plain_match_at_eq _ _ _ _ Ho Ha Hb1 Hb2) as Hm.
  rewrite <- (app_nil_r (rev a)) in Hm.
  destruct (search_complete true _ a [] (occ ++ b) _ Hm)
    as (i & st' & cs & Hs & Hi).
  destruct fuel as [|fuel]; [lia|]. cbn [execLoop] in Hl.
  assert (He : regex_exec (plainDetectRegExp (note_title note))
                 (a ++ occ ++ b) 0
               = (Some {| mr_index := i; mr_end := m_pos st';
                          mr_captures := cs; mr_input := a ++ occ ++ b |},
                  m_pos st')).
  { unfold regex_exec.
    change (re_global (plainDetectRegExp (note_title note))) with true.
    change (re_ignoreCase (plainDetectRegExp (note_title note))) with true.
    cbv iota.
    change (length (a ++ occ ++ b) <? 0) with false. cbv iota.
    rewrite take_0, drop_0. cbn [rev]. rewrite Hs. reflexivity. }
  rewrite He in Hl.
  destruct (mr_group _ 1) as [originalText|]; [|discriminate].
  destruct (execLoop fuel _ note _ _) as [rest| |]; try discriminate.
  cbn [bind] in Hl. injection Hl as <-.
  eexists _, _. split; [reflexivity|]. split.
  - rewrite sortLinks_perm. apply Hsub, list_elem_of_here.
  - split; [split; reflexivity|]. unfold startOf. cbn. simpl in Hi. lia.
Qed.

Lemma scan_finds_plain_title_witness :
  ∃ links l,
    detectPotentialLinks 24 [noteNamed "Project Alpha"]
      (js "See project alpha notes") = Done links
    ∧ l ∈ links ∧ linkOf (noteNamed "Project Alpha") l
    ∧ startOf l ≤ length (js "See ").
Proof.
  apply (scan_finds_plain_title 24 [noteNamed "Project Alpha"]
           (js "See project alpha notes") (noteNamed "Project Alpha")
           (js "See ") (js "project alpha") (js " notes")).
  - repeat constructor. discriminate.
  - vm_compute. lia.
  - apply list_elem_of_here.
  - reflexivity.
  - reflexivity.
  - intros [pre H]. apply (f_equal (@rev ascii)) in H. rewrite rev_app_distr in H.
    discriminate H.
  - intros [post H]. discriminate H.
  - intros [post H]. discriminate H.
Defined.

(** ** Occurrences of one entry *)

Section DisjointLoop.
Variables (re : RegExp) (note : NoteEntry) (content : jsstring).
Hypothesis Hre : detectRegExp re.

Lemma execLoop_disjoint : ∀ fuel lastIndex links,
  execLoop fuel re note content lastIndex = Done links →
  Forall (fun l => lastIndex ≤ startOf l) links
  ∧ StronglySorted before links.
Proof.
  induction fuel as [|fuel IH]; intros lastIndex links H; [discriminate|].
  cbn [execLoop] in H.
  destruct (regex_exec re content lastIndex) as [[mt|] lastIndex'] eqn:He.
  2:{ injection H as <-. split; constructor. }
  destruct (detect_exec_spec _ _ _ _ _ Hre He)
    as (H1 & H2 & H3 & H4 & -> & _ & _ & _ & e1 & G1 & G2 & Ho).
  rewrite Ho in H.
  destruct (execLoop fuel re note content (mr_end mt)) as [links'| |] eqn:Hl;
    try discriminate.
  cbn [bind] in H. injection H as <-.
  destruct (IH _ _ Hl) as (I1 & I2).
  assert (Hwhole : mr_index mt + length (mr_whole mt) = mr_end mt).
  { unfold mr_whole. rewrite H4, slice_length; lia. }
  split.
  - constructor; [exact H1|].
    eapply Forall_impl; [exact I1|]. intros l Hle. simpl in Hle. lia.
  - constructor; [exact I2|].
    eapply Forall_impl; [exact I1|]. intros l Hle.
    unfold before, endOf. cbn [matchIndex snd]. rewrite Hwhole. exact Hle.
Qed.
End DisjointLoop.

Lemma detectedLinks_disjoint content fuel : ∀ cache found,
  detectedLinks fuel cache content = Done found →
  ∃ perNote,
    found = concat perNote
    ∧ Forall2 (fun note ls =>
                 Forall (linkOf note) ls ∧ StronglySorted before ls)
        cache perNote.
Proof.
  induction cache as [|note cache IH]; intros found H.
  - injection H as <-. exists []. split; [reflexivity | constructor].
  - cbn [detectedLinks] in H.
    destruct (newRegExp_gi _) as [re| |] eqn:Hre; try discriminate.
    cbn [bind] in H.
    destruct (execLoop fuel re note content 0) as [ls| |] eqn:Hl;
      try discriminate.
    cbn [bind] in H.
    destruct (detectedLinks fuel cache content) as [links'| |] eqn:Hd;
      try discriminate.
    injection H as <-.
    destruct (IH _ eq_refl) as (perNote & -> & HF).
    apply newRegExp_detect in Hre as [Hre _].
    destruct (execLoop_sound _ _ _ Hre _ _ _ Hl) as (_ & E2 & _).
    destruct (execLoop_disjoint _ _ _ Hre _ _ _ Hl) as (_ & E3).
    exists (ls :: perNote). split; [reflexivity|].
    constructor; [by split | exact HF].
Qed.

(** X5.  The occurrences reported for one cache entry are in the order of
    the text and do not overlap: each starts where the one before it has
    ended, or later.  The result of a scan is the sorted concatenation of
    these lists, one for each entry in cache order. *)
Theorem occurrences_of_one_entry_disjoint (fuel : nat)
    (cache : list NoteEntry) (content : jsstring) (links : list Link) :
  detectPotentialLinks fuel cache content = Done links →
  ∃ perNote,
    links = sortLinks (concat perNote)
    ∧ Forall2 (fun note ls =>
                 Forall (linkOf note) ls ∧ StronglySorted before ls)
        cache perNote.
Proof.
  unfold detectPotentialLinks. intros H.
  destruct (detectedLinks fuel cache content) as [found| |] eqn:Hd;
    try discriminate.
  injection H as <-.
  destruct (detectedLinks_disjoint _ _ _ _ Hd) as (perNote & -> & HF).
  by exists perNote.
Qed.

Lemma occurrences_of_one_entry_disjoint_witness :
  ∃ perNote,
    [firstAlphaLink; alphaAgainLink] = sortLinks (concat perNote)
    ∧ Forall2 (fun note ls =>
                 Forall (linkOf note) ls ∧ StronglySorted before ls)
        [noteNamed "Alpha"] perNote.
Proof.
  apply (occurrences_of_one_entry_disjoint 12 [noteNamed "Alpha"]
           (js "Alpha Alpha")).
  vm_compute. reflexivity.
Defined.

(** ** The context of an occurrence *)

Lemma slice_app a b c (str : jsstring) :
  a ≤ b → b ≤ c → slice a b str ++ slice b c str = slice a c str.
Proof.
  intros H1 H2. unfold slice.
  replace (drop b str) with (drop (b - a) (drop a str))
    by (rewrite drop_drop; f_equal; lia).
  rewrite take_take_drop. f_equal. lia.
Qed.

(** X6.  The context of a reported occurrence is one window of the scanned
    text: it runs from 20 characters before the occurrence to 20
    characters after the matched text, cut at the ends of the text; so it
    is at most 40 characters longer than the matched text. *)
Theorem context_is_window (fuel : nat) (cache : list NoteEntry)
    (content : jsstring) (links : list Link) (l : Link) :
  detectPotentialLinks fuel cache content = Done links →
  l ∈ links →
  context l
  = slice (startOf l - 20) (startOf l + length (originalMatch l) + 20) content
  ∧ length (context l) ≤ length (originalMatch l) + 40.
Proof.
  intros H Hl.
  assert (Hw : context l
    = slice (startOf l - 20) (startOf l + length (originalMatch l) + 20) content).
  { destruct (detectPotentialLinks_each
      (fun _ l => context l
         = slice (startOf l - 20) (startOf l + length (originalMatch l) + 20)
             content) content)
      with (fuel := fuel) (cache := cache) (links := links) (l := l)
      as (note & _ & HQ); [|exact H|exact Hl|exact HQ].
    clear. intros note re fuel links Hre Hloop.
    pose proof (newRegExp_detect _ _ Hre) as [Hd _].
    eapply execLoop_each; [|exact Hloop].
    intros lastIndex mt lastIndex' originalText He Hg.
    destruct (detect_exec_spec _ _ _ _ _ Hd He)
      as (_ & _ & H3 & H4 & _ & _ & _ & _ & e1 & G1 & G2 & Ho).
    rewrite Hg in Ho. injection Ho as ->.
    unfold startOf. cbn [context originalMatch matchIndex fst].
    rewrite H4, slice_length by lia.
    replace (mr_index mt + (e1 - mr_index mt)) with e1 by lia.
    rewrite slice_app by lia. rewrite slice_app by lia. reflexivity. }
  split; [exact Hw|]. rewrite Hw. unfold slice. rewrite length_take. lia.
Qed.

Lemma context_is_window_witness :
  context longTextLink
  = slice (startOf longTextLink - 20)
      (startOf longTextLink + length (originalMatch longTextLink) + 20)
      longText
  ∧ length (context longTextLink) ≤ length (originalMatch longTextLink) + 40.
Proof.
  apply (context_is_window 80 [noteNamed "Alpha"] longText [longTextLink]).
  - vm_compute. reflexivity.
  - apply list_elem_of_here.
Defined.

(** ** From the scan to the rewrite *)

Lemma taken_refl P st : taken P st st.
Proof. exists []. by repeat split. Qed.

Lemma taken_trans P st1 st2 st3 :
  taken P st1 st2 → taken P st2 st3 → taken P st1 st3.
Proof.
  intros (w1 & Hr1 & Hp1 & H1) (w2 & Hr2 & Hp2 & H2).
  exists (w1 ++ w2). split; [|split].
  - rewrite Hr1, Hr2, app_assoc. reflexivity.
  - rewrite Hp2, Hp1, rev_app_distr, app_assoc. reflexivity.
  - by apply Forall_app.
Qed.

Lemma taken_step (P : ascii → Prop) x prev rest :
  P x →
  taken P {| m_prev := prev; m_rest := x :: rest |}
          {| m_prev := x :: prev; m_rest := rest |}.
Proof. intros Hx. exists [x]. repeat split. by constructor. Qed.

Lemma m_consumed P r : consumes P r → ∀ k st cs res,
  m true r k st cs = Some res →
  ∃ st' cs', k st' cs' = Some res ∧ taken P st st'.
Proof.
  induction r as [|c|c| | | |r1 IH1 r2 IH2|n r IH|s|r IH];
    intros Hc k st cs res H; cbn [m consumes canonicalize] in H, Hc.
  - exists st, cs. split; [exact H | apply taken_refl].
  - destruct st as [prev [|x rest]]; cbn in H; [discriminate|].
    destruct (Ascii.eqb _ _) eqn:E; [|discriminate].
    apply Ascii.eqb_eq in E.
    eexists _, _. split; [exact H | apply taken_step, Hc, E].
  - destruct st as [prev [|x rest]]; cbn in H.
    + eexists _, _. split; [exact H | apply taken_refl].
    + destruct (Ascii.eqb _ _) eqn:E.
      * apply Ascii.eqb_eq in E.
        destruct (k {| m_prev := x :: prev; m_rest := rest |} cs) eqn:Hk.
        -- injection H as <-. eexists _, _. split; [exact Hk|].
           apply taken_step, Hc, E.
        -- eexists _, _. split; [exact H | apply taken_refl].
      * eexists _, _. split; [exact H | apply taken_refl].
  - destruct (m_prev st); [|discriminate].
    exists st, cs. split; [exact H | apply taken_refl].
  - destruct (xorb _ _); [|discriminate].
    exists st, cs. split; [exact H | apply taken_refl].
  - destruct st as [prev rest]. cbn in H.
    revert prev H. induction rest as [|x rest IHrest]; intros prev H;
      [discriminate|].
    destruct (k {| m_prev := x :: prev; m_rest := rest |} cs) eqn:Hk.
    + injection H as <-. eexists _, _. split; [exact Hk|].
      apply taken_step, Hc.
    + destruct (IHrest _ H) as (st' & cs' & Hk' & Ht).
      exists st', cs'. split; [exact Hk'|].
      eapply taken_trans; [apply taken_step, Hc | exact Ht].
  - destruct Hc as [Hc1 Hc2].
    destruct (IH1 Hc1 _ _ _ _ H) as (st1 & cs1 & H1 & Ht1).
    destruct (IH2 Hc2 _ _ _ _ H1) as (st2 & cs2 & H2 & Ht2).
    exists st2, cs2. split; [exact H2 | exact (taken_trans _ _ _ _ Ht1 Ht2)].
  - destruct (IH Hc _ _ _ _ H) as (st1 & cs1 & H1 & Ht1).
    eexists _, _. split; [exact H1 | exact Ht1].
  - destruct (endsWithRev _ _ _); [discriminate|].
    exists st, cs. split; [exact H | apply taken_refl].
  - destruct (m true r _ st cs); [discriminate|].
    exists st, cs. split; [exact H | apply taken_refl].
Qed.

Lemma consumes_seq P items :
  Forall (consumes P) items → consumes P (seq items).
Proof. induction 1; [exact I | by split]. Qed.

Lemma notParen_upper c x :
  isParen c = false → toUpperCase x = toUpperCase c → notParen x.
Proof.
  unfold notParen, isParen. intros Hc E.
  rewrite <- (toUpperCase_lparen x), <- (toUpperCase_rparen x), E.
  by rewrite toUpperCase_lparen, toUpperCase_rparen.
Qed.

(** The items read from the pattern text of a title take no parenthesis
    from the text: a parenthesis of the title opens or closes a group. *)
Lemma absorb_consumes t : ∀ stack cur g,
  captureOnly stack →
  Forall (frameConsumes notParen) stack →
  Forall (consumes notParen) cur →
  match absorb t stack cur g with
  | inl (stack', cur', g') =>
      Forall (frameConsumes notParen) stack'
      ∧ Forall (consumes notParen) cur'
  | inr _ => True
  end.
Proof.
  assert (Hq : consumes notParen (Chr "?")).
  { intros x E. by apply (notParen_upper "?"). }
  assert (Hb : consumes notParen (Chr "\")).
  { intros x E. by apply (notParen_upper "\"). }
  induction t as [|c t IH]; intros stack cur g Hc Hs Hcur; [by split|].
  cbn [absorb].
  destruct (Ascii.eqb c "(") eqn:Ho.
  { apply IH.
    - constructor; [by eexists | exact Hc].
    - constructor; [|exact Hs]. unfold frameConsumes. cbn [f_saved].
      by repeat constructor.
    - constructor. }
  destruct (Ascii.eqb c ")") eqn:Hcl.
  { destruct stack as [|f stack]; [exact I|].
    inversion Hc as [|? ? [n Hk] Hc']; subst.
    inversion Hs as [|? ? Hf Hs']; subst.
    rewrite Hk. cbn [close_group]. apply IH; [exact Hc' | exact Hs'|].
    constructor; [|exact Hf]. cbn [consumes].
    apply consumes_seq. apply Forall_rev. by repeat constructor. }
  apply IH; [exact Hc | exact Hs|].
  constructor; [|exact Hcur]. intros x E.
  apply (notParen_upper c); [|exact E].
  unfold isParen. by rewrite Ho, Hcl.
Qed.

Lemma detect_compile_consumes t r g :
  compile (detectPattern t) = Compiled r g → consumes notParen r.
Proof.
  rewrite detect_compile_start.
  assert (Hc0 : captureOnly [firstGroupFrame])
    by (repeat constructor; by eexists).
  pose proof (absorb_inv t [firstGroupFrame] [] 1 Hc0) as Hinv.
  pose proof (absorb_consumes t [firstGroupFrame] [] 1 Hc0) as Hcon.
  destruct (absorb t _ _ _) as [[[stack' cur'] g']|e].
  2:{ rewrite Hinv. discriminate. }
  destruct Hinv as (Hc & _ & _).
  destruct Hcon as (Hs & Hcur); [by repeat constructor | constructor|].
  destruct stack' as [|f stack'']; [discriminate|].
  inversion Hc as [|? ? [n Hk] Hc']; subst.
  inversion Hs as [|? ? Hf Hs']; subst.
  change (parse (js ")(?!\|?\]\])") (f :: stack'') cur' g')
    with (match close_group (f_kind f) cur' with
          | Some item =>
              match stack'' with
              | [] => Compiled (seq (rev (notBeforeClose :: item :: f_saved f))) g'
              | _ :: _ => PatternSyntaxError
              end
          | None => OutsideFragment
          end).
  rewrite Hk. cbn [close_group].
  destruct stack'' as [|f2 stack'']; [|discriminate].
  intros [= <- <-]. apply consumes_seq. rewrite !Forall_app.
  split; [split|].
  - apply Forall_rev, Hf.
  - constructor; [|constructor]. cbn [consumes].
    by apply consumes_seq, Forall_rev.
  - by repeat constructor.
Qed.

(** The text the scan hands to the rewrite holds no parenthesis. *)
Lemma execLoop_originalMatch_parenFree t re note content fuel links :
  newRegExp_gi (detectPattern t) = Done re →
  execLoop fuel re note content 0 = Done links →
  Forall (fun l => parenFree (originalMatch l)) links.
Proof.
  intros Hre. pose proof (newRegExp_detect _ _ Hre) as [Hd _].
  assert (Hcon : consumes notParen (re_tree re) ∧ re_ignoreCase re = true).
  { unfold newRegExp_gi in Hre.
    destruct (compile (detectPattern t)) as [r g| |] eqn:Hc; try discriminate.
    injection Hre as <-. split; [|reflexivity].
    exact (detect_compile_consumes _ _ _ Hc). }
  destruct Hcon as [Hcon Hic].
  apply execLoop_each.
  intros lastIndex mt lastIndex' originalText He Hg. cbn [originalMatch].
  destruct (detect_exec_spec _ _ _ _ _ Hd He)
    as (_ & _ & _ & _ & _ & _ & _ & _ & e1 & G1 & G2 & Ho).
  rewrite Hg in Ho. injection Ho as ->.
  apply regex_exec_spec in He; [|exact (detectRegExp_global _ Hd)].
  destruct He as (st' & _ & H2 & _ & Hm & Hat & _).
  rewrite Hic in Hm. unfold match_at in Hm.
  destruct (m_consumed _ _ Hcon _ _ _ _ Hm) as (st1 & cs1 & Hk & w & Hr & Hp & Hw).
  injection Hk as -> ->.
  cbn [offsetState m_rest m_prev] in Hr, Hp.
  assert (Hend : mr_end mt = mr_index mt + length w).
  { destruct Hat as [_ <-]. unfold m_pos.
    rewrite Hp, length_app, !length_rev, length_take. lia. }
  unfold parenFree, slice. rewrite Hr, take_app_le by lia.
  by apply Forall_take.
Qed.

Lemma applyLinks_parenFree s : ∀ linksToInsert content,
  Forall (fun l => parenFree (originalMatch l)) linksToInsert →
  ∃ content', applyLinks s linksToInsert content = Done content'.
Proof.
  induction linksToInsert as [|link links IH]; intros content H.
  - by eexists.
  - apply Forall_cons in H as [Hp H]. cbn [applyLinks].
    rewrite (replacePattern_compile _ Hp). cbn [bind]. by apply IH.
Qed.

(** X7.  Whatever is selected among the links a scan returned, the rewrite
    of a file that can be read succeeds: the matched text of a reported
    occurrence never holds a parenthesis, so no pattern the rewrite builds
    from it is rejected.  The rewrite stores the new text under the path of
    the active file and leaves every other file as it was. *)
Theorem rewrite_accepts_scanned_links (fuel : nat) (cache : list NoteEntry)
    (content : jsstring) (links : list Link) (p : Plugin) (v : Vault)
    (activeFile : AbstractFile) (stored : jsstring)
    (linksToInsert : list Link) :
  detectPotentialLinks fuel cache content = Done links →
  linksToInsert ⊆ links →
  v !! path activeFile = Some stored →
  Forall (fun l => parenFree (originalMatch l)) linksToInsert
  ∧ ∃ content' v',
      applyLinks (settings p) linksToInsert stored = Done content'
      ∧ insertLinks p v activeFile linksToInsert = Done v'
      ∧ v' !! path activeFile = Some content'
      ∧ ∀ other, other ≠ path activeFile → v' !! other = v !! other.
Proof.
  intros H Hsub Hv.
  assert (Hall : Forall (fun l => parenFree (originalMatch l)) linksToInsert).
  { apply Forall_forall. intros l Hl. apply Hsub in Hl.
    destruct (detectPotentialLinks_each
                (fun _ l => parenFree (originalMatch l)) content)
      with (fuel := fuel) (cache := cache) (links := links) (l := l)
      as (note & _ & HQ); [|exact H|exact Hl|exact HQ].
    intros note re fuel' ls Hre Hloop.
    exact (execLoop_originalMatch_parenFree _ _ _ _ _ _ Hre Hloop). }
  split; [exact Hall|].
  destruct (applyLinks_parenFree (settings p) _ stored Hall) as [content' Ha].
  exists content', (<[path activeFile := content']> v).
  split; [exact Ha|]. split; [|split].
  - unfold insertLinks, vault_read. rewrite Hv. cbn [bind]. rewrite Ha.
    reflexivity.
  - apply lookup_insert_eq.
  - intros other Ho. by apply lookup_insert_ne.
Qed.

Lemma rewrite_accepts_scanned_links_witness :
  Forall (fun l => parenFree (originalMatch l)) [lowerCaseLink]
  ∧ ∃ content' v',
      applyLinks (settings (pluginWith aliasSettings []))
        [lowerCaseLink] (js "Alpha one") = Done content'
      ∧ insertLinks (pluginWith aliasSettings []) vaultOne
          (fileAt "n.md" "n") [lowerCaseLink] = Done v'
      ∧ v' !! path (fileAt "n.md" "n") = Some content'
      ∧ ∀ other, other ≠ path (fileAt "n.md" "n") →
          v' !! other = vaultOne !! other.
Proof.
  apply (rewrite_accepts_scanned_links 24 [noteNamed "Project Alpha"]
           (js "See project alpha notes") [lowerCaseLink]).
  - vm_compute. reflexivity.
  - intros l Hl. exact Hl.
  - reflexivity.
Defined.

(** ** What the rewrite replaces *)

Lemma isWordChar_toUpperCase x : isWordChar (toUpperCase x) = isWordChar x.
Proof. ascii_cases x; reflexivity. Qed.

Lemma isWordChar_upper x c :
  toUpperCase x = toUpperCase c → isWordChar x = isWordChar c.
Proof.
  intros E. by rewrite <- (isWordChar_toUpperCase x), E, isWordChar_toUpperCase.
Qed.

Lemma lit_then ic r o : ∀ k st cs,
  m ic (seq ((Chr <$> o) ++ [r])) k st cs
  = m ic (lit o) (fun st' cs' => m ic r k st' cs') st cs.
Proof.
  induction o as [|c o IH]; intros k st cs; [reflexivity|].
  change (seq ((Chr <$> c :: o) ++ [r]))
    with (Cat (Chr c) (seq ((Chr <$> o) ++ [r]))).
  change (lit (c :: o)) with (Cat (Chr c) (lit o)).
  cbn [m]. destruct (m_rest st) as [|x rest]; [reflexivity|].
  destruct (Ascii.eqb _ _); [apply IH | reflexivity].
Qed.

Lemma plainReplace_match_at o st :
  match_at true (re_tree (plainReplaceRegExp o)) st
  = if wordBoundary st
    then m true (lit o)
           (fun st' cs' => if wordBoundary st' then Some (st', cs') else None)
           st []
    else None.
Proof.
  unfold match_at. cbn [plainReplaceRegExp re_tree].
  change (seq (WordB :: (Chr <$> o) ++ [WordB]))
    with (Cat WordB (seq ((Chr <$> o) ++ [WordB]))).
  cbn [m]. fold (wordBoundary st). destruct (wordBoundary st); [|reflexivity].
  rewrite lit_then. reflexivity.
Qed.

(** A match of the rewrite's expression: the matched text spells the
    selected text up to case and stands between two word boundaries. *)
Lemma plainReplace_match o st st' cs :
  match_at true (re_tree (plainReplaceRegExp o)) st = Some (st', cs) →
  ∃ occ, m_rest st = occ ++ m_rest st'
    ∧ m_prev st' = rev occ ++ m_prev st
    ∧ sameLetters occ o
    ∧ wordBoundary st = true ∧ wordBoundary st' = true.
Proof.
  rewrite plainReplace_match_at.
  destruct (wordBoundary st) eqn:Hb; [|discriminate].
  intros H. apply lit_ic_match in H as (occ & rest & Hr & Ho & Hk).
  destruct (wordBoundary _) eqn:Hb' in Hk; [|discriminate].
  injection Hk as <- <-. exists occ. by repeat split.
Qed.

Lemma wordBefore_offset pre rest :
  wordBefore {| m_prev := rev pre; m_rest := rest |} = endsWithWordChar pre.
Proof.
  unfold wordBefore, endsWithWordChar. cbn [m_prev].
  destruct pre as [|c pre] using rev_ind; [reflexivity|].
  by rewrite rev_app_distr, last_snoc.
Qed.

(** X8.  A rewrite with one link whose matched text has no parenthesis
    changes the text only if the text holds that matched text, up to case,
    between two word boundaries: a place where exactly one of the two
    neighbouring characters is a letter, a digit or an underscore.  So a
    matched text that ends with another character, such as "C++", is
    replaced only where a word character follows it directly. *)
Theorem rewrite_needs_word_boundaries (s : Settings) (link : Link)
    (content content' : jsstring) :
  parenFree (originalMatch link) →
  applyLinks s [link] content = Done content' →
  content' ≠ content →
  ∃ pre occ post,
    content = pre ++ occ ++ post
    ∧ sameLetters occ (originalMatch link)
    ∧ xorb (endsWithWordChar pre) (startsWithWordChar (occ ++ post)) = true
    ∧ xorb (endsWithWordChar (pre ++ occ)) (startsWithWordChar post) = true.
Proof.
  intros Hp H Hne. cbn [applyLinks] in H.
  rewrite (replacePattern_compile _ Hp) in H. cbn [bind] in H.
  injection H as <-.
  unfold string_replace in Hne. cbn [plainReplaceRegExp re_global] in Hne.
  rewrite Nat.add_comm in Hne. cbn [Nat.add replace_matches] in Hne.
  destruct (regex_exec _ content 0) as [[mt|] lastIndex'] eqn:He.
  2:{ exfalso. apply Hne. cbn [replace_build]. apply drop_0. }
  clear Hne. apply regex_exec_spec in He; [|reflexivity].
  destruct He as (st' & _ & H2 & _ & Hm & Hat & _).
  cbn [re_ignoreCase] in Hm.
  apply plainReplace_match in Hm as (occ & Hr & Hpv & Ho & B1 & B2).
  cbn [offsetState m_rest m_prev] in Hr, Hpv.
  exists (take (mr_index mt) content), occ, (m_rest st').
  split; [by rewrite <- Hr, take_drop|]. split; [exact Ho|].
  unfold wordBoundary in B1, B2. split.
  - rewrite <- B1, <- Hr. unfold offsetState.
    rewrite wordBefore_offset. reflexivity.
  - rewrite <- B2. destruct st' as [prev' rest']. cbn [m_prev m_rest] in *.
    rewrite Hpv, <- rev_app_distr, wordBefore_offset. reflexivity.
Qed.

Lemma rewrite_needs_word_boundaries_witness :
  ∃ pre occ post,
    cafe ++ js "x" = pre ++ occ ++ post
    ∧ sameLetters occ (originalMatch cafeLink)
    ∧ xorb (endsWithWordChar pre) (startsWithWordChar (occ ++ post)) = true
    ∧ xorb (endsWithWordChar (pre ++ occ)) (startsWithWordChar post) = true.
Proof.
  apply (rewrite_needs_word_boundaries defaultSettings cafeLink
           (cafe ++ js "x") (js "[[" ++ cafe ++ js "]]x")).
  - repeat constructor.
  - vm_compute. reflexivity.
  - discriminate.
Defined.

Lemma wordText_parenFree w : wordText w → parenFree w.
Proof.
  intros [_ H]. eapply Forall_impl; [exact H|].
  intros c. ascii_cases c; first [discriminate | reflexivity].
Qed.

Lemma wordText_no_dollar w : wordText w → "$"%char ∉ w.
Proof.
  intros [_ H] Hin. apply (proj1 (Forall_forall _ _) H) in Hin.
  discriminate Hin.
Qed.

Lemma lit_no_match_nonword o x rest prev k cs :
  startsWithWordChar o = true → isWordChar x = false →
  m true (lit o) k {| m_prev := prev; m_rest := x :: rest |} cs = None.
Proof.
  intros Ho Hx. destruct o as [|c o]; [discriminate|].
  change (lit (c :: o)) with (Cat (Chr c) (lit o)).
  cbn [m m_rest canonicalize].
  destruct (Ascii.eqb _ _) eqn:E; [|reflexivity].
  apply Ascii.eqb_eq, isWordChar_upper in E. cbn in Ho. congruence.
Qed.

Lemma wordText_ends w : wordText w →
  startsWithWordChar w = true ∧ endsWithWordChar w = true.
Proof.
  intros [Hne H]. split.
  - destruct w as [|c w]; [done|]. by apply Forall_cons in H as [H _].
  - unfold endsWithWordChar. destruct w as [|c w] using rev_ind; [done|].
    rewrite last_snoc. by apply Forall_app in H as [_ [H _]%Forall_cons].
Qed.

Lemma plainReplace_no_match_nonword o x rest prev :
  startsWithWordChar o = true → isWordChar x = false →
  match_at true (re_tree (plainReplaceRegExp o))
    {| m_prev := prev; m_rest := x :: rest |} = None.
Proof.
  intros Ho Hx. rewrite plainReplace_match_at.
  destruct (wordBoundary _); [|reflexivity].
  by apply lit_no_match_nonword.
Qed.

Lemma plainReplace_no_match_end o prev :
  o ≠ [] →
  match_at true (re_tree (plainReplaceRegExp o))
    {| m_prev := prev; m_rest := [] |} = None.
Proof.
  intros Ho. rewrite plainReplace_match_at.
  destruct (wordBoundary _); [|reflexivity].
  destruct o as [|c o]; [done|]. reflexivity.
Qed.

(** The search passes over text without word characters. *)
Lemma search_skip_nonword o : ∀ a prev rest,
  startsWithWordChar o = true → nonWordText a →
  search true (re_tree (plainReplaceRegExp o)) prev (a ++ rest)
  = search true (re_tree (plainReplaceRegExp o)) (rev a ++ prev) rest.
Proof.
  induction a as [|x a IH]; intros prev rest Ho Ha; [reflexivity|].
  apply Forall_cons in Ha as [Hx Ha].
  cbn [app search]. rewrite plainReplace_no_match_nonword by assumption.
  rewrite IH by assumption. cbn [rev]. by rewrite <- app_assoc.
Qed.

Lemma search_nonword_none o a prev :
  o ≠ [] → startsWithWordChar o = true → nonWordText a →
  search true (re_tree (plainReplaceRegExp o)) prev a = None.
Proof.
  intros Hne Ho Ha. rewrite <- (app_nil_r a), search_skip_nonword by assumption.
  cbn [search]. by rewrite plainReplace_no_match_end.
Qed.

Lemma sameLetters_wordText occ w :
  sameLetters occ w → wordText w → wordText occ.
Proof.
  intros Ho [Hne Hw]. split.
  - intros ->. destruct w; [done | discriminate Ho].
  - revert w Ho Hw Hne. induction occ as [|x occ IH]; intros w Ho Hw _;
      [constructor|].
    destruct w as [|c w]; [discriminate Ho|]. injection Ho as Hx Ho.
    apply Forall_cons in Hw as [Hc Hw]. constructor.
    + by rewrite (isWordChar_upper _ _ Hx).
    + destruct w as [|c' w].
      * destruct occ; [constructor | discriminate Ho].
      * apply (IH (c' :: w)); [exact Ho | exact Hw | discriminate].
Qed.

Lemma endsWithWordChar_app a w :
  w ≠ [] → endsWithWordChar (a ++ w) = endsWithWordChar w.
Proof.
  intros Hw. unfold endsWithWordChar. rewrite last_app.
  destruct (last w) eqn:E; [reflexivity|]. by apply last_None in E.
Qed.

Lemma nonWordText_ends a : nonWordText a → endsWithWordChar a = false.
Proof.
  intros Ha. unfold endsWithWordChar.
  destruct (last a) as [c|] eqn:E; [|reflexivity].
  apply last_Some_elem_of in E.
  exact (proj1 (Forall_forall _ _) Ha c E).
Qed.

(** One call of [exec] on a word that stands alone between text without
    word characters, and the call after it. *)
Lemma plainReplace_exec_isolated w a occ b :
  wordText w → sameLetters occ w → nonWordText a → nonWordText b →
  regex_exec (plainReplaceRegExp w) (a ++ occ ++ b) 0
  = (Some {| mr_index := length a; mr_end := length a + length occ;
             mr_captures := []; mr_input := a ++ occ ++ b |},
     length a + length occ)
  ∧ regex_exec (plainReplaceRegExp w) (a ++ occ ++ b) (length a + length occ)
    = (None, 0).
Proof.
  intros Hw Ho Ha Hb.
  pose proof (sameLetters_wordText _ _ Ho Hw) as Hocc.
  destruct (wordText_ends _ Hw) as [Hs He].
  destruct (wordText_ends _ Hocc) as [Hs' He'].
  split.
  - unfold regex_exec.
    change (re_global (plainReplaceRegExp w)) with true.
    change (re_ignoreCase (plainReplaceRegExp w)) with true. cbv iota.
    change (length (a ++ occ ++ b) <? 0) with false. cbv iota.
    rewrite take_0, drop_0. cbn [rev].
    rewrite search_skip_nonword by assumption. rewrite app_nil_r.
    rewrite (search_here true _ (rev a) (occ ++ b)
               {| m_prev := rev occ ++ rev a; m_rest := b |} []).
    + unfold m_pos. cbn [m_prev]. rewrite length_app, !length_rev.
      by rewrite (Nat.add_comm (length occ)).
    + rewrite plainReplace_match_at.
      assert (wordBoundary {| m_prev := rev a; m_rest := occ ++ b |} = true)
        as ->.
      { unfold wordBoundary. rewrite wordBefore_offset.
        rewrite (nonWordText_ends _ Ha). unfold wordAfter. cbn [m_rest].
        destruct occ as [|x occ']; [by destruct Hocc|]. cbn in Hs'. cbn.
        by rewrite Hs'. }
      rewrite lit_ic_match_eq by exact Ho.
      assert (wordBoundary {| m_prev := rev occ ++ rev a; m_rest := b |} = true)
        as ->; [|reflexivity].
      unfold wordBoundary. rewrite <- rev_app_distr, wordBefore_offset.
      rewrite endsWithWordChar_app by apply Hocc. rewrite He'.
      unfold wordAfter. cbn [m_rest].
      destruct b as [|y b']; [reflexivity|].
      apply Forall_cons in Hb as [Hy _]. by rewrite Hy.
  - unfold regex_exec.
    change (re_global (plainReplaceRegExp w)) with true.
    change (re_ignoreCase (plainReplaceRegExp w)) with true. cbv iota.
    destruct (_ <? _); [reflexivity|].
    assert (Hdr : drop (length a + length occ) (a ++ occ ++ b) = b).
    { rewrite app_assoc. apply drop_app_length'. by rewrite length_app. }
    rewrite Hdr, search_nonword_none;
      [reflexivity | apply Hw | exact Hs | exact Hb].
Qed.

(** X9.  The rewrite on a word that stands alone.  Where the matched text
    of the link is made of word characters and the text holds it once, up
    to case, between text without word characters, the rewrite replaces
    that occurrence by the token and keeps the rest.  It does not look at
    what the text around the occurrence is: a title that already stands in
    a reference is wrapped once more. *)
Theorem rewrite_replaces_isolated_word (s : Settings) (link : Link)
    (a occ b : jsstring) :
  wordText (originalMatch link) →
  sameLetters occ (originalMatch link) →
  nonWordText a → nonWordText b →
  "$"%char ∉ title link →
  applyLinks s [link] (a ++ occ ++ b)
  = Done (a ++ replacementOf s link ++ b)
  ∧ (title link = originalMatch link → occ = originalMatch link →
     applyLinks s [link] (js "[[" ++ occ ++ js "]]")
     = Done (js "[[[[" ++ occ ++ js "]]]]")).
Proof.
  intros Hw Ho Ha Hb Hd.
  assert (Hgen : ∀ a b, nonWordText a → nonWordText b →
    applyLinks s [link] (a ++ occ ++ b) = Done (a ++ replacementOf s link ++ b)).
  { clear a b Ha Hb. intros a b Ha Hb. cbn [applyLinks].
    rewrite (replacePattern_compile _ (wordText_parenFree _ Hw)).
    cbn [bind]. f_equal.
    destruct (plainReplace_exec_isolated _ a occ b Hw Ho Ha Hb) as [E1 E2].
    pose proof (sameLetters_wordText _ _ Ho Hw) as [Hne _].
    unfold string_replace. cbn [plainReplaceRegExp re_global re_groups].
    rewrite Nat.add_comm. cbn [Nat.add replace_matches].
    rewrite E1. cbn [mr_end mr_index].
    assert ((length a + length occ =? length a) = false) as ->.
    { apply Nat.eqb_neq. destruct occ; [done | simpl; lia]. }
    destruct (length (a ++ occ ++ b)) eqn:Hc.
    { rewrite !length_app in Hc. destruct occ; [done | simpl in Hc; lia]. }
    cbn [replace_matches]. rewrite E2. cbn [fmap option_fmap option_map].
    cbn [replace_build mr_index mr_end]. change (0 <=? length a) with true.
    cbv iota. rewrite getSubstitution_plain.
    2:{ assert (Ho' : "$"%char ∉ originalMatch link)
          by apply wordText_no_dollar, Hw.
        unfold replacementOf.
        destruct (enableWikiLinks s),
          (bool_decide (originalMatch link ≠ title link) && respectCase s);
          intros Hin;
          repeat (apply elem_of_app in Hin as [Hin|Hin]);
          first [ by apply Hd | by apply Ho'
                | repeat (apply elem_of_cons in Hin as [Hin|Hin];
                          [discriminate Hin|]);
                  by apply not_elem_of_nil in Hin ]. }
    f_equal.
    - unfold slice. rewrite Nat.sub_0_r, drop_0. by rewrite take_app_length.
    - f_equal. rewrite app_assoc. apply drop_app_length'. by rewrite length_app. }
  split; [by apply Hgen|].
  intros Ht ->.
  rewrite (Hgen (js "[[") (js "]]")) by (repeat constructor).
  f_equal. unfold replacementOf. rewrite Ht.
  rewrite bool_decide_eq_false_2 by (intros E; by apply E).
  cbn [andb]. destruct (enableWikiLinks s); by rewrite <- !app_assoc.
Qed.

Lemma rewrite_replaces_isolated_word_witness :
  applyLinks aliasSettings [lowerAlphaLink] (js "(" ++ js "ALPHA" ++ js ")")
  = Done (js "(" ++ replacementOf aliasSettings lowerAlphaLink ++ js ")")
  ∧ (title lowerAlphaLink = originalMatch lowerAlphaLink →
     js "ALPHA" = originalMatch lowerAlphaLink →
     applyLinks aliasSettings [lowerAlphaLink]
       (js "[[" ++ js "ALPHA" ++ js "]]")
     = Done (js "[[[[" ++ js "ALPHA" ++ js "]]]]")).
Proof.
  apply (rewrite_replaces_isolated_word aliasSettings lowerAlphaLink
           (js "(") (js "ALPHA") (js ")")).
  - split; [discriminate | repeat constructor].
  - reflexivity.
  - repeat constructor.
  - repeat constructor.
  - apply (bool_decide_unpack ("$"%char ∉ title lowerAlphaLink)).
    vm_compute. exact I.
Defined.

(** ** The command *)

Lemma detectedLinks_rejected content fuel bad after : ∀ before,
  Forall (fun n => note_title n ≠ []) before →
  newRegExp_gi (detectPattern (note_title bad)) = Throws SyntaxError →
  length content < fuel →
  detectedLinks fuel (before ++ bad :: after) content = Throws SyntaxError.
Proof.
  intros before Hb Hbad Hf.
  induction before as [|note before IH].
  - cbn [app detectedLinks]. by rewrite Hbad.
  - apply Forall_cons in Hb as [Hne Hb]. cbn [app detectedLinks].
    destruct (newRegExp_detect_cases (note_title note)) as [->|[re Hre]];
      [reflexivity|].
    rewrite Hre. cbn [bind]. apply newRegExp_detect in Hre as [Hre Hmin].
    assert (H1 : 1 ≤ minlen (re_tree re)).
    { destruct (note_title note); [done | simpl in Hmin; lia]. }
    pose proof (execLoop_terminates re note content Hre fuel 0 H1) as Ht.
    pose proof (execLoop_no_throw re note content Hre fuel 0) as Hnt.
    destruct (execLoop fuel re note content 0) as [ls|e|]; cbn [bind].
    + rewrite (IH Hb). reflexivity.
    + exfalso. by apply (Hnt e).
    + exfalso. apply Ht; [lia | reflexivity].
Qed.

(** X10.  One title whose pattern is rejected stops every run.  When the
    cache is up to date and holds, after titles that are not empty, a
    title whose parentheses do not fit, then whatever the text is, the run
    ends with the error notice, hands no link of any title to the
    selection window, and leaves the progress window open. *)
Theorem rejected_title_blocks_every_run (fuel : nat) (p : Plugin) (v : Vault)
    (markdownFiles : list AbstractFile) (view : ActiveView)
    (text : jsstring) (before after : list NoteEntry) (bad : NoteEntry) :
  cacheUpToDate p = true →
  noteTitlesCache p = before ++ bad :: after →
  Forall (fun n => note_title n ≠ []) before →
  parenDepth (note_title bad) 1 ≠ Some 1 →
  scannedText v (view_file view) (view_selection view) = Done text →
  length (scanInput p text) < fuel →
  runNoteLinker fuel p v markdownFiles (Some view)
  = Done {| run_plugin := p; run_pending := None; run_progressOpen := true;
            run_notice := Some RunError; run_links := None |}.
Proof.
  intros Hup Hcache Hb Hbad Htext Hf.
  unfold runNoteLinker. rewrite Htext, Hup, Hcache.
  unfold detectPotentialLinks.
  rewrite detectedLinks_rejected; [reflexivity | exact Hb | | exact Hf].
  pose proof (detectPattern_accepted (note_title bad)) as H.
  destruct (parenDepth (note_title bad) 1) as [[|[|d]]|]; try exact H.
  by exfalso.
Qed.

Lemma rejected_title_blocks_every_run_witness :
  runNoteLinker 10 blockedPlugin vaultOne [] (Some wholeNoteView)
  = Done {| run_plugin := blockedPlugin; run_pending := None;
            run_progressOpen := true;
            run_notice := Some RunError; run_links := None |}.
Proof.
  apply (rejected_title_blocks_every_run 10 blockedPlugin vaultOne []
           wholeNoteView (js "Alpha one")
           [noteNamed "Alpha"] [noteNamed "Beta"] (noteNamed "a)")).
  - reflexivity.
  - reflexivity.
  - repeat constructor. discriminate.
  - vm_compute. discriminate.
  - reflexivity.
  - vm_compute. lia.
Defined.

(** ** Indexing in batches *)

Lemma runBatches_done notes timers q : runBatches timers notes None q = (q, None).
Proof. by destruct timers. Qed.

Lemma runBatches_rest notes : ∀ timers k p,
  k < length notes →
  length notes - k ≤ timers * batchSize →
  runBatches timers notes (Some k) p
  = ({| settings := settings p;
        noteTitlesCache := noteTitlesCache p ++ (entryOf <$> drop k notes);
        cacheUpToDate := true |}, None).
Proof.
  unfold batchSize.
  induction timers as [|timers IH]; intros k p Hk Hn; [lia|].
  cbn [runBatches]. unfold processBatch, batchSize.
  destruct (k + 50 <? length notes) eqn:Hlt.
  - apply Nat.ltb_lt in Hlt. rewrite IH by (cbn [settings noteTitlesCache]; lia).
    cbn [settings noteTitlesCache]. f_equal. f_equal.
    rewrite <- app_assoc, <- fmap_app. f_equal. f_equal.
    replace (min (k + 50) (length notes) - k) with 50 by lia.
    rewrite <- (take_drop 50 (drop k notes)) at 2.
    by rewrite drop_drop.
  - apply Nat.ltb_ge in Hlt.
    rewrite runBatches_done, take_ge by (rewrite length_drop; lia).
    reflexivity.
Qed.

(** X11.  The batches of [indexNotes], once all of them have run with
    nothing in between, have built the cache that one pass over the notes
    builds: an entry for each markdown file outside the excluded folders,
    in the order of the files, and the cache marked up to date.  The first
    batch and one timer for each further 50 notes are enough. *)
Theorem batches_rebuild_the_index (markdownFiles : list AbstractFile)
    (p : Plugin) (timers : nat) :
  length (notesToIndex markdownFiles p) ≤ batchSize * (1 + timers) →
  runBatches timers (notesToIndex markdownFiles p)
    (indexNotesFirstBatch markdownFiles p).2
    (indexNotesFirstBatch markdownFiles p).1
  = (indexNotes markdownFiles p, None).
Proof.
  intros Hn. unfold indexNotesFirstBatch, processBatch, indexNotes.
  fold (notesToIndex markdownFiles p).
  set (notes := notesToIndex markdownFiles p) in *. unfold batchSize in *.
  cbn [Nat.add]. rewrite Nat.sub_0_r, drop_0.
  destruct (50 <? length notes) eqn:Hlt.
  - apply Nat.ltb_lt in Hlt. cbn [fst snd].
    rewrite runBatches_rest by (unfold batchSize; lia).
    cbn [settings noteTitlesCache app]. f_equal. f_equal.
    rewrite <- fmap_app. f_equal.
    replace (min 50 (length notes)) with 50 by lia. apply take_drop.
  - apply Nat.ltb_ge in Hlt. cbn [fst snd].
    rewrite runBatches_done. cbn [settings noteTitlesCache app].
    rewrite take_ge by lia. reflexivity.
Qed.

Lemma batches_rebuild_the_index_witness :
  runBatches 1 (notesToIndex sixtyNotes emptyPlugin)
    (indexNotesFirstBatch sixtyNotes emptyPlugin).2
    (indexNotesFirstBatch sixtyNotes emptyPlugin).1
  = (indexNotes sixtyNotes emptyPlugin, None).
Proof.
  apply (batches_rebuild_the_index sixtyNotes emptyPlugin 1).
  vm_compute. lia.
Defined.

(** X12.  A run that finds the cache stale indexes before it scans, but the
    scan does not wait for the batches that run from the timer: it sees
    the first batch only.  So with more than 50 notes to index, the
    titles of the notes after the 50th are not reported in that run, the
    cache is still marked stale when the run ends, and a batch is
    waiting. *)
Theorem stale_run_scans_first_batch (fuel : nat) (p : Plugin) (v : Vault)
    (markdownFiles : list AbstractFile) (view : ActiveView)
    (text : jsstring) (r : RunResult) :
  cacheUpToDate p = false →
  scannedText v (view_file view) (view_selection view) = Done text →
  runNoteLinker fuel p v markdownFiles (Some view) = Done r →
  noteTitlesCache (run_plugin r)
  = entryOf <$> take batchSize (notesToIndex markdownFiles p)
  ∧ cacheUpToDate (run_plugin r)
    = bool_decide (length (notesToIndex markdownFiles p) ≤ batchSize)
  ∧ run_pending r
    = (if bool_decide (length (notesToIndex markdownFiles p) ≤ batchSize)
       then None else Some batchSize)
  ∧ ∀ links l, run_links r = Some links → l ∈ links →
      ∃ note, note ∈ take batchSize (notesToIndex markdownFiles p)
              ∧ title l = basename note ∧ notePath l = path note.
Proof.
  intros Hstale Htext H. unfold runNoteLinker in H.
  rewrite Htext, Hstale in H.
  unfold indexNotesFirstBatch, processBatch in H.
  set (notes := notesToIndex markdownFiles p) in *. unfold batchSize in *.
  cbn [Nat.add settings noteTitlesCache cacheUpToDate app] in H.
  rewrite Nat.sub_0_r, drop_0, Hstale in H.
  assert (Htake : take (min 50 (length notes)) notes = take 50 notes).
  { destruct (decide (50 ≤ length notes)).
    - by replace (min 50 (length notes)) with 50 by lia.
    - rewrite !take_ge by lia. reflexivity. }
  rewrite Htake in H.
  set (cache := entryOf <$> take 50 notes) in *.
  assert (Hflag : (50 <? length notes) = negb (bool_decide (length notes ≤ 50))).
  { destruct (50 <? length notes) eqn:E;
      [apply Nat.ltb_lt in E | apply Nat.ltb_ge in E].
    - by rewrite bool_decide_eq_false_2 by lia.
    - by rewrite bool_decide_eq_true_2 by lia. }
  rewrite Hflag in H.
  destruct (bool_decide (length notes ≤ 50)) eqn:Hb; cbn [negb] in H;
    cbn [noteTitlesCache] in H;
    destruct (detectPotentialLinks fuel cache (scanInput p text))
      as [[|l0 links0]| |] eqn:Hd; try discriminate H;
    injection H as <-; cbn [run_plugin run_pending run_links
                            noteTitlesCache cacheUpToDate];
    (split; [reflexivity|]); (split; [reflexivity|]);
    (split; [reflexivity|]); intros links l Hl Hin; try discriminate Hl;
    injection Hl as <-;
    destruct (detectPotentialLinks_sound _ _ _ _ _ Hd Hin)
      as (_ & note & Hn & Ht & Hp);
    apply list_elem_of_fmap in Hn as (f & -> & Hf);
    exists f; by repeat split.
Qed.

Lemma stale_run_scans_first_batch_witness :
  noteTitlesCache (run_plugin staleRunResult)
  = entryOf <$> take batchSize (notesToIndex sixtyNotes emptyPlugin)
  ∧ cacheUpToDate (run_plugin staleRunResult)
    = bool_decide (length (notesToIndex sixtyNotes emptyPlugin) ≤ batchSize)
  ∧ run_pending staleRunResult
    = (if bool_decide (length (notesToIndex sixtyNotes emptyPlugin) ≤ batchSize)
       then None else Some batchSize)
  ∧ ∀ links l, run_links staleRunResult = Some links → l ∈ links →
      ∃ note, note ∈ take batchSize (notesToIndex sixtyNotes emptyPlugin)
              ∧ title l = basename note ∧ notePath l = path note.
Proof.
  apply (stale_run_scans_first_batch 10 emptyPlugin vaultOne sixtyNotes
           wholeNoteView (js "Alpha one") staleRunResult).
  - reflexivity.
  - reflexivity.
  - vm_compute. reflexivity.
Defined.

(** ** The cache *)

Lemma startsWith_underFolder str folder :
  startsWith str folder = true ↔ underFolder folder str.
Proof.
  revert str. induction folder as [|c folder IH]; intros str.
  - split; [intros _; by exists str | by destruct str].
  - destruct str as [|x str]; cbn [startsWith].
    + split; [discriminate | intros [rest H]; discriminate H].
    + destruct (Ascii.eqb c x) eqn:E.
      * apply Ascii.eqb_eq in E as ->. rewrite IH. split.
        -- intros [rest ->]. by exists rest.
        -- intros [rest [= ->]]. by exists rest.
      * apply Ascii.eqb_neq in E. split; [discriminate|].
        intros [rest [= ->]]. by exfalso.
Qed.

Lemma isExcluded_false s p :
  isExcluded s p = false ↔
  ∀ folder, folder ∈ excludedFolders s → ¬ underFolder folder p.
Proof.
  unfold isExcluded. induction (excludedFolders s) as [|f fs IH]; cbn [existsb].
  - split; [intros _ folder H; by apply not_elem_of_nil in H | done].
  - rewrite orb_false_iff, IH. split.
    + intros [Hf Hfs] folder [->|Hin]%elem_of_cons.
      * rewrite <- startsWith_underFolder. by rewrite Hf.
      * by apply Hfs.
    + intros H. split.
      * destruct (startsWith p f) eqn:E; [|reflexivity].
        exfalso. apply (H f (list_elem_of_here _ _)).
        by apply startsWith_underFolder.
      * intros folder Hin. by apply H, list_elem_of_further.
Qed.

Lemma cacheRespectsExclusions_alt p :
  cacheRespectsExclusions p ↔
  Forall (fun n => isExcluded (settings p) (note_path n) = false)
    (noteTitlesCache p).
Proof.
  unfold cacheRespectsExclusions. rewrite Forall_forall. split.
  - intros H note Hn. apply isExcluded_false. intros folder Hf. by apply H.
  - intros H note folder Hn Hf.
    by apply (proj1 (isExcluded_false _ _) (H note Hn)).
Qed.

Lemma processBatch_settings notes startIndex p :
  settings (processBatch notes startIndex p).1 = settings p.
Proof. unfold processBatch. by destruct (_ <? _). Qed.

Lemma apply_event_settings st e :
  settings (idx_plugin (apply_event st e)) = settings (idx_plugin st).
Proof.
  destruct e as [files|files| |file|file]; cbn [apply_event idx_plugin].
  - unfold updateCache. by destruct (cacheUpToDate _).
  - unfold indexNotesFirstBatch. by rewrite processBatch_settings.
  - destruct (idx_timers st) as [|[notes startIndex] timers]; [reflexivity|].
    cbn [idx_plugin]. by rewrite processBatch_settings.
  - unfold onFileCreated. by destruct (_ && _).
  - reflexivity.
Qed.

Lemma filter_entries_respect (s : Settings) (P : AbstractFile → bool) files :
  (∀ f, P f = true → isExcluded s (path f) = false) →
  Forall (fun n => isExcluded s (note_path n) = false)
    (entryOf <$> filter (fun f => P f) files).
Proof.
  intros HP. apply Forall_fmap, Forall_forall. intros f Hf.
  apply list_elem_of_filter in Hf as [Hf _]. cbn. apply HP.
  by apply Is_true_true.
Qed.

(** A batch pushes notes of its listing only. *)
Lemma processBatch_respects s notes startIndex p :
  Forall (fun n => isExcluded s (note_path n) = false) (noteTitlesCache p) →
  Forall (fun note => isExcluded s (path note) = false) notes →
  Forall (fun n => isExcluded s (note_path n) = false)
    (noteTitlesCache (processBatch notes startIndex p).1).
Proof.
  intros Hp Hn.
  assert (H : ∀ k, Forall (fun n => isExcluded s (note_path n) = false)
                (noteTitlesCache p
                 ++ (entryOf <$> take k (drop startIndex notes)))).
  { intros k. apply Forall_app. split; [exact Hp|].
    apply Forall_fmap. by apply Forall_take, Forall_drop. }
  unfold processBatch. destruct (_ <? _); cbn [fst noteTitlesCache]; apply H.
Qed.

Lemma schedule_respects s notes pending timers :
  Forall (fun note => isExcluded s (path note) = false) notes →
  timersRespect s timers → timersRespect s (schedule notes pending timers).
Proof.
  intros Hn Ht. destruct pending as [next|]; [|exact Ht].
  apply Forall_app. split; [exact Ht|]. by repeat constructor.
Qed.

Lemma apply_event_respects st e :
  cacheRespectsExclusions (idx_plugin st) →
  timersRespect (settings (idx_plugin st)) (idx_timers st) →
  cacheRespectsExclusions (idx_plugin (apply_event st e))
  ∧ timersRespect (settings (idx_plugin st)) (idx_timers (apply_event st e)).
Proof.
  rewrite !cacheRespectsExclusions_alt, apply_event_settings. intros H Ht.
  destruct st as [p timers].
  destruct e as [files|files| |file|file];
    cbn [apply_event idx_plugin idx_timers] in *.
  - split; [|exact Ht].
    unfold updateCache. destruct (cacheUpToDate p); [exact H|].
    cbn [settings noteTitlesCache]. apply filter_entries_respect.
    intros f Hf. apply andb_true_iff in Hf as [Hf _].
    apply andb_true_iff in Hf as [Hf _]. by apply negb_true_iff in Hf.
  - assert (Hn : Forall (fun note => isExcluded (settings p) (path note) = false)
                   (notesToIndex files p)).
    { apply Forall_forall. intros f Hf.
      apply list_elem_of_filter in Hf as [Hf _].
      apply Is_true_true in Hf. by apply negb_true_iff in Hf. }
    split; [|by apply schedule_respects].
    unfold indexNotesFirstBatch. apply processBatch_respects; [|exact Hn].
    constructor.
  - destruct timers as [|[notes startIndex] timers]; [by split|].
    apply Forall_cons in Ht as [Hn Ht]. cbn [fst] in Hn.
    cbn [idx_plugin idx_timers].
    split; [by apply processBatch_respects | by apply schedule_respects].
  - split; [|exact Ht].
    unfold onFileCreated. destruct (bool_decide _ && negb _) eqn:E; [|exact H].
    cbn [settings noteTitlesCache]. apply Forall_app. split; [exact H|].
    repeat constructor. cbn.
    apply andb_true_iff in E as [_ E]. by apply negb_true_iff in E.
  - split; [|exact Ht].
    cbn [onFileDeleted settings noteTitlesCache].
    apply Forall_forall. intros n Hn.
    apply list_elem_of_filter in Hn as [_ Hn].
    exact (proj1 (Forall_forall _ _) H n Hn).
Qed.

Lemma run_events_from_settings : ∀ es st,
  settings (idx_plugin (run_events_from st es)) = settings (idx_plugin st).
Proof.
  induction es as [|e es IH]; intros st; [reflexivity|].
  cbn [run_events_from foldl]. fold (run_events_from (apply_event st e) es).
  by rewrite IH, apply_event_settings.
Qed.

Lemma run_events_from_respects : ∀ es st,
  cacheRespectsExclusions (idx_plugin st) →
  timersRespect (settings (idx_plugin st)) (idx_timers st) →
  cacheRespectsExclusions (idx_plugin (run_events_from st es)).
Proof.
  induction es as [|e es IH]; intros st Hc Ht; [exact Hc|].
  cbn [run_events_from foldl]. fold (run_events_from (apply_event st e) es).
  destruct (apply_event_respects st e Hc Ht) as [Hc' Ht'].
  apply IH; [exact Hc'|]. by rewrite apply_event_settings.
Qed.

(** X13.  Whatever the events, and in whatever order the batches of
    [indexNotes] run between them, the cache holds no note whose path
    starts with a folder that is excluded by the settings the events ran
    with: a cache without such notes stays without them, and a call of
    [indexNotes] removes them whatever the cache held.  No event changes
    the settings. *)
Theorem events_keep_excluded_notes_out (p : Plugin) (es : list index_event) :
  (cacheRespectsExclusions p →
   cacheRespectsExclusions (run_events p es))
  ∧ (∀ markdownFiles,
       cacheRespectsExclusions
         (run_events p (Reindex markdownFiles :: es)))
  ∧ settings (run_events p es) = settings p.
Proof.
  unfold run_events. split; [|split].
  - intros Hp. apply run_events_from_respects; [exact Hp | constructor].
  - intros markdownFiles. cbn [run_events_from foldl].
    fold (run_events_from (apply_event (idle p) (Reindex markdownFiles)) es).
    assert (Hs : settings (idx_plugin
                             (apply_event (idle p) (Reindex markdownFiles)))
                 = settings p) by apply apply_event_settings.
    destruct (apply_event_respects
                {| idx_plugin :=
                     {| settings := settings p; noteTitlesCache := [];
                        cacheUpToDate := cacheUpToDate p |};
                   idx_timers := [] |} (Reindex markdownFiles))
      as [Hc Ht].
    { intros note folder Hn. by apply not_elem_of_nil in Hn. }
    { constructor. }
    apply run_events_from_respects; [exact Hc|].
    rewrite Hs. exact Ht.
  - apply run_events_from_settings.
Qed.

Lemma events_keep_excluded_notes_out_witness :
  cacheRespectsExclusions
    (run_events privatePlugin
       [Reindex sixtyNumberedNotes; Added (fileAt "private/x.md" "x");
        Timer; Added (fileAt "pub/y.md" "y")]).
Proof.
  apply (proj1 (events_keep_excluded_notes_out privatePlugin
                  [Reindex sixtyNumberedNotes;
                   Added (fileAt "private/x.md" "x"); Timer;
                   Added (fileAt "pub/y.md" "y")])).
  intros note folder Hn. by apply not_elem_of_nil in Hn.
Defined.

Lemma filter_all {A} (P : A → Prop) `{∀ x, Decision (P x)} (l : list A) :
  (∀ x, x ∈ l → P x) → filter P l = l.
Proof.
  induction l as [|x l IH]; intros HP; [reflexivity|].
  rewrite filter_cons_True by apply HP, list_elem_of_here.
  rewrite IH; [reflexivity|]. intros y Hy. by apply HP, list_elem_of_further.
Qed.

(** X14.  A file that is created and then deleted leaves the cached entries
    as they were, provided its path was not cached before; the cache is
    marked stale afterwards, and no entry has the path of the file. *)
Theorem created_then_deleted_restores_entries (file : AbstractFile)
    (p : Plugin) :
  path file ∉ indexedPaths p →
  noteTitlesCache (onFileDeleted file (onFileCreated file p))
  = noteTitlesCache p
  ∧ cacheUpToDate (onFileDeleted file (onFileCreated file p)) = false
  ∧ path file ∉ indexedPaths (onFileDeleted file (onFileCreated file p)).
Proof.
  intros Hfresh.
  assert (Hkeep : filter (fun note => note_path note ≠ path file)
                    (noteTitlesCache p) = noteTitlesCache p).
  { apply filter_all. intros note Hn E. apply Hfresh.
    unfold indexedPaths. apply list_elem_of_fmap. by exists note. }
  split; [|split; [reflexivity|]].
  - unfold onFileDeleted, onFileCreated.
    destruct (bool_decide _ && negb _); cbn [noteTitlesCache].
    + rewrite filter_app, Hkeep, filter_cons_False, filter_nil, app_nil_r;
        [reflexivity|]. intros H. by apply H.
    + exact Hkeep.
  - unfold indexedPaths. cbn [onFileDeleted noteTitlesCache].
    intros Hin. apply list_elem_of_fmap in Hin as (note & E & Hn).
    apply list_elem_of_filter in Hn as [Hn _]. by apply Hn.
Qed.

Lemma created_then_deleted_restores_entries_witness :
  noteTitlesCache
    (onFileDeleted (fileAt "n.md" "n") (onFileCreated (fileAt "n.md" "n")
                                          emptyPlugin))
  = noteTitlesCache emptyPlugin
  ∧ cacheUpToDate
      (onFileDeleted (fileAt "n.md" "n") (onFileCreated (fileAt "n.md" "n")
                                            emptyPlugin)) = false
  ∧ path (fileAt "n.md" "n")
    ∉ indexedPaths
        (onFileDeleted (fileAt "n.md" "n") (onFileCreated (fileAt "n.md" "n")
                                              emptyPlugin)).
Proof.
  apply (created_then_deleted_restores_entries (fileAt "n.md" "n") emptyPlugin).
  apply not_elem_of_nil.
Defined.

(** X15.  The rebuild at start-up ([updateCache], over all loaded files and
    folders) and the rebuild before a scan ([indexNotes], over the
    markdown files) build the same cache from the same vault, the markdown
    files being the loaded files that are notes with the extension
    "md". *)
Theorem rebuilds_agree (files : list AbstractFile) (p : Plugin) :
  cacheUpToDate p = false →
  updateCache files p
  = indexNotes
      (filter (fun f => file_isTFile f && bool_decide (extension f = js "md"))
         files) p.
Proof.
  intros Hstale. unfold updateCache, indexNotes. rewrite Hstale.
  f_equal. f_equal. rewrite list_filter_filter.
  apply list_filter_iff. intros f.
  destruct (isExcluded _ _), (file_isTFile f), (bool_decide _); cbn; tauto.
Qed.

Lemma rebuilds_agree_witness :
  updateCache [fileAt "n.md" "n"; folderAt "docs"] emptyPlugin
  = indexNotes
      (filter (fun f => file_isTFile f && bool_decide (extension f = js "md"))
         [fileAt "n.md" "n"; folderAt "docs"]) emptyPlugin.
Proof.
  apply (rebuilds_agree [fileAt "n.md" "n"; folderAt "docs"] emptyPlugin).
  reflexivity.
Defined.

(** ** The selection window: pages *)

Lemma ceilDiv_spec a b :
  1 ≤ b → a ≤ ceilDiv a b * b ∧ (1 ≤ a → (ceilDiv a b - 1) * b < a)
          ∧ (a = 0 → ceilDiv a b = 0).
Proof.
  intros Hb. unfold ceilDiv.
  pose proof (Nat.div_mod (a + (b - 1)) b ltac:(lia)) as Hdm.
  pose proof (Nat.mod_upper_bound (a + (b - 1)) b ltac:(lia)) as Hr.
  set (q := (a + (b - 1)) / b) in *. set (r := (a + (b - 1)) mod b) in *.
  split; [nia|]. split; [intros Ha; nia|].
  intros ->. cbn [Nat.add] in *. destruct q; [reflexivity | nia].
Qed.

Lemma take_min_length {A} n (l : list A) : take (min n (length l)) l = take n l.
Proof.
  destruct (decide (n ≤ length l)).
  - by replace (min n (length l)) with n by lia.
  - rewrite !take_ge by lia. reflexivity.
Qed.

Lemma length_linkObjects w :
  length (linkObjects w) = length (modal_potentialLinks w).
Proof. unfold linkObjects. by rewrite length_imap. Qed.

Lemma linksToShow_page (k : nat) w :
  linksToShow (atPage (Z.of_nat k) w)
  = take (modal_pageSize w) (drop (k * modal_pageSize w) (linkObjects w)).
Proof.
  unfold linksToShow, array_slice. cbn [atPage modal_currentPage modal_pageSize
    modal_potentialLinks].
  change (linkObjects (atPage (Z.of_nat k) w)) with (linkObjects w).
  rewrite length_linkObjects.
  set (ps := modal_pageSize w). set (n := length (modal_potentialLinks w)).
  assert (Hn : length (linkObjects w) = n) by apply length_linkObjects.
  destruct (Z.of_nat k * Z.of_nat ps <? 0)%Z eqn:E1;
    [apply Z.ltb_lt in E1; lia|].
  destruct (Z.min (Z.of_nat k * Z.of_nat ps + Z.of_nat ps) (Z.of_nat n) <? 0)%Z
    eqn:E2; [apply Z.ltb_lt in E2; lia|].
  destruct (decide (k * ps ≤ n)) as [Hle|Hgt].
  - replace (Z.to_nat (Z.min (Z.of_nat k * Z.of_nat ps) (Z.of_nat n)))
      with (k * ps) by lia.
    rewrite <- (take_min_length ps), length_drop, Hn. f_equal. lia.
  - rewrite (drop_ge _ (k * ps)) by lia. rewrite take_nil.
    replace (Z.to_nat (Z.min (Z.of_nat k * Z.of_nat ps) (Z.of_nat n)))
      with n by lia.
    rewrite drop_ge by lia. apply take_nil.
Qed.

Lemma chunks_concat {A} ps : ∀ T (l : list A),
  length l ≤ T * ps →
  concat ((fun k => take ps (drop (k * ps) l)) <$> List.seq 0 T) = l.
Proof.
  induction T as [|T IH]; intros l Hl.
  - destruct l; [reflexivity | simpl in Hl; lia].
  - cbn [List.seq]. rewrite <- seq_shift. cbn [fmap list_fmap concat].
    rewrite drop_0.
    transitivity (take ps l ++ drop ps l); [|apply take_drop]. f_equal.
    rewrite <- (IH (drop ps l)) at 1 by (rewrite length_drop; lia).
    f_equal. change (map S (List.seq 0 T)) with (S <$> List.seq 0 T).
    rewrite <- list_fmap_compose.
    apply list_fmap_ext. intros i k _. cbn.
    rewrite drop_drop. reflexivity.
Qed.

Lemma page_length w k :
  1 ≤ modal_pageSize w → k < totalPages w →
  1 ≤ length (linksToShow (atPage (Z.of_nat k) w)) ≤ modal_pageSize w.
Proof.
  intros Hps Hk.
  destruct (ceilDiv_spec (length (modal_potentialLinks w)) _ Hps)
    as (H1 & H2 & H3). fold (totalPages w) in *.
  rewrite linksToShow_page, length_take, length_drop, length_linkObjects.
  assert (1 ≤ length (modal_potentialLinks w)).
  { destruct (length (modal_potentialLinks w)); [|lia].
    rewrite H3 in Hk by reflexivity. lia. }
  specialize (H2 ltac:(lia)). nia.
Qed.

(** X16.  The pages split the links.  Put one after the other, the pages
    from the first to the last give every link of the window once, in the
    order of the scan; no page is empty and none holds more than
    [pageSize] links. *)
Theorem pages_partition_links (w : LinkSelectionModal) :
  1 ≤ modal_pageSize w →
  concat ((fun k => linksToShow (atPage (Z.of_nat k) w))
            <$> List.seq 0 (totalPages w))
  = linkObjects w
  ∧ ∀ k, k < totalPages w →
      1 ≤ length (linksToShow (atPage (Z.of_nat k) w)) ≤ modal_pageSize w.
Proof.
  intros Hps.
  destruct (ceilDiv_spec (length (modal_potentialLinks w)) _ Hps)
    as (H1 & _). fold (totalPages w) in *.
  split.
  - rewrite (list_fmap_ext _
               (fun k => take (modal_pageSize w)
                           (drop (k * modal_pageSize w) (linkObjects w))))
      by (intros i k _; apply linksToShow_page).
    apply chunks_concat. by rewrite length_linkObjects.
  - intros k Hk. by apply page_length.
Qed.

Lemma pages_partition_links_witness :
  concat ((fun k => linksToShow (atPage (Z.of_nat k) threeLinkWindow))
            <$> List.seq 0 (totalPages threeLinkWindow))
  = linkObjects threeLinkWindow
  ∧ ∀ k, k < totalPages threeLinkWindow →
      1 ≤ length (linksToShow (atPage (Z.of_nat k) threeLinkWindow))
        ≤ modal_pageSize threeLinkWindow.
Proof.
  apply (pages_partition_links threeLinkWindow).
  vm_compute. lia.
Defined.

Lemma changePage_mod w delta :
  pageInRange w →
  (- Z.of_nat (totalPages w) ≤ delta)%Z →
  changePage delta w
  = Some (atPage ((modal_currentPage w + delta)
                    `mod` Z.of_nat (totalPages w))%Z w).
Proof.
  intros Hr Hd. unfold changePage, pageInRange in *.
  destruct (Z.of_nat (totalPages w) =? 0)%Z eqn:E;
    [apply Z.eqb_eq in E; lia|].
  unfold atPage. do 2 f_equal.
  rewrite Z.rem_mod_nonneg by lia.
  rewrite <- (Z.mul_1_l (Z.of_nat (totalPages w))) at 1.
  by rewrite Z_mod_plus_full.
Qed.

Lemma atPage_same w : atPage (modal_currentPage w) w = w.
Proof. by destruct w. Qed.

(** X17.  Paging is circular.  From a page that exists, [changePage] moves
    by [delta] pages modulo the number of pages and arrives at a page
    that exists; a step forward followed by a step back, or the other way
    round, returns to the page it started from. *)
Theorem changePage_circular (w : LinkSelectionModal) (delta : Z) :
  pageInRange w →
  (- Z.of_nat (totalPages w) ≤ delta)%Z →
  ∃ w',
    changePage delta w = Some w'
    ∧ w' = atPage ((modal_currentPage w + delta)
                     `mod` Z.of_nat (totalPages w))%Z w
    ∧ pageInRange w'
    ∧ ((delta = 1 ∨ delta = -1)%Z → changePage (- delta) w' = Some w).
Proof.
  intros Hr Hd. eexists. split; [by apply changePage_mod|].
  split; [reflexivity|].
  assert (Hr' : pageInRange
            (atPage ((modal_currentPage w + delta)
                       `mod` Z.of_nat (totalPages w))%Z w)).
  { unfold pageInRange in *. cbn [atPage modal_currentPage].
    change (totalPages (atPage _ w)) with (totalPages w).
    apply Z.mod_pos_bound. lia. }
  split; [exact Hr'|].
  intros Hdelta. rewrite changePage_mod; [|exact Hr'|].
  2:{ change (totalPages (atPage _ w)) with (totalPages w).
      unfold pageInRange in Hr. lia. }
  change (totalPages (atPage _ w)) with (totalPages w).
  change (modal_currentPage (atPage ?k w)) with k.
  change (atPage ?k (atPage _ w)) with (atPage k w).
  rewrite Zplus_mod_idemp_l.
  replace (modal_currentPage w + delta + - delta)%Z
    with (modal_currentPage w) by lia.
  rewrite Z.mod_small by exact Hr. by rewrite atPage_same.
Qed.

Lemma changePage_circular_witness :
  ∃ w',
    changePage (-1) threeLinkWindow = Some w'
    ∧ w' = atPage ((modal_currentPage threeLinkWindow + -1)
                     `mod` Z.of_nat (totalPages threeLinkWindow))%Z
             threeLinkWindow
    ∧ pageInRange w'
    ∧ ((-1 = 1 ∨ -1 = -1)%Z → changePage (- -1) w' = Some threeLinkWindow).
Proof.
  apply (changePage_circular threeLinkWindow (-1)).
  - vm_compute. split; [discriminate | reflexivity].
  - vm_compute. discriminate.
Defined.

(** X18.  [updatePageButtons] marks a button as disabled exactly where a
    step in its direction would wrap around: "Previous Page" on the first
    page, where the step leads to the last page, and "Next Page" on the
    last page, where the step leads to the first.  Where a button is not
    marked, the step leads to the neighbouring page. *)
Theorem buttons_disabled_where_paging_wraps (w : LinkSelectionModal) :
  pageInRange w →
  changePage (-1) w
  = Some (atPage (if (updatePageButtons w).1
                  then Z.of_nat (totalPages w) - 1
                  else modal_currentPage w - 1)%Z w)
  ∧ changePage 1 w
    = Some (atPage (if (updatePageButtons w).2 then 0
                    else modal_currentPage w + 1)%Z w).
Proof.
  intros Hr. pose proof Hr as Hr'. unfold pageInRange in Hr'.
  rewrite !changePage_mod by first [exact Hr | lia].
  unfold updatePageButtons.
  destruct (totalPages w <=? 1) eqn:E;
    [apply Nat.leb_le in E | apply Nat.leb_gt in E]; cbn [fst snd].
  - assert (totalPages w = 1) as -> by lia.
    assert (modal_currentPage w = 0)%Z as -> by lia. by split.
  - split; f_equal; f_equal.
    + destruct (modal_currentPage w =? 0)%Z eqn:E0;
        [apply Z.eqb_eq in E0 | apply Z.eqb_neq in E0].
      * rewrite E0. cbn [Z.add].
        rewrite <- (Z_mod_plus_full _ 1), Z.mod_small; lia.
      * apply Z.mod_small. lia.
    + destruct (modal_currentPage w =? Z.of_nat (totalPages w) - 1)%Z eqn:E1;
        [apply Z.eqb_eq in E1 | apply Z.eqb_neq in E1].
      * rewrite E1. replace (Z.of_nat (totalPages w) - 1 + 1)%Z
          with (Z.of_nat (totalPages w)) by lia.
        apply Z_mod_same_full.
      * apply Z.mod_small. lia.
Qed.

Lemma buttons_disabled_where_paging_wraps_witness :
  changePage (-1) threeLinkWindow
  = Some (atPage (if (updatePageButtons threeLinkWindow).1
                  then Z.of_nat (totalPages threeLinkWindow) - 1
                  else modal_currentPage threeLinkWindow - 1)%Z
            threeLinkWindow)
  ∧ changePage 1 threeLinkWindow
    = Some (atPage (if (updatePageButtons threeLinkWindow).2 then 0
                    else modal_currentPage threeLinkWindow + 1)%Z
              threeLinkWindow).
Proof.
  apply (buttons_disabled_where_paging_wraps threeLinkWindow).
  vm_compute. split; [discriminate | reflexivity].
Defined.

(** ** The selection window: the selection *)

Lemma elem_of_set_add i j s : j ∈ set_add i s ↔ j = i ∨ j ∈ s.
Proof.
  unfold set_add. case_bool_decide as Hi.
  - split; [by right | intros [->|H]; done].
  - rewrite elem_of_app, list_elem_of_singleton. tauto.
Qed.

Lemma NoDup_set_add i s : NoDup s → NoDup (set_add i s).
Proof.
  intros Hs. unfold set_add. case_bool_decide as Hi; [exact Hs|].
  apply NoDup_app. split; [exact Hs|]. split; [|apply NoDup_singleton].
  intros x Hx ->%list_elem_of_singleton. by apply Hi.
Qed.

Lemma elem_of_addAll objs : ∀ s j, j ∈ addAll s objs ↔ j ∈ s ∨ j ∈ objs.*1.
Proof.
  induction objs as [|[i l] objs IH]; intros s j; cbn [addAll foldl fmap list_fmap].
  - rewrite elem_of_nil. tauto.
  - fold (addAll (set_add i s) objs). rewrite IH, elem_of_set_add, elem_of_cons.
    cbn. tauto.
Qed.

Lemma NoDup_addAll objs : ∀ s, NoDup s → NoDup (addAll s objs).
Proof.
  induction objs as [|[i l] objs IH]; intros s Hs; [exact Hs|].
  cbn [addAll foldl]. apply IH, NoDup_set_add, Hs.
Qed.

Lemma addAll_fresh objs : ∀ s,
  NoDup (s ++ objs.*1) → addAll s objs = s ++ objs.*1.
Proof.
  induction objs as [|[i l] objs IH]; intros s Hs;
    cbn [addAll foldl fmap list_fmap]; [by rewrite app_nil_r|].
  fold (addAll (set_add i s) objs). cbn [fst] in *.
  assert (Hi : i ∉ s).
  { apply NoDup_app in Hs as (_ & Hs & _). intros Hin.
    apply (Hs i Hin), list_elem_of_here. }
  unfold set_add. rewrite bool_decide_eq_false_2 by exact Hi.
  rewrite IH; rewrite <- app_assoc; [reflexivity | exact Hs].
Qed.

Lemma linkObjects_fst w :
  (linkObjects w).*1 = List.seq 0 (length (modal_potentialLinks w)).
Proof.
  unfold linkObjects. rewrite fmap_imap.
  rewrite <- (list_fmap_id (List.seq 0 _)), <- imap_seq_0. reflexivity.
Qed.

Lemma lookup_all {A} (l : list A) : ∀ pre,
  omap (fun i => (pre ++ l) !! i) (List.seq (length pre) (length l)) = l.
Proof.
  induction l as [|x l IH]; intros pre; [reflexivity|].
  cbn [length List.seq omap list_omap].
  rewrite list_lookup_middle by reflexivity. f_equal.
  specialize (IH (pre ++ [x])). rewrite <- app_assoc, length_app in IH.
  cbn [length app] in IH. rewrite Nat.add_1_r in IH. exact IH.
Qed.

Lemma linksToShow_subseteq w : linksToShow w ⊆ linkObjects w.
Proof.
  intros il Hil. unfold linksToShow, array_slice in Hil.
  by apply subseteq_take, subseteq_drop in Hil.
Qed.

Lemma linkObjects_lt w il :
  il ∈ linkObjects w → il.1 < length (modal_potentialLinks w).
Proof.
  intros Hil. apply elem_of_lookup_imap_1 in Hil as (j & y & -> & Hj).
  by apply lookup_lt_Some in Hj.
Qed.

Lemma validChecked_addAll w objs :
  objs ⊆ linkObjects w → validChecked w →
  validChecked (withChecked w (addAll (modal_checkedLinks w) objs)).
Proof.
  intros Hsub [Hnd Hlt].
  split; cbn [withChecked modal_checkedLinks modal_potentialLinks].
  - by apply NoDup_addAll.
  - apply Forall_forall. intros i Hi.
    apply elem_of_addAll in Hi as [Hi|Hi].
    + exact (proj1 (Forall_forall _ _) Hlt i Hi).
    + apply list_elem_of_fmap in Hi as (il & -> & Hil).
      apply linkObjects_lt, Hsub, Hil.
Qed.

Lemma validChecked_count w :
  validChecked w →
  length (modal_checkedLinks w) ≤ length (modal_potentialLinks w).
Proof.
  intros [Hnd Hlt].
  assert (H1 : modal_checkedLinks w
               ⊆+ List.seq 0 (length (modal_potentialLinks w))).
  { apply NoDup_submseteq; [exact Hnd|].
    intros i Hi. apply elem_of_seq.
    pose proof (proj1 (Forall_forall _ _) Hlt i Hi) as Hi'.
    cbv beta in Hi'. lia. }
  apply submseteq_length in H1. by rewrite length_seq in H1.
Qed.

(** X19.  "Select All" checks every link: every checkbox of every page is
    checked afterwards.  In a window where nothing was checked before, the
    links that "Confirm" hands to the rewrite are then all links of the
    window in the order of the scan.  The selection stays one of distinct
    links of the window, and the label counts all of them. *)
Theorem selectAll_checks_every_link (w : LinkSelectionModal) :
  (∀ i, i < length (modal_potentialLinks w) →
        i ∈ modal_checkedLinks (selectAll w))
  ∧ (∀ k, Forall (fun row => row.2 = true)
            (displayLinks (atPage k (selectAll w))))
  ∧ (modal_checkedLinks w = [] →
     linksToInsertOf (selectAll w) = modal_potentialLinks w)
  ∧ (validChecked w →
     validChecked (selectAll w)
     ∧ updateSelectionCount (selectAll w)
       = (length (modal_potentialLinks w), length (modal_potentialLinks w))).
Proof.
  assert (Hall : ∀ i, i < length (modal_potentialLinks w) →
                      i ∈ modal_checkedLinks (selectAll w)).
  { intros i Hi. cbn [selectAll withChecked modal_checkedLinks].
    apply elem_of_addAll. right. rewrite linkObjects_fst.
    apply elem_of_seq. lia. }
  split; [exact Hall|]. split; [|split].
  - intros k. unfold displayLinks. apply Forall_fmap, Forall_forall.
    intros [i l] Hil. cbn. apply bool_decide_eq_true.
    change (modal_checkedLinks (atPage k (selectAll w)))
      with (modal_checkedLinks (selectAll w)).
    apply Hall.
    apply (linkObjects_lt w (i, l)).
    apply (linksToShow_subseteq (atPage k (selectAll w))) in Hil.
    exact Hil.
  - intros Hnone. unfold linksToInsertOf.
    cbn [selectAll withChecked modal_checkedLinks modal_potentialLinks].
    rewrite Hnone, addAll_fresh.
    2:{ cbn [app]. rewrite linkObjects_fst. apply NoDup_seq. }
    cbn [app]. rewrite linkObjects_fst.
    exact (lookup_all (modal_potentialLinks w) []).
  - intros Hv.
    assert (Hv' : validChecked (selectAll w))
      by (by apply (validChecked_addAll w (linkObjects w))).
    split; [exact Hv'|]. unfold updateSelectionCount. f_equal.
    pose proof (validChecked_count _ Hv') as Hle.
    change (modal_potentialLinks (selectAll w)) with (modal_potentialLinks w)
      in Hle.
    set (n := length (modal_potentialLinks w)) in *.
    assert (H2 : List.seq 0 n ⊆+ modal_checkedLinks (selectAll w)).
    { apply NoDup_submseteq; [apply NoDup_seq|].
      intros i Hi. apply elem_of_seq in Hi. apply Hall. lia. }
    apply submseteq_length in H2. rewrite length_seq in H2. lia.
Qed.

Lemma selectAll_checks_every_link_witness :
  linksToInsertOf (selectAll threeLinkWindow)
  = modal_potentialLinks threeLinkWindow.
Proof.
  apply (proj1 (proj2 (proj2 (selectAll_checks_every_link threeLinkWindow)))).
  reflexivity.
Defined.

(** X20.  "Select All on This Page" checks the links of the page that is
    shown and no other: every checkbox of the page is checked afterwards,
    and a link is selected afterwards exactly when it was selected before
    or is on the page. *)
Theorem selectAllOnPage_checks_the_page (w : LinkSelectionModal) :
  Forall (fun row => row.2 = true) (displayLinks (selectAllOnPage w))
  ∧ (∀ i, i ∈ modal_checkedLinks (selectAllOnPage w)
          ↔ i ∈ modal_checkedLinks w ∨ i ∈ (linksToShow w).*1)
  ∧ (validChecked w → validChecked (selectAllOnPage w)).
Proof.
  assert (Hiff : ∀ i, i ∈ modal_checkedLinks (selectAllOnPage w)
                      ↔ i ∈ modal_checkedLinks w ∨ i ∈ (linksToShow w).*1).
  { intros i. cbn [selectAllOnPage withChecked modal_checkedLinks].
    apply elem_of_addAll. }
  split; [|split; [exact Hiff|]].
  - unfold displayLinks. apply Forall_fmap, Forall_forall.
    intros [i l] Hil. cbn. apply bool_decide_eq_true, Hiff. right.
    change (linksToShow (selectAllOnPage w)) with (linksToShow w) in Hil.
    apply list_elem_of_fmap. by exists (i, l).
  - apply validChecked_addAll, linksToShow_subseteq.
Qed.

Lemma selectAllOnPage_checks_the_page_witness :
  validChecked threeLinkWindow
  ∧ validChecked (selectAllOnPage threeLinkWindow).
Proof.
  assert (H : validChecked threeLinkWindow) by (split; constructor).
  split; [exact H|].
  exact (proj2 (proj2 (selectAllOnPage_checks_the_page threeLinkWindow)) H).
Defined.

Lemma set_delete_add i s : i ∉ s → set_delete i (set_add i s) = s.
Proof.
  intros Hi. unfold set_add, set_delete.
  rewrite bool_decide_eq_false_2 by exact Hi.
  rewrite filter_app, filter_cons_False, filter_nil, app_nil_r
    by (intros H; by apply H).
  apply filter_all. intros x Hx ->. by apply Hi.
Qed.

(** X21.  Checking a box and unchecking it again leaves the selection as it
    was.  The other way round, unchecking a checked box and checking it
    again, the link is selected as before but has moved to the end of the
    selection, which is the order in which "Confirm" hands the links to
    the rewrite.  Checking a box that is checked changes nothing. *)
Theorem checkbox_change_round_trip (w : LinkSelectionModal) (i : nat) :
  (i ∉ modal_checkedLinks w →
   onCheckboxChange i false (onCheckboxChange i true w) = w)
  ∧ (i ∈ modal_checkedLinks w →
     onCheckboxChange i true w = w
     ∧ modal_checkedLinks (onCheckboxChange i true (onCheckboxChange i false w))
       = set_delete i (modal_checkedLinks w) ++ [i]).
Proof.
  split.
  - intros Hi. destruct w as [links ps cp checked file].
    unfold onCheckboxChange, withChecked.
    cbn [modal_checkedLinks modal_potentialLinks modal_pageSize
         modal_currentPage modal_activeFile] in *.
    by rewrite set_delete_add.
  - intros Hi. destruct w as [links ps cp checked file].
    unfold onCheckboxChange, withChecked.
    cbn [modal_checkedLinks modal_potentialLinks modal_pageSize
         modal_currentPage modal_activeFile] in *. split.
    + unfold set_add. by rewrite bool_decide_eq_true_2.
    + unfold set_add. rewrite bool_decide_eq_false_2; [reflexivity|].
      unfold set_delete. intros Hin. apply list_elem_of_filter in Hin as [H _].
      by apply H.
Qed.

Lemma checkbox_change_round_trip_witness :
  onCheckboxChange 1 false (onCheckboxChange 1 true threeLinkWindow)
  = threeLinkWindow.
Proof.
  apply (proj1 (checkbox_change_round_trip threeLinkWindow 1)).
  apply not_elem_of_nil.
Defined.

(** ** The selection window: what its controls keep *)

Lemma apply_modal_event_inv w e :
  windowInv w → modal_event_ok w e →
  ∃ w', apply_modal_event w e = Some w' ∧ windowInv w'
        ∧ modal_potentialLinks w' = modal_potentialLinks w.
Proof.
  intros (Hps & Hr & Hv) He.
  destruct e as [i checked| | |delta]; cbn [apply_modal_event modal_event_ok] in *.
  - eexists. split; [reflexivity|]. split; [|reflexivity].
    split; [exact Hps|]. split; [exact Hr|].
    destruct Hv as [Hnd Hlt]. unfold validChecked, onCheckboxChange.
    cbn [withChecked modal_checkedLinks modal_potentialLinks].
    destruct checked.
    + split; [by apply NoDup_set_add|].
      apply Forall_forall. intros j Hj. apply elem_of_set_add in Hj as [->|Hj].
      * apply list_elem_of_fmap in He as (il & -> & Hil).
        apply linkObjects_lt, linksToShow_subseteq, Hil.
      * exact (proj1 (Forall_forall _ _) Hlt j Hj).
    + split.
      * by apply NoDup_filter.
      * apply Forall_forall. intros j Hj.
        apply list_elem_of_filter in Hj as [_ Hj].
        exact (proj1 (Forall_forall _ _) Hlt j Hj).
  - eexists. split; [reflexivity|]. split; [|reflexivity].
    split; [exact Hps|]. split; [exact Hr|].
    by apply (validChecked_addAll w (linkObjects w)).
  - eexists. split; [reflexivity|]. split; [|reflexivity].
    split; [exact Hps|]. split; [exact Hr|].
    apply validChecked_addAll; [apply linksToShow_subseteq | exact Hv].
  - rewrite changePage_mod by first [exact Hr | unfold pageInRange in Hr; lia].
    eexists. split; [reflexivity|]. split; [|reflexivity].
    split; [exact Hps|]. split; [|exact Hv].
    unfold pageInRange in *. cbn [atPage modal_currentPage].
    change (totalPages (atPage _ w)) with (totalPages w).
    apply Z.mod_pos_bound. lia.
Qed.

Lemma newLinkSelectionModal_inv links activeFile plugin :
  links ≠ [] → windowInv (newLinkSelectionModal links activeFile plugin).
Proof.
  intros Hne.
  assert (Hps : 1 ≤ modal_pageSize (newLinkSelectionModal links activeFile plugin)).
  { cbn [newLinkSelectionModal modal_pageSize].
    destruct (pageSize (settings plugin) =? 0) eqn:E;
      [lia | apply Nat.eqb_neq in E; lia]. }
  split; [exact Hps|]. split.
  - unfold pageInRange. cbn [newLinkSelectionModal modal_currentPage].
    destruct (ceilDiv_spec (length links) _ Hps) as (H1 & _).
    unfold totalPages. cbn [newLinkSelectionModal modal_potentialLinks] in *.
    destruct links; [done|]. cbn [length] in *.
    destruct (ceilDiv _ _); [lia | lia].
  - split; [apply NoDup_nil_2 | constructor].
Qed.

Lemma linksToInsertOf_valid w :
  validChecked w →
  linksToInsertOf w ⊆ modal_potentialLinks w
  ∧ length (linksToInsertOf w) = length (modal_checkedLinks w).
Proof.
  intros [_ Hlt]. unfold linksToInsertOf.
  induction (modal_checkedLinks w) as [|i s IH].
  { split; [|reflexivity]. intros x Hx. by apply not_elem_of_nil in Hx. }
  apply Forall_cons in Hlt as [Hi Hlt]. destruct (IH Hlt) as [IH1 IH2].
  cbn [omap list_omap].
  destruct (lookup_lt_is_Some_2 _ _ Hi) as [l Hl]. rewrite Hl. split.
  - intros x Hx. apply elem_of_cons in Hx as [->|Hx].
    + by eapply list_elem_of_lookup_2.
    + by apply IH1.
  - cbn [length]. by rewrite IH2.
Qed.

(** X22.  Whatever is done with the controls of a window that was opened
    with at least one link, the window stays consistent: the page it shows
    exists and is not empty, the page indicator, when it is shown, names a
    page between the first and the last, the selection holds distinct
    links of the window, so the label never counts more selected links
    than there are, and "Confirm" hands over one link of the window for
    each selected one. *)
Theorem window_stays_consistent (links : list Link) (activeFile : AbstractFile)
    (plugin : Plugin) (es : list modal_event) :
  links ≠ [] →
  modal_events_ok (newLinkSelectionModal links activeFile plugin) es →
  ∃ w,
    run_modal_events (newLinkSelectionModal links activeFile plugin) es = Some w
    ∧ modal_potentialLinks w = links
    ∧ pageInRange w
    ∧ linksToShow w ≠ []
    ∧ (∀ i n, updatePageIndicator w = Some (i, n) → (1 ≤ i ≤ Z.of_nat n)%Z)
    ∧ validChecked w
    ∧ (updateSelectionCount w).1 ≤ (updateSelectionCount w).2
    ∧ linksToInsertOf w ⊆ links
    ∧ length (linksToInsertOf w) = (updateSelectionCount w).1.
Proof.
  intros Hne Hok.
  pose proof (newLinkSelectionModal_inv links activeFile plugin Hne) as Hinv.
  assert (Hlinks : modal_potentialLinks
                     (newLinkSelectionModal links activeFile plugin) = links)
    by reflexivity.
  revert Hok Hinv Hlinks.
  generalize (newLinkSelectionModal links activeFile plugin) as w0.
  induction es as [|e es IH]; intros w0 Hok Hinv Hlinks.
  - exists w0. split; [reflexivity|]. split; [exact Hlinks|].
    destruct Hinv as (Hps & Hr & Hv). split; [exact Hr|].
    pose proof Hr as Hr'. unfold pageInRange in Hr'.
    split; [|split; [|split]].
    + pose proof (page_length w0 (Z.to_nat (modal_currentPage w0)) Hps
                    ltac:(lia)) as Hlen.
      rewrite Z2Nat.id, atPage_same in Hlen by lia.
      intros E. rewrite E in Hlen. cbn in Hlen. lia.
    + intros i n. unfold updatePageIndicator.
      destruct (1 <? totalPages w0); [|discriminate].
      intros [= <- <-]. lia.
    + exact Hv.
    + destruct (linksToInsertOf_valid w0 Hv) as [H1 H2].
      split; [exact (validChecked_count w0 Hv)|].
      split; [by rewrite <- Hlinks | exact H2].
  - cbn [modal_events_ok run_modal_events] in *. destruct Hok as [He Hok].
    destruct (apply_modal_event_inv w0 e Hinv He) as (w' & Hw' & Hinv' & Hl').
    rewrite Hw' in *. apply IH; [exact Hok | exact Hinv' | congruence].
Qed.

Lemma window_stays_consistent_witness :
  ∃ w,
    run_modal_events
      (newLinkSelectionModal threeLinks (fileAt "n.md" "n") pageOfTwoPlugin)
      [Page (-1); Toggle 2 true; SelectAllOnPage; Page 1; Toggle 0 false]
    = Some w
    ∧ modal_potentialLinks w = threeLinks
    ∧ pageInRange w
    ∧ linksToShow w ≠ []
    ∧ (∀ i n, updatePageIndicator w = Some (i, n) → (1 ≤ i ≤ Z.of_nat n)%Z)
    ∧ validChecked w
    ∧ (updateSelectionCount w).1 ≤ (updateSelectionCount w).2
    ∧ linksToInsertOf w ⊆ threeLinks
    ∧ length (linksToInsertOf w) = (updateSelectionCount w).1.
Proof.
  apply (window_stays_consistent threeLinks (fileAt "n.md" "n") pageOfTwoPlugin
           [Page (-1); Toggle 2 true; SelectAllOnPage; Page 1; Toggle 0 false]).
  - discriminate.
  - vm_compute. repeat split; first [by right | by left | idtac].
Defined.

(** ** The settings tab: excluded folders *)

Lemma trimStart_head s c : head (trimStart s) = Some c → isWhiteSpace c = false.
Proof.
  induction s as [|x s IH]; [discriminate|]. cbn [trimStart].
  destruct (isWhiteSpace x) eqn:E; [exact IH|]. by intros [= <-].
Qed.

Lemma trimStart_suffix s : ∃ pre, s = pre ++ trimStart s.
Proof.
  induction s as [|x s [pre IH]]; [by exists []|]. cbn [trimStart].
  destruct (isWhiteSpace x); [|by exists []].
  exists (x :: pre). cbn. by rewrite <- IH.
Qed.

Lemma trimStart_clean s :
  (∀ c, head s = Some c → isWhiteSpace c = false) → trimStart s = s.
Proof.
  destruct s as [|x s]; [reflexivity|]. intros H. cbn [trimStart].
  by rewrite (H x eq_refl).
Qed.

Lemma head_rev {A} (l : list A) : head (rev l) = last l.
Proof.
  destruct l as [|x l] using rev_ind; [reflexivity|].
  by rewrite rev_app_distr, last_snoc.
Qed.

Lemma last_rev {A} (l : list A) : last (rev l) = head l.
Proof. by rewrite <- head_rev, rev_involutive. Qed.

Lemma trim_clean s :
  (∀ c, head (trim s) = Some c → isWhiteSpace c = false)
  ∧ (∀ c, last (trim s) = Some c → isWhiteSpace c = false)
  ∧ ∃ pre post, s = pre ++ trim s ++ post.
Proof.
  unfold trim. set (t := trimStart s).
  destruct (trimStart_suffix s) as [pre Hpre]. fold t in Hpre.
  destruct (trimStart_suffix (rev t)) as [post Hpost].
  set (u := trimStart (rev t)) in *.
  split; [|split].
  - intros c Hc. rewrite head_rev in Hc.
    destruct u as [|y u'] eqn:Hu; [discriminate|].
    assert (Hl : last (rev t) = Some c).
    { rewrite Hpost. rewrite last_app, Hc. reflexivity. }
    rewrite last_rev in Hl. by apply (trimStart_head s).
  - intros c Hc. rewrite last_rev in Hc. by apply (trimStart_head (rev t)).
  - exists pre, (rev post). rewrite Hpre at 1. f_equal.
    rewrite <- rev_app_distr, <- Hpost. by rewrite rev_involutive.
Qed.

Lemma splitLines_no_newline value :
  Forall (fun line => newline ∉ line) (splitLines value).
Proof.
  induction value as [|c value IH]; cbn [splitLines].
  - repeat constructor. apply not_elem_of_nil.
  - destruct (Ascii.eqb c newline) eqn:E.
    + constructor; [apply not_elem_of_nil | exact IH].
    + apply Ascii.eqb_neq in E.
      destruct (splitLines value) as [|line lines].
      * repeat constructor. intros H%list_elem_of_singleton. by apply E.
      * apply Forall_cons in IH as [H1 H2]. constructor; [|exact H2].
        intros [H|H]%elem_of_cons; [by apply E | by apply H1].
Qed.

Lemma parseExcludedFolders_clean value :
  Forall cleanFolder (parseExcludedFolders value).
Proof.
  unfold parseExcludedFolders. apply Forall_forall. intros folder Hf.
  apply list_elem_of_filter in Hf as [Hne Hf].
  apply list_elem_of_fmap in Hf as (line & -> & Hl).
  destruct (trim_clean line) as (H1 & H2 & pre & post & H3).
  split; [exact Hne|]. split; [exact H1|]. split; [exact H2|].
  pose proof (proj1 (Forall_forall _ _) (splitLines_no_newline value) line Hl)
    as Hn. cbv beta in Hn.
  intros Hin. apply Hn. rewrite H3. apply elem_of_app. right.
  apply elem_of_app. by left.
Qed.

(** X23.  What the text area "Excluded Folders" yields: every folder is a
    line of the text without the white space around it, and blank lines
    are dropped.  So no folder is empty (an empty folder would exclude
    every note), none starts or ends with white space, and none holds a
    line feed.  The change does not touch the cache or its flag: notes
    that are cached stay cached until the cache is rebuilt. *)
Theorem excluded_folders_are_clean (value : jsstring) (p : Plugin) :
  Forall cleanFolder
    (excludedFolders (settings (onExcludedFoldersChange value p)))
  ∧ (∀ pathText, isExcluded
                  (settings (onExcludedFoldersChange value p)) pathText = true →
                pathText ≠ [])
  ∧ noteTitlesCache (onExcludedFoldersChange value p) = noteTitlesCache p
  ∧ cacheUpToDate (onExcludedFoldersChange value p) = cacheUpToDate p.
Proof.
  split; [apply parseExcludedFolders_clean|].
  split; [|split; reflexivity].
  intros pathText He ->.
  cbn [onExcludedFoldersChange settings] in He. unfold isExcluded in He.
  cbn [excludedFolders] in He.
  pose proof (parseExcludedFolders_clean value) as Hc.
  induction (parseExcludedFolders value) as [|f fs IH]; [discriminate He|].
  apply Forall_cons in Hc as [(Hne & _) Hc]. cbn [existsb] in He.
  apply orb_true_iff in He as [He|He]; [|by apply IH].
  destruct f; [done | discriminate He].
Qed.

Lemma excluded_folders_are_clean_witness :
  isExcluded (settings (onExcludedFoldersChange (js " private/ ") emptyPlugin))
    (js "private/a.md") = true
  ∧ js "private/a.md" ≠ [].
Proof.
  split; [reflexivity|].
  apply (proj1 (proj2 (excluded_folders_are_clean (js " private/ ")
                         emptyPlugin))
           (js "private/a.md")).
  reflexivity.
Defined.

Lemma splitLines_line line :
  newline ∉ line → splitLines line = [line].
Proof.
  induction line as [|c line IH]; intros Hn; [reflexivity|].
  cbn [splitLines].
  destruct (Ascii.eqb c newline) eqn:E.
  { apply Ascii.eqb_eq in E as ->. exfalso. apply Hn, list_elem_of_here. }
  rewrite IH; [reflexivity|]. intros H. by apply Hn, list_elem_of_further.
Qed.

Lemma splitLines_first line rest :
  newline ∉ line →
  splitLines (line ++ newline :: rest) = line :: splitLines rest.
Proof.
  induction line as [|c line IH]; intros Hn.
  - cbn [app splitLines]. by rewrite Ascii.eqb_refl.
  - cbn [app splitLines].
    destruct (Ascii.eqb c newline) eqn:E.
    { apply Ascii.eqb_eq in E as ->. exfalso. apply Hn, list_elem_of_here. }
    rewrite IH; [reflexivity|]. intros H. by apply Hn, list_elem_of_further.
Qed.

Lemma splitLines_joinLines folders :
  folders ≠ [] → Forall (fun f => newline ∉ f) folders →
  splitLines (joinLines folders) = folders.
Proof.
  induction folders as [|f folders IH]; intros Hne Hn; [done|].
  apply Forall_cons in Hn as [Hf Hn].
  destruct folders as [|g folders].
  - cbn [joinLines]. by apply splitLines_line.
  - change (joinLines (f :: g :: folders))
      with (f ++ newline :: joinLines (g :: folders)).
    rewrite splitLines_first by exact Hf. f_equal. by apply IH.
Qed.

Lemma trim_cleanFolder f : cleanFolder f → trim f = f.
Proof.
  intros (_ & H1 & H2 & _). unfold trim.
  rewrite (trimStart_clean f H1). rewrite trimStart_clean.
  - apply rev_involutive.
  - intros c Hc. rewrite head_rev in Hc. by apply H2.
Qed.

Lemma parseExcludedFolders_joinLines folders :
  Forall cleanFolder folders →
  parseExcludedFolders (joinLines folders) = folders.
Proof.
  intros Hc. unfold parseExcludedFolders.
  destruct folders as [|f folders]; [reflexivity|].
  rewrite splitLines_joinLines; [|done|].
  2:{ eapply Forall_impl; [exact Hc|]. by intros x (_ & _ & _ & Hx). }
  rewrite (list_fmap_ext trim id).
  2:{ intros i x Hx. apply trim_cleanFolder.
      exact (proj1 (Forall_forall _ _) Hc x (list_elem_of_lookup_2 _ _ _ Hx)). }
  rewrite list_fmap_id. apply filter_all. intros x Hx.
  exact (proj1 (proj1 (Forall_forall _ _) Hc x Hx)).
Qed.

(** X24.  The text area shows the excluded folders one on each line, and
    reading that text back gives the same folders, provided each of them is
    one the text area can yield.  So showing the setting and storing it
    unchanged keeps it, and reading a text, showing the result and reading
    again gives what the first reading gave. *)
Theorem excluded_folders_round_trip (s : Settings) (p : Plugin)
    (value : jsstring) :
  (Forall cleanFolder (excludedFolders s) →
   parseExcludedFolders (excludedFoldersText s) = excludedFolders s)
  ∧ parseExcludedFolders
      (excludedFoldersText (settings (onExcludedFoldersChange value p)))
    = parseExcludedFolders value.
Proof.
  split; [apply parseExcludedFolders_joinLines|].
  apply parseExcludedFolders_joinLines, parseExcludedFolders_clean.
Qed.

Lemma excluded_folders_round_trip_witness :
  parseExcludedFolders (excludedFoldersText privateSettings)
  = excludedFolders privateSettings.
Proof.
  apply (proj1 (excluded_folders_round_trip privateSettings emptyPlugin [])).
  repeat constructor; first [discriminate | by intros c [= <-] | idtac].
  apply (bool_decide_unpack (newline ∉ js "private/")).
  vm_compute. exact I.
Defined.

(** ** Stored data *)

(** X25.  The settings survive being saved and loaded: loading what
    [saveSettings] stored gives back the settings object.  Saving the
    cache in between does not keep them, because the cache is stored in
    the place of the settings: what is loaded then are the defaults, as
    when nothing is stored. *)
Theorem settings_round_trip (so : SettingsObject) (p : Plugin) :
  loadSettings (Some (saveSettings so)) = so
  ∧ so_settings (loadSettings (Some (saveCache p))) = settingsDefaults
  ∧ so_settings (loadSettings None) = settingsDefaults.
Proof.
  split; [|split; reflexivity].
  destruct so as [[folders size wiki case front] cache flag]. reflexivity.
Qed.

(** X26.  A cache that was saved as up to date is taken as it is when it is
    loaded, without a look at the files.  A cache that was saved as stale,
    and the object that [saveSettings] stores for settings that carry no
    cache, make [loadCache] rebuild the cache from the loaded files. *)
Theorem cache_round_trip (p q : Plugin) (loadedFiles : list AbstractFile)
    (so : SettingsObject) :
  (cacheUpToDate p = true →
   loadCache (Some (saveCache p)) loadedFiles q
   = {| settings := settings q; noteTitlesCache := noteTitlesCache p;
        cacheUpToDate := true |})
  ∧ (cacheUpToDate p = false →
     loadCache (Some (saveCache p)) loadedFiles q = updateCache loadedFiles q)
  ∧ (so_noteTitlesCache so = None →
     loadCache (Some (saveSettings so)) loadedFiles q
     = updateCache loadedFiles q).
Proof.
  split; [|split].
  - intros H. unfold loadCache, saveCache. cbn. by rewrite H.
  - intros H. unfold loadCache, saveCache. cbn. by rewrite H.
  - intros H. unfold loadCache, saveSettings. cbn. by rewrite H.
Qed.

Lemma cache_round_trip_witness :
  loadCache (Some (saveCache blockedPlugin)) [] emptyPlugin
  = {| settings := settings emptyPlugin;
       noteTitlesCache := noteTitlesCache blockedPlugin;
       cacheUpToDate := true |}.
Proof.
  apply (proj1 (cache_round_trip blockedPlugin emptyPlugin []
                  (loadSettings None))).
  reflexivity.
Defined.

